(** * Haversine: great-circle distance on binary64 floats

    A shallow embedding of [haversine.go] (package [haversine]) and the
    proofs of its specification.

    Go's [float64] is IEEE-754 binary64; it is modelled by Rocq's primitive
    floats ([PrimFloat.float]), whose operations are specified by
    [SpecFloat] (round to nearest, ties to even).  Every operation of the
    source is rounded on its own, as the Go compiler does on amd64 (no
    fused multiply-add).

    The functions of Go's package [math] that the source calls and that
    are not IEEE operations ([math.Sin], [math.Cos], [math.Atan2],
    [math.Pow]) are not part of this repository: the model takes them as a
    record [MathLib].  [math.Sqrt] is the correctly rounded IEEE square
    root and [math.Pi] is the constant rounded to binary64.

    What a claim needs of the library is a hypothesis of its theorem:
    algebraic facts (an odd sine, the value at 0), the accuracy of the
    library at the arguments of one call ([accurate_at]), or its rounding
    to nearest there ([rounds_to_nearest_at]).  The last two refer to the
    real sine, cosine and arc tangent of the Standard Library, which are
    enclosed by rational Taylor sums. *)

From Stdlib Require Import Reals Qreals Lra.
From Stdlib Require Import ZArith QArith Qpower Qabs Bool Lia String.
From Stdlib Require Import Floats.

(** ** Package [errors]: an error made by [errors.New] is its message. *)

Inductive error : Type :=
| errors_New (text : string).

(** ** Package [math]: what the source imports from it. *)

Module math.

(** [math.Pi], converted to [float64] where the source multiplies a
    [float64] by it. *)
Definition Pi : float := 0x1.921fb54442d18p+1%float.

(** [math.Sqrt]: the IEEE-754 square root. *)
Definition Sqrt (x : float) : float := PrimFloat.sqrt x.

(** The other functions, left to the platform's library. *)
Record MathLib : Type := {
  Sin : float -> float;
  Cos : float -> float;
  Atan2 : float -> float -> float;
  Pow : float -> float -> float
}.

End math.

(** ** The source file [haversine.go] *)

Section Source.

Variable libm : math.MathLib.

Local Open Scope float_scope.

(** [const earthRadius = 6371] *)
Definition earthRadius : float := 6371.

(** [func degToRad(deg float64) (rad float64)]: [deg * math.Pi / 180],
    a product and then a quotient of [float64]. *)
Definition degToRad (deg : float) : float := deg * math.Pi / 180.

(** [func isValidLatitude(lat float64) bool]: [lat >= -90 && lat <= 90];
    [lat >= -90] is the IEEE comparison [-90 <= lat], false on a NaN. *)
Definition isValidLatitude (lat : float) : bool :=
  (-90 <=? lat) && (lat <=? 90).

(** [func isValidLongitude(lon float64) bool]: [lon >= -180 && lon <= 180] *)
Definition isValidLongitude (lon : float) : bool :=
  (-180 <=? lon) && (lon <=? 180).

(** The error of the validation failure (the specification's
    [InvalidCoordinate]). *)
Definition InvalidCoordinate : error :=
  errors_New "haversine: invalid latitude or longitude values".

(** [func Haversine(lat1, lon1, lat2, lon2 float64) (distance float64, err error)];
    a [nil] error is [None]. *)
Definition Haversine (lat1 lon1 lat2 lon2 : float) : float * option error :=
  if negb (isValidLatitude lat1) || negb (isValidLatitude lat2)
     || negb (isValidLongitude lon1) || negb (isValidLongitude lon2)
  then (-1, Some InvalidCoordinate)
  else
    let dLat := degToRad (lat2 - lat1) in
    let dLon := degToRad (lon2 - lon1) in
    let a := math.Pow libm (math.Sin libm (dLat / 2)) 2
             + math.Cos libm (degToRad lat1) * math.Cos libm (degToRad lat2)
               * math.Pow libm (math.Sin libm (dLon / 2)) 2 in
    let c := 2 * math.Atan2 libm (math.Sqrt a) (math.Sqrt (1 - a)) in
    (earthRadius * c, None).

End Source.

(** ** The value of a float

    A binary64 datum is a NaN, an infinity or a rational number; [F2Q]
    gives the rational, [None] for the three non-finite cases. *)

Definition SF2Q (x : spec_float) : option Q :=
  match x with
  | S754_zero _ => Some 0%Q
  | S754_finite s m e => Some (inject_Z (cond_Zopp s (Zpos m)) * 2 ^ e)%Q
  | S754_infinity _ | S754_nan => None
  end.

Definition F2Q (x : float) : option Q := SF2Q (Prim2SF x).

(** [x] is a number of the closed interval [[lo, hi]]. *)
Definition InRange (lo hi : Q) (x : float) : Prop :=
  exists q, F2Q x = Some q /\ (lo <= q <= hi)%Q.

(** The same, as the test a program can run. *)
Definition in_range (lo hi : Q) (x : float) : bool :=
  match F2Q x with
  | Some q => Qle_bool lo q && Qle_bool q hi
  | None => false
  end.

(** The three non-finite data. *)
Definition NonFinite (x : float) : Prop :=
  x = nan \/ x = infinity \/ x = neg_infinity.

(** A coordinate pair accepted by the data model of the specification. *)
Definition ValidLat (lat : float) : Prop := InRange (-90) 90 lat.
Definition ValidLon (lon : float) : Prop := InRange (-180) 180 lon.

(** ** The specification's algorithm

    Section 4.1 of the specification, step by step.  The squared sine is
    the square as the library's power function gives it, the library
    being the one the source calls. *)

Module Spec.
Section Algorithm.

Variable libm : math.MathLib.

Local Open Scope float_scope.

Definition earthRadiusKm : float := 6371.

(** Degree-to-radian conversion: radians = degrees * pi / 180. *)
Definition radians (degrees : float) : float := degrees * math.Pi / 180.

Definition sin2 (x : float) : float := math.Pow libm (math.Sin libm x) 2.

(** Steps 1 and 2: the haversine [a] of the central angle. *)
Definition a (lat1 lon1 lat2 lon2 : float) : float :=
  let dLat := radians (lat2 - lat1) in
  let dLon := radians (lon2 - lon1) in
  sin2 (dLat / 2)
  + math.Cos libm (radians lat1) * math.Cos libm (radians lat2)
    * sin2 (dLon / 2).

(** Step 3: the central angle. *)
Definition c (a : float) : float :=
  2 * math.Atan2 libm (math.Sqrt a) (math.Sqrt (1 - a)).

(** Step 4: the distance in kilometres. *)
Definition distance (lat1 lon1 lat2 lon2 : float) : float :=
  earthRadiusKm * c (a lat1 lon1 lat2 lon2).

End Algorithm.
End Spec.

(** ** Test data of the specification *)

(** The binary64 literals [90.0001] and [180.0001] of the boundary test. *)
Definition lat_90_0001 : float := 0x1.68001a36e2eb2p+6%float.
Definition lon_180_0001 : float := 0x1.68000d1b71759p+7%float.

(** New York City and Los Angeles, the coordinates of the package's
    example: the binary64 literals [40.7128], [-74.0060], [34.0549] and
    [-118.2426]. *)
Definition nyc_lat : float := 0x1.45b3d07c84b5ep+5%float.
Definition nyc_lon : float := (-0x1.280624dd2f1aap+6)%float.
Definition la_lat : float := 0x1.10706f6944674p+5%float.
Definition la_lon : float := (-0x1.d8f86c226809dp+6)%float.

(** [x] is a binary64 number nearest to the rational [q]: neither of its
    two neighbours is closer. *)
Definition Qdist (q : Q) (x : float) : option Q :=
  match F2Q x with
  | Some v => Some (Qabs (v - q))
  | None => None
  end.

Definition nearest_binary64 (q : Q) (x : float) : bool :=
  match Qdist q x, Qdist q (next_down x), Qdist q (next_up x) with
  | Some d, Some dl, Some du => Qle_bool d dl && Qle_bool d du
  | _, _, _ => false
  end.

(** [b] chooses between a bound and its opposite. *)
Definition signed (b : bool) (x : float) : float :=
  if b then x else (- x)%float.

(** A library to run the model on.  It stands for no platform: the sine
    is the identity, the cosine is 1, the arc tangent of [y / x] is
    [y / (|x| + |y|)] and the power is the square of its base, whatever
    the exponent. *)
Definition libm0 : math.MathLib :=
  {| math.Sin := fun x => x;
     math.Cos := fun _ => 1%float;
     math.Atan2 := fun y x => (y / (PrimFloat.abs x + PrimFloat.abs y))%float;
     math.Pow := fun x _ => (x * x)%float |}.

(** ** What the claims ask of the library

    The specification names [math.Sin], [math.Cos], [math.Pow] and
    [math.Atan2] and says no more of them.  Each property below is
    assumed by the one claim that does not hold without it. *)

(** The squared sine is even ([math.Sin] is odd and [math.Pow] with the
    exponent 2 is even in its base). *)
Definition sin2_even (libm : math.MathLib) : Prop :=
  forall x : float,
    math.Pow libm (math.Sin libm (- x)%float) 2%float
    = math.Pow libm (math.Sin libm x) 2%float.

(** [math.Sin] maps [+0] to [+0] (documented: [Sin(+-0) = +-0]). *)
Definition sin_zero (libm : math.MathLib) : Prop :=
  math.Sin libm 0%float = 0%float.

(** [math.Pow] maps the base [+0] and the exponent 2 to [+0] (documented:
    [Pow(+-0, y) = +0] for finite [y > 0] that is not an odd integer). *)
Definition pow_zero (libm : math.MathLib) : Prop :=
  math.Pow libm 0%float 2%float = 0%float.

(** [math.Cos] maps a number to a number of [[-2, 2]]: a cosine, with
    room for the error of an approximation. *)
Definition cos_bounded (libm : math.MathLib) : Prop :=
  forall x : float, F2Q x <> None -> InRange (-2) 2 (math.Cos libm x).

(** [math.Atan2] maps [(+0, 1)] to [+0] (documented:
    [Atan2(+0, x>=0) = +0]). *)
Definition atan2_zero (libm : math.MathLib) : Prop :=
  math.Atan2 libm 0%float 1%float = 0%float.

(** Two libraries that may differ only in the sine and the cosine of a
    NaN or of an infinity. *)
Definition agree_on_numbers (libm libm' : math.MathLib) : Prop :=
  (forall x : float, F2Q x <> None -> math.Sin libm x = math.Sin libm' x)
  /\ (forall x : float, F2Q x <> None -> math.Cos libm x = math.Cos libm' x)
  /\ (forall y x : float, math.Atan2 libm y x = math.Atan2 libm' y x)
  /\ (forall x y : float, math.Pow libm x y = math.Pow libm' x y).

(** [libm0], but for the sine and the cosine of what is not a number. *)
Definition libm1 : math.MathLib :=
  {| math.Sin := fun x => match F2Q x with Some _ => x | None => 1%float end;
     math.Cos := fun x => match F2Q x with Some _ => 1%float | None => nan end;
     math.Atan2 := math.Atan2 libm0;
     math.Pow := math.Pow libm0 |}.

(** [math.Atan2] of a NaN is a NaN (documented: [Atan2(y, NaN) = NaN]). *)
Definition atan2_nan (libm : math.MathLib) : Prop :=
  forall y : float, math.Atan2 libm y nan = nan.

(** ** Binary64 data as integers *)

(** The exponent of the smallest subnormal and the value of a datum
    counted in units of [2 ^ emin64]: an integer. *)
Definition emin64 : Z := -1074.

Definition units (x : spec_float) : Z :=
  match x with
  | S754_finite s m e => cond_Zopp s (Zpos m * 2 ^ (e - emin64))
  | _ => 0
  end.

Definition is_number (x : spec_float) : bool :=
  match x with
  | S754_zero _ | S754_finite _ _ _ => true
  | _ => false
  end.

(** A number below [2 ^ k] in absolute value: a zero, or a finite datum
    whose mantissa of [d] binary digits and exponent [e] have
    [d + e <= k]. *)
Definition mag_le (k : Z) (x : spec_float) : Prop :=
  match x with
  | S754_zero _ => True
  | S754_finite _ m e => (Zpos (digits2_pos m) + e <= k)%Z
  | S754_infinity _ | S754_nan => False
  end.

(** ** Floats among the reals *)

(** The rational value of a float, 0 for what is not a number. *)
Definition value (x : float) : Q :=
  match F2Q x with
  | Some q => q
  | None => 0%Q
  end.

(** The real value of a float. *)
Definition F2R (x : float) : R := Q2R (value x).

(** [x] is a float nearest to the real [r]. *)
Definition nearest_to (r : R) (x : float) : Prop :=
  F2Q x <> None
  /\ forall y : float, F2Q y <> None ->
                       (Rabs (F2R x - r) <= Rabs (F2R y - r))%R.

(** The library rounds to nearest the sine, the cosine and the square at
    the arguments they receive in the call
    [Haversine lat1 lon1 lat2 lon2]. *)
Definition rounds_to_nearest_at
  (libm : math.MathLib) (lat1 lon1 lat2 lon2 : float) : Prop :=
  let hLat := (degToRad (lat2 - lat1) / 2)%float in
  let hLon := (degToRad (lon2 - lon1) / 2)%float in
  let sLat := math.Sin libm hLat in
  let sLon := math.Sin libm hLon in
  nearest_to (sin (F2R hLat)) sLat
  /\ nearest_to (cos (F2R (degToRad lat1))) (math.Cos libm (degToRad lat1))
  /\ nearest_to (cos (F2R (degToRad lat2))) (math.Cos libm (degToRad lat2))
  /\ nearest_to (sin (F2R hLon)) sLon
  /\ nearest_to (F2R sLat ^ 2) (math.Pow libm sLat 2%float)
  /\ nearest_to (F2R sLon ^ 2) (math.Pow libm sLon 2%float).

(** The number of units in 1. *)
Definition scale : Z := 2 ^ (- emin64).

(** A float [s] is isolated with the gap [g], counted in units, when no
    other number is nearer to it than [g]. *)
Definition isolated (s : float) (g : Z) : Prop :=
  forall y : float,
    F2Q y <> None ->
    (Z.abs (units (Prim2SF y) - units (Prim2SF s)) < g)%Z -> y = s.

(** Taylor sums of the sine and of the cosine, in the rationals. *)
Fixpoint Qpow (a : Q) (n : nat) : Q :=
  match n with
  | O => 1%Q
  | S k => (a * Qpow a k)%Q
  end.

Fixpoint Qsum (f : nat -> Q) (n : nat) : Q :=
  match n with
  | O => f O
  | S k => (Qsum f k + f (S k))%Q
  end.

Fixpoint Zfact (n : nat) : Z :=
  match n with
  | O => 1%Z
  | S k => (Z.of_nat (S k) * Zfact k)%Z
  end.

Definition Qfact (n : nat) : Q := inject_Z (Zfact n).

Definition sin_termQ (a : Q) (i : nat) : Q :=
  (Qpow (-1) i * (Qpow a (2 * i + 1) / Qfact (2 * i + 1)))%Q.

Definition cos_termQ (a : Q) (i : nat) : Q :=
  (Qpow (-1) i * (Qpow a (2 * i) / Qfact (2 * i)))%Q.

Definition sin_approxQ (a : Q) (n : nat) : Q := Qsum (sin_termQ a) n.
Definition cos_approxQ (a : Q) (n : nat) : Q := Qsum (cos_termQ a) n.

(** The partial sums of the series of the arc tangent, in the
    rationals. *)
Definition atan_termQ (x : Q) (i : nat) : Q :=
  (Qpow (-1) i * (Qpow x (2 * i + 1) / inject_Z (Z.of_nat (2 * i + 1))))%Q.

Definition atan_approxQ (x : Q) (n : nat) : Q := Qsum (atan_termQ x) n.

(** ** An antipodal pair: (2.5, -180) and (-2.5, 0)

    The arguments of the sine and of the cosine in the call
    [Haversine 2.5 (-180) (-2.5) 0], and the floats nearest to their sine,
    cosine and square. *)
Definition hLat_a : float :=
  Eval vm_compute in (degToRad (-2.5 - 2.5) / 2)%float.
Definition rad_a : float := Eval vm_compute in (degToRad 2.5)%float.
Definition hLon_a : float :=
  Eval vm_compute in (degToRad (0 - -180) / 2)%float.
Definition sin_hLat_a : float := (-0x1.65547c4694e11p-5)%float.
Definition cos_rad_a : float := 0x1.ff833f9da45f7p-1%float.
Definition sq_sin_hLat_a : float :=
  Eval vm_compute in (sin_hLat_a * sin_hLat_a)%float.

Definition q_hLat_a : Q := Eval vm_compute in value hLat_a.
Definition q_rad_a : Q := Eval vm_compute in value rad_a.
Definition q_hLon_a : Q := Eval vm_compute in value hLon_a.
Definition q_sin_hLat_a : Q := Eval vm_compute in value sin_hLat_a.

(** A library with these nearest floats. *)
Definition libm_a : math.MathLib :=
  {| math.Sin := fun x => if (x =? hLon_a)%float then 1%float else sin_hLat_a;
     math.Cos := fun _ => cos_rad_a;
     math.Atan2 := math.Atan2 libm0;
     math.Pow := math.Pow libm0 |}.

(** ** Real values, rounding errors and the accuracy of the library *)

(** The real value of binary64 data, 0 for what is not a number. *)
Definition SF2R (x : spec_float) : R :=
  match x with
  | S754_finite s m e => (IZR (cond_Zopp s (Zpos m)) * powerRZ 2 e)%R
  | _ => 0%R
  end.

(** The exponent of the last binary digit of a number below [2 ^ k]. *)
Definition ulp_exp (k : Z) : Z := Z.max (k - 53) (-1074).

(** A bound on every rounding error met below: [2 ^ -37]. *)
Definition eps : R := (/ 137438953472)%R.

(** [x] is a number within [d] of the real [r]. *)
Definition within (d r : R) (x : float) : Prop :=
  F2Q x <> None /\ (Rabs (F2R x - r) <= d)%R.

(** The angle of the point [(x, y)] of the plane, in [(-PI, PI]]. *)
Definition Ratan2 (y x : R) : R :=
  if Rlt_dec 0 x then atan (y / x)
  else if Rlt_dec x 0
       then if Rle_dec 0 y then (atan (y / x) + PI)%R
            else (atan (y / x) - PI)%R
       else if Rlt_dec 0 y then (PI / 2)%R
            else if Rlt_dec y 0 then (- PI / 2)%R else 0%R.

(** The library is accurate to [d] at the arguments that its functions
    receive in the call [Haversine lat1 lon1 lat2 lon2]. *)
Definition accurate_at
  (d : R) (libm : math.MathLib) (lat1 lon1 lat2 lon2 : float) : Prop :=
  let hLat := (degToRad (lat2 - lat1) / 2)%float in
  let hLon := (degToRad (lon2 - lon1) / 2)%float in
  let sLat := math.Sin libm hLat in
  let sLon := math.Sin libm hLon in
  let a := Spec.a libm lat1 lon1 lat2 lon2 in
  let y := math.Sqrt a in
  let x := math.Sqrt (1 - a)%float in
  within d (sin (F2R hLat)) sLat
  /\ within d (cos (F2R (degToRad lat1))) (math.Cos libm (degToRad lat1))
  /\ within d (cos (F2R (degToRad lat2))) (math.Cos libm (degToRad lat2))
  /\ within d (sin (F2R hLon)) sLon
  /\ within d (F2R sLat ^ 2) (math.Pow libm sLat 2%float)
  /\ within d (F2R sLon ^ 2) (math.Pow libm sLon 2%float)
  /\ within d (Ratan2 (F2R y) (F2R x)) (math.Atan2 libm y x).

(** [x] is a number of the real interval [[lo, hi]]. *)
Definition RRange (lo hi : R) (x : float) : Prop :=
  F2Q x <> None /\ (lo <= F2R x <= hi)%R.

(** The arguments of the sine and of the cosine in the call
    [Haversine nyc_lat nyc_lon la_lat la_lon]. *)
Definition nyc_la_hLat : float :=
  Eval vm_compute in (degToRad (la_lat - nyc_lat) / 2)%float.
Definition nyc_la_hLon : float :=
  Eval vm_compute in (degToRad (la_lon - nyc_lon) / 2)%float.
Definition nyc_rad : float := Eval vm_compute in degToRad nyc_lat.
Definition la_rad : float := Eval vm_compute in degToRad la_lat.

Definition q_nyc_la_hLat : Q := Eval vm_compute in value nyc_la_hLat.
Definition q_nyc_la_hLon : Q := Eval vm_compute in value nyc_la_hLon.
Definition q_nyc_rad : Q := Eval vm_compute in value nyc_rad.
Definition q_la_rad : Q := Eval vm_compute in value la_rad.

(** A library accurate at these arguments: binary64 numbers near the two
    sines, the two cosines and the arc tangent of this call, and the
    rounded square. *)
Definition sLat_nyc_la : float := (-0x1.dbb2602a515ccp-5)%float.
Definition sLon_nyc_la : float := (-0x1.818e8111af948p-2)%float.
Definition cos_nyc : float := 0x1.8417162e27c5ap-1%float.
Definition cos_la : float := 0x1.a8315543748c8p-1%float.
Definition atan_nyc_la : float := 0x1.3c468f3dbc294p-2%float.

Definition libm_nyc_la : math.MathLib :=
  {| math.Sin := fun x => if (x =? nyc_la_hLat)%float
                          then sLat_nyc_la else sLon_nyc_la;
     math.Cos := fun x => if (x =? nyc_rad)%float then cos_nyc else cos_la;
     math.Atan2 := fun _ _ => atan_nyc_la;
     math.Pow := fun x _ => (x * x)%float |}.

Definition a_nyc_la : float :=
  Eval vm_compute in Spec.a libm_nyc_la nyc_lat nyc_lon la_lat la_lon.

(** ** What further properties ask of the library *)

(** Two libraries that may differ only in the sine outside
    [[-3.1416, 3.1416]] and in the cosine outside [[-1.5708, 1.5708]]. *)
Definition agree_on_domain (libm libm' : math.MathLib) : Prop :=
  (forall x : float, InRange (- (31416 # 10000)) (31416 # 10000) x ->
                     math.Sin libm x = math.Sin libm' x)
  /\ (forall x : float, InRange (- (15708 # 10000)) (15708 # 10000) x ->
                        math.Cos libm x = math.Cos libm' x)
  /\ (forall y x : float, math.Atan2 libm y x = math.Atan2 libm' y x)
  /\ (forall x y : float, math.Pow libm x y = math.Pow libm' x y).

(** [libm0], but for the sine and the cosine outside these intervals. *)
Definition libm2 : math.MathLib :=
  {| math.Sin := fun x => if in_range (- (31416 # 10000)) (31416 # 10000) x
                          then x else 1%float;
     math.Cos := fun x => if in_range (- (15708 # 10000)) (15708 # 10000) x
                          then 1%float else nan;
     math.Atan2 := math.Atan2 libm0;
     math.Pow := math.Pow libm0 |}.

(** The value of the local variable [a] of [Haversine] (lines 70 to 73 of
    the source). *)
Definition var_a (libm : math.MathLib) (lat1 lon1 lat2 lon2 : float) : float :=
  let dLat := degToRad (lat2 - lat1) in
  let dLon := degToRad (lon2 - lon1) in
  (math.Pow libm (math.Sin libm (dLat / 2)) 2
   + math.Cos libm (degToRad lat1) * math.Cos libm (degToRad lat2)
     * math.Pow libm (math.Sin libm (dLon / 2)) 2)%float.

(** [math.Atan2] of a NaN numerator is a NaN (documented:
    [Atan2(NaN, x) = NaN]). *)
Definition atan2_nan_l (libm : math.MathLib) : Prop :=
  forall x : float, math.Atan2 libm nan x = nan.

(** [math.Atan2] maps a numerator that is not below zero and a
    denominator that is [+0] or above zero into [[0, math.Pi / 2]]: the
    first quadrant. *)
Definition atan2_first_quadrant (libm : math.MathLib) : Prop :=
  forall y x : float,
    (0 <=? y)%float = true ->
    x = 0%float \/ (0 <? x)%float = true ->
    (0 <=? math.Atan2 libm y x)%float = true
    /\ (math.Atan2 libm y x <=? math.Pi / 2)%float = true.

(** A datum that is not below zero: a zero, or a positive number or
    infinity. *)
Definition SFnonneg (x : spec_float) : Prop :=
  match x with
  | S754_zero _ => True
  | S754_finite s _ _ | S754_infinity s => s = false
  | S754_nan => False
  end.

(** A datum that is [+0] or above zero. *)
Definition SFpos0 (x : spec_float) : Prop :=
  match x with
  | S754_zero s | S754_finite s _ _ | S754_infinity s => s = false
  | S754_nan => False
  end.

(** A library whose [Atan2] is the constant [+0], but for a NaN. *)
Definition libm3 : math.MathLib :=
  {| math.Sin := math.Sin libm0;
     math.Cos := math.Cos libm0;
     math.Atan2 := fun y x => if ((y =? y) && (x =? x))%float
                              then 0%float else nan;
     math.Pow := math.Pow libm0 |}.

(** [math.Cos] is even. *)
Definition cos_even (libm : math.MathLib) : Prop :=
  forall x : float, math.Cos libm (- x)%float = math.Cos libm x.

(** ** Facts on binary64 data *)

Lemma digits2_size (m : positive) : digits2_pos m = Pos.size m.
Proof. induction m; simpl; congruence. Qed.

Lemma digits2_log2 (m : positive) :
  Zpos (digits2_pos m) = (Z.log2 (Zpos m) + 1)%Z.
Proof.
  rewrite digits2_size. destruct m; simpl; rewrite ?Pos2Z.inj_succ; lia.
Qed.

Lemma digits2_bounds (m : positive) :
  (2 ^ (Zpos (digits2_pos m) - 1) <= Zpos m < 2 ^ Zpos (digits2_pos m))%Z.
Proof.
  rewrite digits2_log2.
  replace (Z.log2 (Z.pos m) + 1 - 1)%Z with (Z.log2 (Zpos m)) by lia.
  apply Z.log2_spec. lia.
Qed.

(** What [valid_binary] says of a finite datum. *)
Lemma bounded_inv (m : positive) (e : Z) :
  bounded prec emax m e = true ->
  (emin64 <= e <= 971 /\ Zpos m < 2 ^ 53
   /\ (emin64 < e -> 2 ^ 52 <= Zpos m))%Z.
Proof.
  unfold bounded, canonical_mantissa, fexp, SpecFloat.emin, prec, emax, emin64.
  intros H. apply andb_true_iff in H. destruct H as [Hc He].
  apply Z.eqb_eq in Hc. apply Z.leb_le in He.
  pose proof (digits2_bounds m) as [Hlo Hhi].
  set (d := Zpos (digits2_pos m)) in *.
  assert (Hd : (0 < d)%Z) by (unfold d; lia).
  repeat split; try lia.
  - assert (d <= 53)%Z by lia.
    eapply Z.lt_le_trans; [exact Hhi|].
    apply Z.pow_le_mono_r; lia.
  - intros Hlt. assert (d = 53)%Z by lia.
    replace 52%Z with (d - 1)%Z by lia. exact Hlo.
Qed.

Lemma units_exp_lt (m1 m2 : positive) (e1 e2 : Z) :
  bounded prec emax m1 e1 = true -> bounded prec emax m2 e2 = true ->
  (e1 < e2)%Z ->
  (Zpos m1 * 2 ^ (e1 - emin64) < Zpos m2 * 2 ^ (e2 - emin64))%Z.
Proof.
  intros H1 H2 Hlt.
  destruct (bounded_inv _ _ H1) as (He1 & Hm1 & _).
  destruct (bounded_inv _ _ H2) as (He2 & _ & Hm2).
  specialize (Hm2 ltac:(lia)).
  replace (e2 - emin64)%Z with ((e2 - e1 - 1) + 1 + (e1 - emin64))%Z by lia.
  rewrite !Z.pow_add_r by lia.
  assert (0 < 2 ^ (e1 - emin64))%Z by (apply Z.pow_pos_nonneg; lia).
  assert (0 < 2 ^ (e2 - e1 - 1))%Z by (apply Z.pow_pos_nonneg; lia).
  change (2 ^ 53)%Z with (2 ^ 52 * 2)%Z in Hm1.
  change (2 ^ 1)%Z with 2%Z.
  set (P := (2 ^ (e1 - emin64))%Z) in *.
  set (R := (2 ^ (e2 - e1 - 1))%Z) in *.
  set (T := (2 ^ 52)%Z) in *.
  apply Z.lt_le_trans with (T * 2 * P)%Z.
  - apply Z.mul_lt_mono_pos_r; assumption.
  - replace (Z.pos m2 * (R * 2 * P))%Z with (Z.pos m2 * R * 2 * P)%Z by ring.
    apply Z.mul_le_mono_nonneg_r; [lia|].
    apply Z.mul_le_mono_nonneg_r; [lia|].
    apply Z.le_trans with (Z.pos m2 * 1)%Z; [lia|].
    apply Z.mul_le_mono_nonneg_l; lia.
Qed.

Lemma units_pos (m : positive) (e : Z) :
  (emin64 <= e)%Z -> (0 < Zpos m * 2 ^ (e - emin64))%Z.
Proof.
  intros He. apply Z.mul_pos_pos; [lia|].
  apply Z.pow_pos_nonneg; lia.
Qed.

(** [SFcompare] orders numbers as their values. *)
Lemma compare_units (x y : spec_float) :
  valid_binary x = true -> valid_binary y = true ->
  is_number x = true -> is_number y = true ->
  SFcompare x y = Some (units x ?= units y)%Z.
Proof.
  destruct x as [sx | sx | | sx mx ex], y as [sy | sy | | sy my ey];
    cbn [SFcompare valid_binary is_number units cond_Zopp];
    try discriminate; intros Vx Vy _ _; try reflexivity.
  - destruct (bounded_inv _ _ Vy) as ((He & _) & _).
    pose proof (units_pos my _ He).
    destruct sy; cbn [cond_Zopp]; f_equal; symmetry.
    + apply Z.compare_gt_iff; lia.
    + apply Z.compare_lt_iff; lia.
  - destruct (bounded_inv _ _ Vx) as ((He & _) & _).
    pose proof (units_pos mx _ He).
    destruct sx; cbn [cond_Zopp]; f_equal; symmetry.
    + apply Z.compare_lt_iff; lia.
    + apply Z.compare_gt_iff; lia.
  - destruct (bounded_inv _ _ Vx) as ((Hex & _) & _).
    destruct (bounded_inv _ _ Vy) as ((Hey & _) & _).
    pose proof (units_pos mx _ Hex). pose proof (units_pos my _ Hey).
    assert (Hcmp : forall c, (ex ?= ey)%Z = c ->
              match c with
              | Lt => (Zpos mx * 2 ^ (ex - emin64) < Zpos my * 2 ^ (ey - emin64))%Z
              | Gt => (Zpos my * 2 ^ (ey - emin64) < Zpos mx * 2 ^ (ex - emin64))%Z
              | Eq => ex = ey
              end).
    { intros [] Hc.
      - now apply Z.compare_eq_iff.
      - apply units_exp_lt; auto.
      - apply units_exp_lt; auto. apply Z.compare_gt_iff in Hc. exact Hc. }
    specialize (Hcmp _ eq_refl).
    assert (Hm : Pos.compare_cont Eq mx my = (Zpos mx ?= Zpos my)%Z)
      by reflexivity.
    f_equal. symmetry.
    destruct sx, sy; cbn [cond_Zopp].
    + destruct (ex ?= ey)%Z.
      * subst ey. rewrite Hm.
        set (P := (2 ^ (ex - emin64))%Z) in *.
        assert (0 < P)%Z by (apply Z.pow_pos_nonneg; lia).
        destruct (Zpos mx ?= Zpos my)%Z eqn:E; cbn [CompOpp].
        -- apply Z.compare_eq_iff in E. apply Z.compare_eq_iff.
           now rewrite E.
        -- apply Z.compare_lt_iff in E. apply Z.compare_gt_iff.
           apply (Z.mul_lt_mono_pos_r P) in E; [lia | assumption].
        -- apply Z.compare_gt_iff in E. apply Z.compare_lt_iff.
           apply (Z.mul_lt_mono_pos_r P) in E; [lia | assumption].
      * apply Z.compare_gt_iff. lia.
      * apply Z.compare_lt_iff. lia.
    + apply Z.compare_lt_iff. lia.
    + apply Z.compare_gt_iff. lia.
    + destruct (ex ?= ey)%Z.
      * subst ey. rewrite Hm.
        set (P := (2 ^ (ex - emin64))%Z) in *.
        assert (0 < P)%Z by (apply Z.pow_pos_nonneg; lia).
        destruct (Zpos mx ?= Zpos my)%Z eqn:E; cbn [CompOpp].
        -- apply Z.compare_eq_iff in E. apply Z.compare_eq_iff.
           now rewrite E.
        -- apply Z.compare_lt_iff in E. apply Z.compare_lt_iff.
           apply (Z.mul_lt_mono_pos_r P) in E; [lia | assumption].
        -- apply Z.compare_gt_iff in E. apply Z.compare_gt_iff.
           apply (Z.mul_lt_mono_pos_r P) in E; [lia | assumption].
      * apply Z.compare_lt_iff. lia.
      * apply Z.compare_gt_iff. lia.
Qed.

Lemma number_SF2Q (x : spec_float) :
  is_number x = true <-> exists q, SF2Q x = Some q.
Proof.
  destruct x; simpl; split; intros H; try discriminate; eauto;
    destruct H as [q H]; discriminate.
Qed.

(** The rational value is the count of units, scaled. *)
Lemma SF2Q_units (x : spec_float) (q : Q) :
  valid_binary x = true -> SF2Q x = Some q ->
  (q == inject_Z (units x) * 2 ^ emin64)%Q.
Proof.
  destruct x as [s | s | | s m e]; cbn [valid_binary SF2Q units];
    try discriminate.
  - intros _ [= <-]. now rewrite Qmult_0_l.
  - intros V [= <-].
    destruct (bounded_inv _ _ V) as ((He & _) & _).
    replace (cond_Zopp s (Z.pos m * 2 ^ (e - emin64)))
      with (cond_Zopp s (Z.pos m) * 2 ^ (e - emin64))%Z
      by (destruct s; cbn [cond_Zopp]; ring).
    rewrite inject_Z_mult, Zpower_Qpower by lia.
    rewrite <- Qmult_assoc, <- Qpower_plus by discriminate.
    now replace (e - emin64 + emin64)%Z with e by ring.
Qed.

Lemma Qle_units (x y : spec_float) (qx qy : Q) :
  valid_binary x = true -> valid_binary y = true ->
  SF2Q x = Some qx -> SF2Q y = Some qy ->
  (qx <= qy)%Q <-> (units x <= units y)%Z.
Proof.
  intros Vx Vy Hx Hy.
  rewrite (SF2Q_units _ _ Vx Hx), (SF2Q_units _ _ Vy Hy).
  rewrite Qmult_le_r by (now apply Qpower_0_lt).
  now rewrite <- Zle_Qle.
Qed.

(** The comparison [<=] of Go on two numbers is the order of the
    rationals. *)
Lemma leb_Q (x y : float) (qx qy : Q) :
  F2Q x = Some qx -> F2Q y = Some qy ->
  (x <=? y)%float = Qle_bool qx qy.
Proof.
  unfold F2Q. intros Hx Hy.
  pose proof (Prim2SF_valid x) as Vx. pose proof (Prim2SF_valid y) as Vy.
  rewrite leb_spec. unfold SFleb.
  rewrite compare_units; auto;
    try (apply number_SF2Q; eauto).
  apply eq_true_iff_eq. rewrite Qle_bool_iff, (Qle_units _ _ _ _ Vx Vy Hx Hy).
  unfold Z.le. destruct (units (Prim2SF x) ?= units (Prim2SF y))%Z;
    split; intros H; try discriminate; auto; now elim H.
Qed.

(** Nothing that is not a number lies between two numbers: a
    comparison with a NaN is false, and an infinity fails one of the
    two tests. *)
Lemma between_no_value (lo hi x : float) (qlo qhi : Q) :
  F2Q lo = Some qlo -> F2Q hi = Some qhi -> F2Q x = None ->
  ((lo <=? x) && (x <=? hi))%float = false.
Proof.
  unfold F2Q. rewrite !leb_spec. intros Hlo Hhi Hx.
  destruct (Prim2SF x) as [| [] | |]; try discriminate;
    destruct (Prim2SF lo) as [| | |[]], (Prim2SF hi) as [| | |[]];
    try discriminate; reflexivity.
Qed.

(** The two-sided test of the source against the interval of the
    rationals. *)
Lemma between_InRange (lo hi x : float) (qlo qhi : Q) :
  F2Q lo = Some qlo -> F2Q hi = Some qhi ->
  ((lo <=? x) && (x <=? hi))%float = true <-> InRange qlo qhi x.
Proof.
  intros Hlo Hhi. unfold InRange. destruct (F2Q x) as [q |] eqn:Hx.
  - rewrite (leb_Q _ _ _ _ Hlo Hx), (leb_Q _ _ _ _ Hx Hhi).
    rewrite andb_true_iff, !Qle_bool_iff.
    split.
    + intros H. exists q. split; [reflexivity | exact H].
    + intros (q' & [= <-] & H). exact H.
  - rewrite (between_no_value _ _ _ _ _ Hlo Hhi Hx). split; [discriminate|].
    intros (q' & Hq & _). discriminate.
Qed.

Lemma NonFinite_no_value (x : float) : NonFinite x <-> F2Q x = None.
Proof.
  unfold NonFinite, F2Q. split.
  - intros [-> | [-> | ->]]; reflexivity.
  - intros H.
    assert (E : x = SF2Prim (Prim2SF x)) by (symmetry; apply SF2Prim_Prim2SF).
    destruct (Prim2SF x) as [| [] | |]; try discriminate; rewrite E; auto.
Qed.

(** ** Validation *)

Lemma InRange_Qeq (lo lo' hi hi' : Q) (x : float) :
  (lo == lo')%Q -> (hi == hi')%Q -> InRange lo hi x <-> InRange lo' hi' x.
Proof.
  intros Elo Ehi. unfold InRange.
  split; intros (q & Hq & H); exists q; split; auto.
  - now rewrite <- Elo, <- Ehi.
  - now rewrite Elo, Ehi.
Qed.

Lemma InRange_in_range (lo hi : Q) (x : float) :
  in_range lo hi x = true <-> InRange lo hi x.
Proof.
  unfold in_range, InRange. destruct (F2Q x) as [q |].
  - rewrite andb_true_iff, !Qle_bool_iff. split.
    + intros H. now exists q.
    + now intros (q' & [= <-] & H).
  - split; [discriminate | intros (q & Hq & _); discriminate].
Qed.

Lemma isValidLatitude_spec (lat : float) :
  isValidLatitude lat = true <-> ValidLat lat.
Proof.
  unfold isValidLatitude, ValidLat.
  rewrite (between_InRange (-90) 90 lat _ _ eq_refl eq_refl).
  apply InRange_Qeq; reflexivity.
Qed.

Lemma isValidLongitude_spec (lon : float) :
  isValidLongitude lon = true <-> ValidLon lon.
Proof.
  unfold isValidLongitude, ValidLon.
  rewrite (between_InRange (-180) 180 lon _ _ eq_refl eq_refl).
  apply InRange_Qeq; reflexivity.
Qed.

(** ** Signs in binary64 arithmetic

    Rounding to nearest even does not look at the sign: negating an
    operand of a product or of a quotient negates the result, and
    exchanging the operands of a difference negates it, unless the
    difference is the zero of a cancellation, which is [+0] both ways. *)

Lemma SFopp_involutive (x : spec_float) : SFopp (SFopp x) = x.
Proof. destruct x; simpl; rewrite ?negb_involutive; reflexivity. Qed.

Lemma binary_round_aux_opp (s : bool) (m e : Z) (l : location) :
  binary_round_aux prec emax (negb s) m e l
  = SFopp (binary_round_aux prec emax s m e l).
Proof.
  unfold binary_round_aux.
  destruct (shr_fexp prec emax m e l) as [mrs' e'].
  destruct (shr_fexp prec emax _ e' loc_Exact) as [mrs'' e''].
  destruct (shr_m mrs''); try reflexivity.
  destruct (e'' <=? emax - prec)%Z; reflexivity.
Qed.

Lemma binary_round_opp (s : bool) (m : positive) (e : Z) :
  binary_round prec emax (negb s) m e = SFopp (binary_round prec emax s m e).
Proof.
  unfold binary_round.
  destruct (shl_align m e _) as [mz ez]. apply binary_round_aux_opp.
Qed.

Lemma binary_normalize_opp (m e : Z) :
  binary_normalize prec emax (- m) e false
  = SFopp (binary_normalize prec emax m e false)
  \/ binary_normalize prec emax (- m) e false
     = binary_normalize prec emax m e false.
Proof.
  destruct m as [| p | p]; simpl.
  - right. reflexivity.
  - left. apply (binary_round_opp false).
  - left. rewrite <- (SFopp_involutive (binary_round prec emax false p e)).
    f_equal. symmetry. apply (binary_round_opp false).
Qed.

Lemma SFmul_opp_l (x y : spec_float) :
  SF64mul (SFopp x) y = SFopp (SF64mul x y).
Proof.
  destruct x as [sx | sx | | sx mx ex], y as [sy | sy | | sy my ey];
    cbn [SF64mul SFmul SFopp]; rewrite <- ?negb_xorb_l; try reflexivity.
  apply binary_round_aux_opp.
Qed.

Lemma SFmul_comm (x y : spec_float) : SF64mul x y = SF64mul y x.
Proof.
  destruct x as [sx | sx | | sx mx ex], y as [sy | sy | | sy my ey];
    cbn [SF64mul SFmul]; rewrite ?(xorb_comm sx sy); try reflexivity.
  now rewrite Pos.mul_comm, Z.add_comm.
Qed.

Lemma SFdiv_opp_l (x y : spec_float) :
  SF64div (SFopp x) y = SFopp (SF64div x y).
Proof.
  destruct x as [sx | sx | | sx mx ex], y as [sy | sy | | sy my ey];
    cbn [SF64div SFdiv SFopp]; rewrite <- ?negb_xorb_l; try reflexivity.
  destruct (SFdiv_core_binary prec emax (Z.pos mx) ex (Z.pos my) ey)
    as [[mz ez] lz].
  apply binary_round_aux_opp.
Qed.

Lemma SFsub_swap (x y : spec_float) :
  SF64sub y x = SFopp (SF64sub x y) \/ SF64sub y x = SF64sub x y.
Proof.
  destruct x as [[] | [] | | sx mx ex], y as [[] | [] | | sy my ey];
    cbn [SF64sub SFsub SFopp negb]; auto;
    try (left; now rewrite ?negb_involutive).
  rewrite (Z.min_comm ey ex).
  set (a := cond_Zopp sx (Z.pos (fst (shl_align mx ex (Z.min ex ey))))).
  set (b := cond_Zopp sy (Z.pos (fst (shl_align my ey (Z.min ex ey))))).
  replace (b - a)%Z with (- (a - b))%Z by ring.
  apply binary_normalize_opp.
Qed.

Local Open Scope float_scope.

Lemma opp_involutive (x : float) : - - x = x.
Proof.
  apply Prim2SF_inj. rewrite !opp_spec. apply SFopp_involutive.
Qed.

Lemma mul_opp_l (x y : float) : (- x) * y = - (x * y).
Proof.
  apply Prim2SF_inj. rewrite opp_spec, !mul_spec, opp_spec.
  apply SFmul_opp_l.
Qed.

Lemma mul_comm (x y : float) : x * y = y * x.
Proof.
  apply Prim2SF_inj. rewrite !mul_spec. apply SFmul_comm.
Qed.

Lemma mul_opp_opp (x : float) : (- x) * (- x) = x * x.
Proof.
  rewrite mul_opp_l, (mul_comm x (- x)), mul_opp_l. apply opp_involutive.
Qed.

Lemma div_opp_l (x y : float) : (- x) / y = - (x / y).
Proof.
  apply Prim2SF_inj. rewrite opp_spec, !div_spec, opp_spec.
  apply SFdiv_opp_l.
Qed.

Lemma sub_swap (x y : float) : y - x = - (x - y) \/ y - x = x - y.
Proof.
  destruct (SFsub_swap (Prim2SF x) (Prim2SF y)) as [H | H].
  - left. apply Prim2SF_inj. now rewrite opp_spec, !sub_spec.
  - right. apply Prim2SF_inj. now rewrite !sub_spec.
Qed.

Lemma degToRad_opp (deg : float) : degToRad (- deg) = - degToRad deg.
Proof. unfold degToRad. now rewrite mul_opp_l, div_opp_l. Qed.

Close Scope float_scope.

(** ** Magnitudes: when rounding cannot overflow *)

Lemma fexp64 (x : Z) : fexp prec emax x = Z.max (x - 53) (-1074).
Proof. reflexivity. Qed.

Lemma Zdigits2_nonneg (m : Z) : (0 <= Zdigits2 m)%Z.
Proof. destruct m; simpl; lia. Qed.

Lemma Zdigits2_log2 (m : Z) : (0 < m)%Z -> Zdigits2 m = (Z.log2 m + 1)%Z.
Proof. destruct m as [| p | p]; try lia. intros _. apply digits2_log2. Qed.

Lemma Zdigits2_le (m n : Z) : (0 <= m <= n)%Z -> (Zdigits2 m <= Zdigits2 n)%Z.
Proof.
  intros [Hm Hmn]. destruct (Z.eq_dec m 0) as [-> | Hz].
  - apply Zdigits2_nonneg.
  - rewrite !Zdigits2_log2 by lia.
    apply Z.add_le_mono_r, Z.log2_le_mono, Hmn.
Qed.

Lemma Zdigits2_lt_pow (m k : Z) :
  (0 <= m < 2 ^ k)%Z -> (0 <= k)%Z -> (Zdigits2 m <= k)%Z.
Proof.
  intros [Hm Hlt] Hk. destruct (Z.eq_dec m 0) as [-> | Hz]; [exact Hk|].
  rewrite Zdigits2_log2 by lia.
  apply Z.log2_lt_pow2 in Hlt; lia.
Qed.

Lemma Zdigits2_gt (m : Z) : (0 <= m)%Z -> (m < 2 ^ Zdigits2 m)%Z.
Proof.
  intros Hm. destruct (Z.eq_dec m 0) as [-> | Hz]; [reflexivity|].
  rewrite Zdigits2_log2 by lia.
  apply Z.log2_spec. lia.
Qed.

Lemma Zdigits2_succ (m : Z) :
  (0 <= m)%Z -> (Zdigits2 (m + 1) <= Zdigits2 m + 1)%Z.
Proof.
  intros Hm. apply Zdigits2_lt_pow.
  - pose proof (Zdigits2_gt m Hm). pose proof (Zdigits2_nonneg m).
    rewrite Z.pow_add_r by lia. change (2 ^ 1)%Z with 2%Z. lia.
  - pose proof (Zdigits2_nonneg m). lia.
Qed.

Lemma Zdigits2_shiftr (m n : Z) :
  (0 <= m)%Z -> (0 <= n)%Z -> (0 < Z.shiftr m n)%Z ->
  (Zdigits2 (Z.shiftr m n) + n = Zdigits2 m)%Z.
Proof.
  intros Hm Hn Hpos.
  assert (Hmpos : (0 < m)%Z).
  { destruct (Z.eq_dec m 0) as [-> | Hz]; [| lia].
    rewrite Z.shiftr_0_l in Hpos. lia. }
  assert (Hle : (n <= Z.log2 m)%Z).
  { apply Z.log2_le_pow2; [exact Hmpos|].
    rewrite Z.shiftr_div_pow2 in Hpos by exact Hn.
    assert (0 < 2 ^ n)%Z by (apply Z.pow_pos_nonneg; lia).
    destruct (Z_lt_le_dec m (2 ^ n)) as [Hlt | Hge]; [| exact Hge].
    rewrite Z.div_small in Hpos; lia. }
  rewrite !Zdigits2_log2 by assumption.
  rewrite Z.log2_shiftr by exact Hmpos. lia.
Qed.

Lemma shiftl_mul_pow2_digits (m s : Z) :
  (0 < m)%Z -> (0 <= s)%Z -> Zdigits2 (m * 2 ^ s) = (Zdigits2 m + s)%Z.
Proof.
  intros Hm Hs.
  assert (0 < 2 ^ s)%Z by (apply Z.pow_pos_nonneg; lia).
  rewrite !Zdigits2_log2 by (try apply Z.mul_pos_pos; lia).
  rewrite Z.log2_mul_pow2 by lia. lia.
Qed.

(** Shifting a mantissa right. *)
Lemma shr_1_m (mrs : shr_record) :
  (0 <= shr_m mrs)%Z -> shr_m (shr_1 mrs) = Z.shiftr (shr_m mrs) 1.
Proof.
  destruct mrs as [[| [p | p |] | p] r t]; cbn [shr_m shr_1]; intros H;
    try reflexivity; lia.
Qed.

Lemma iter_shr_1_m (p : positive) (mrs : shr_record) :
  (0 <= shr_m mrs)%Z ->
  shr_m (iter_pos shr_1 p mrs) = Z.shiftr (shr_m mrs) (Zpos p).
Proof.
  revert mrs. induction p as [p IH | p IH |]; intros mrs Hm; cbn [iter_pos].
  - assert (H1 : (0 <= shr_m (shr_1 mrs))%Z)
      by (rewrite shr_1_m by exact Hm; now apply Z.shiftr_nonneg).
    assert (H2 : (0 <= shr_m (iter_pos shr_1 p (shr_1 mrs)))%Z)
      by (rewrite IH by exact H1; now apply Z.shiftr_nonneg).
    rewrite IH by exact H2. rewrite IH by exact H1.
    rewrite shr_1_m by exact Hm.
    rewrite !Z.shiftr_shiftr by lia. f_equal. lia.
  - assert (H1 : (0 <= shr_m (iter_pos shr_1 p mrs))%Z)
      by (rewrite IH by exact Hm; now apply Z.shiftr_nonneg).
    rewrite IH by exact H1. rewrite IH by exact Hm.
    rewrite Z.shiftr_shiftr by lia. f_equal. lia.
  - now apply shr_1_m.
Qed.

Lemma shr_m_of_loc (m : Z) (l : location) :
  shr_m (shr_record_of_loc m l) = m.
Proof. destruct l as [| []]; reflexivity. Qed.

Lemma shr_fexp_spec (m e : Z) (l : location) :
  (0 <= m)%Z ->
  exists (mrs : shr_record) (n : Z),
    shr_fexp prec emax m e l = (mrs, (e + n)%Z)
    /\ shr_m mrs = Z.shiftr m n
    /\ n = Z.max 0 (fexp prec emax (Zdigits2 m + e) - e).
Proof.
  intros Hm. unfold shr_fexp, shr.
  destruct (fexp prec emax (Zdigits2 m + e) - e)%Z as [| p | p] eqn:E.
  - exists (shr_record_of_loc m l), 0%Z.
    rewrite Z.add_0_r, shr_m_of_loc, Z.shiftr_0_r. auto.
  - exists (iter_pos shr_1 p (shr_record_of_loc m l)), (Z.pos p).
    rewrite iter_shr_1_m by (now rewrite shr_m_of_loc).
    rewrite shr_m_of_loc. repeat split; try lia.
  - exists (shr_record_of_loc m l), 0%Z.
    rewrite Z.add_0_r, shr_m_of_loc, Z.shiftr_0_r. repeat split; try lia.
Qed.

Lemma round_nearest_even_bounds (m : Z) (l : location) :
  (m <= round_nearest_even m l <= m + 1)%Z.
Proof.
  destruct l as [| []]; cbn [round_nearest_even];
    try destruct (Z.even m); lia.
Qed.

(** The rounding of [m * 2 ^ e] with [m * 2 ^ e < 2 ^ k] is a number
    below [2 ^ (k + 1)]: it does not overflow while [k <= 971]. *)
Lemma binary_round_aux_mag (s : bool) (m e : Z) (l : location) (k : Z) :
  (0 <= m)%Z -> (Zdigits2 m + e <= k)%Z -> (-1074 <= k <= 971)%Z ->
  mag_le (k + 1) (binary_round_aux prec emax s m e l).
Proof.
  intros Hm Hk Hrange.
  destruct (shr_fexp_spec m e l Hm) as (mrs1 & n1 & E1 & Hm1 & Hn1).
  assert (Hm1pos : (0 <= shr_m mrs1)%Z)
    by (rewrite Hm1; now apply Z.shiftr_nonneg).
  pose proof (round_nearest_even_bounds (shr_m mrs1) (loc_of_shr_record mrs1))
    as Hrne.
  set (m2 := round_nearest_even (shr_m mrs1) (loc_of_shr_record mrs1)) in *.
  assert (Hm2 : (0 <= m2)%Z) by lia.
  destruct (shr_fexp_spec m2 (e + n1) loc_Exact Hm2)
    as (mrs2 & n2 & E2 & Hm3 & Hn2).
  unfold binary_round_aux. rewrite E1. fold m2. rewrite E2.
  rewrite fexp64 in Hn1, Hn2.
  pose proof (Zdigits2_nonneg m) as HD0.
  assert (HD1 : (Zdigits2 (shr_m mrs1) + (e + n1) <= k)%Z).
  { destruct (Z.eq_dec (shr_m mrs1) 0) as [-> | Hnz].
    - cbn [Zdigits2]. lia.
    - pose proof (Zdigits2_shiftr m n1 Hm ltac:(lia) ltac:(lia)) as Hs.
      rewrite <- Hm1 in Hs. lia. }
  assert (HD2 : (Zdigits2 m2 <= Zdigits2 (shr_m mrs1) + 1)%Z).
  { apply Z.le_trans with (Zdigits2 (shr_m mrs1 + 1)).
    - apply Zdigits2_le. lia.
    - now apply Zdigits2_succ. }
  assert (He1 : (e + n1 <= k)%Z) by lia.
  destruct (shr_m mrs2) as [| p | p] eqn:E3.
  - exact I.
  - assert (Hs : (Zdigits2 (Z.shiftr m2 n2) + n2 = Zdigits2 m2)%Z)
      by (apply Zdigits2_shiftr; lia).
    rewrite <- Hm3 in Hs. cbn [Zdigits2] in Hs.
    replace (e + n1 + n2 <=? emax - prec)%Z with true
      by (symmetry; apply Z.leb_le; change (emax - prec)%Z with 971%Z; lia).
    cbn [mag_le]. lia.
  - pose proof (Z.shiftr_nonneg m2 n2) as [_ Hnn]. specialize (Hnn Hm2). lia.
Qed.

Lemma binary_round_aux_sign (s : bool) (m e : Z) (l : location) :
  match binary_round_aux prec emax s m e l with
  | S754_zero s' | S754_infinity s' | S754_finite s' _ _ => s' = s
  | S754_nan => True
  end.
Proof.
  unfold binary_round_aux.
  destruct (shr_fexp prec emax m e l) as [mrs' e'].
  destruct (shr_fexp prec emax _ e' loc_Exact) as [mrs'' e''].
  destruct (shr_m mrs''); try reflexivity; try exact I.
  destruct (e'' <=? emax - prec)%Z; reflexivity.
Qed.

(** ** Products and quotients of bounded numbers *)

Lemma mag_le_number (k : Z) (x : spec_float) : mag_le k x -> is_number x = true.
Proof. destruct x; simpl; intros H; auto. Qed.

Lemma mag_le_weaken (k k' : Z) (x : spec_float) :
  (k <= k')%Z -> mag_le k x -> mag_le k' x.
Proof. destruct x; simpl; auto. lia. Qed.

Lemma Zdigits2_mul (mx my : positive) :
  (Zdigits2 (Zpos (mx * my))
   <= Zpos (digits2_pos mx) + Zpos (digits2_pos my))%Z.
Proof.
  apply Zdigits2_lt_pow; [| lia].
  pose proof (Zdigits2_gt (Zpos mx) ltac:(lia)) as Hx.
  pose proof (Zdigits2_gt (Zpos my) ltac:(lia)) as Hy.
  cbn [Zdigits2] in Hx, Hy.
  rewrite Z.pow_add_r by lia. rewrite Pos2Z.inj_mul.
  split; [lia|]. apply Z.mul_lt_mono_nonneg; lia.
Qed.

Lemma SFmul_mag (x y : spec_float) (kx ky : Z) :
  mag_le kx x -> mag_le ky y -> (-1074 <= kx + ky <= 971)%Z ->
  mag_le (kx + ky + 1) (SF64mul x y).
Proof.
  destruct x as [sx | sx | | sx mx ex], y as [sy | sy | | sy my ey];
    cbn [SF64mul SFmul mag_le]; try tauto.
  intros Hx Hy Hk. apply binary_round_aux_mag; [lia | | exact Hk].
  pose proof (Zdigits2_mul mx my). lia.
Qed.

Lemma SFdiv_mag (x : spec_float) (sy : bool) (my : positive) (ey kx : Z) :
  mag_le kx x -> (-1074 <= kx - ey <= 971)%Z ->
  mag_le (kx - ey + 1) (SF64div x (S754_finite sy my ey)).
Proof.
  destruct x as [sx | sx | | sx mx ex]; cbn [SF64div SFdiv mag_le]; try tauto.
  intros Hx Hk. unfold SFdiv_core_binary.
  set (d1 := Zdigits2 (Z.pos mx)). set (d2 := Zdigits2 (Z.pos my)).
  set (e' := Z.min (fexp prec emax (d1 + ex - (d2 + ey))) (ex - ey)).
  set (s := (ex - ey - e')%Z).
  assert (Hs : (0 <= s)%Z) by (unfold s, e'; lia).
  set (m' := match s with
             | 0%Z => Z.pos mx
             | Z.pos _ => Z.shiftl (Z.pos mx) s
             | Z.neg _ => 0%Z
             end).
  assert (Hm' : m' = (Z.pos mx * 2 ^ s)%Z).
  { unfold m'. destruct s as [| p | p] eqn:Es.
    - now rewrite Z.mul_1_r.
    - apply Z.shiftl_mul_pow2. lia.
    - lia. }
  assert (Hq : fst (Z.div_eucl m' (Z.pos my)) = (m' / Z.pos my)%Z)
    by reflexivity.
  destruct (Z.div_eucl m' (Z.pos my)) as [q r]. cbn [fst] in Hq. subst q.
  assert (H2s : (0 < 2 ^ s)%Z) by (apply Z.pow_pos_nonneg; lia).
  assert (Hm'pos : (0 < m')%Z) by (rewrite Hm'; apply Z.mul_pos_pos; lia).
  assert (Hq0 : (0 <= m' / Z.pos my)%Z) by (apply Z.div_pos; lia).
  assert (Hqle : (m' / Z.pos my <= m')%Z).
  { apply Z.div_le_upper_bound; [lia|].
    replace m' with (1 * m')%Z at 1 by ring.
    apply Z.mul_le_mono_nonneg_r; lia. }
  apply binary_round_aux_mag; [exact Hq0 | | exact Hk].
  pose proof (Zdigits2_le (m' / Z.pos my) m' (conj Hq0 Hqle)) as Hd.
  assert (Hdm : Zdigits2 m' = (Z.pos (digits2_pos mx) + s)%Z)
    by (rewrite Hm'; apply shiftl_mul_pow2_digits; lia).
  rewrite Hdm in Hd. clearbody m' e'. lia.
Qed.

(** The sign of a square. *)
Lemma SFmul_self_sign (x : spec_float) :
  match SF64mul x x with
  | S754_zero s | S754_infinity s | S754_finite s _ _ => s = false
  | S754_nan => True
  end.
Proof.
  destruct x as [s | s | | s m e]; cbn [SF64mul SFmul];
    try apply xorb_nilpotent; try exact I.
  rewrite xorb_nilpotent. apply binary_round_aux_sign.
Qed.

(** ** From a range of values to a magnitude *)

Lemma Q_units (n : Z) :
  (inject_Z n == inject_Z (n * 2 ^ (- emin64)) * 2 ^ emin64)%Q.
Proof.
  rewrite inject_Z_mult, Zpower_Qpower by (unfold emin64; lia).
  rewrite <- Qmult_assoc, <- Qpower_plus by discriminate.
  change (- emin64 + emin64)%Z with 0%Z. change (inject_Z 2 ^ 0)%Q with 1%Q.
  now rewrite Qmult_1_r.
Qed.

Lemma InRange_units (n : Z) (x : float) :
  InRange (inject_Z (- n)) (inject_Z n) x ->
  (- (n * 2 ^ (- emin64)) <= units (Prim2SF x) <= n * 2 ^ (- emin64))%Z.
Proof.
  intros (q & Hq & Hlo & Hhi).
  pose proof (SF2Q_units _ _ (Prim2SF_valid x) Hq) as E.
  rewrite E in Hlo, Hhi.
  rewrite (Q_units n) in Hhi. rewrite (Q_units (- n)) in Hlo.
  rewrite Qmult_le_r in Hlo, Hhi by (now apply Qpower_0_lt).
  rewrite <- Zle_Qle in Hlo, Hhi. lia.
Qed.

Lemma units_mag (x : spec_float) (k : Z) :
  valid_binary x = true -> is_number x = true ->
  (Z.abs (units x) < 2 ^ (k - emin64))%Z -> mag_le k x.
Proof.
  destruct x as [s | s | | s m e]; cbn [valid_binary is_number units mag_le];
    try discriminate; auto.
  intros V _ H.
  destruct (bounded_inv _ _ V) as ((He & _) & _).
  pose proof (digits2_bounds m) as [Hlo _].
  set (d := Z.pos (digits2_pos m)) in *.
  assert (Hd : (0 < d)%Z) by (unfold d; lia).
  assert (Habs : Z.abs (cond_Zopp s (Z.pos m * 2 ^ (e - emin64)))
                 = (Z.pos m * 2 ^ (e - emin64))%Z).
  { pose proof (units_pos m e He). destruct s; cbn [cond_Zopp]; lia. }
  rewrite Habs in H.
  assert (Hpow : (2 ^ (d - 1 + (e - emin64)) < 2 ^ (k - emin64))%Z).
  { eapply Z.le_lt_trans; [| exact H].
    rewrite Z.pow_add_r by lia.
    apply Z.mul_le_mono_nonneg_r; [| exact Hlo].
    apply Z.pow_nonneg. lia. }
  destruct (Z_lt_le_dec (k - emin64) 0) as [Hneg | Hnn].
  - rewrite (Z.pow_neg_r 2 (k - emin64)) in Hpow by exact Hneg.
    assert (0 < 2 ^ (d - 1 + (e - emin64)))%Z
      by (apply Z.pow_pos_nonneg; lia).
    lia.
  - apply Z.pow_lt_mono_r_iff in Hpow; lia.
Qed.

Lemma InRange_mag (n k : Z) (x : float) :
  InRange (inject_Z (- n)) (inject_Z n) x -> (n < 2 ^ k)%Z -> (0 <= k)%Z ->
  mag_le k (Prim2SF x).
Proof.
  intros Hr Hn Hk.
  pose proof (InRange_units n x Hr) as Hu.
  apply units_mag.
  - apply Prim2SF_valid.
  - destruct Hr as (q & Hq & _). apply number_SF2Q. now exists q.
  - assert (0 < 2 ^ (- emin64))%Z by reflexivity.
    replace (k - emin64)%Z with (k + - emin64)%Z by ring.
    rewrite Z.pow_add_r by (unfold emin64; lia).
    apply Z.le_lt_trans with (n * 2 ^ (- emin64))%Z; [lia|].
    apply Z.mul_lt_mono_pos_r; assumption.
Qed.

Lemma mag_F2Q (k : Z) (x : float) : mag_le k (Prim2SF x) -> F2Q x <> None.
Proof.
  intros H. apply mag_le_number in H. apply number_SF2Q in H.
  destruct H as [q Hq]. unfold F2Q. congruence.
Qed.

(** ** Differences of bounded numbers *)

Lemma iter_xO_pow2 (d m : positive) :
  Z.pos (Pos.iter xO m d) = (Z.pos m * 2 ^ Z.pos d)%Z.
Proof.
  induction d as [| d IH] using Pos.peano_ind.
  - cbn [Pos.iter]. lia.
  - rewrite Pos.iter_succ, Pos2Z.inj_succ, Z.pow_succ_r by lia.
    rewrite Pos2Z.inj_xO, IH. ring.
Qed.

Lemma shl_align_spec (m : positive) (e e' : Z) :
  exists s : Z,
    (0 <= s)%Z
    /\ Z.pos (fst (shl_align m e e')) = (Z.pos m * 2 ^ s)%Z
    /\ snd (shl_align m e e') = (e - s)%Z
    /\ s = Z.max 0 (e - e').
Proof.
  unfold shl_align. destruct (e' - e)%Z as [| d | d] eqn:E; cbn [fst snd].
  - exists 0%Z. repeat split; lia.
  - exists 0%Z. repeat split; lia.
  - exists (Z.pos d). rewrite iter_xO_pow2. repeat split; lia.
Qed.

Lemma binary_round_mag (s : bool) (m : positive) (e k : Z) :
  (Z.pos (digits2_pos m) + e <= k)%Z -> (-1074 <= k <= 971)%Z ->
  mag_le (k + 1) (binary_round prec emax s m e).
Proof.
  intros Hk Hr. unfold binary_round.
  destruct (shl_align_spec m e (fexp prec emax (Z.pos (digits2_pos m) + e)))
    as (t & Ht & Hm & He & _).
  destruct (shl_align m e _) as [mz ez]. cbn [fst snd] in Hm, He.
  apply binary_round_aux_mag; [lia | | exact Hr].
  rewrite Hm, shiftl_mul_pow2_digits by lia. cbn [Zdigits2]. lia.
Qed.

Lemma binary_normalize_mag (m e k : Z) :
  (Zdigits2 m + e <= k)%Z -> (-1074 <= k <= 971)%Z ->
  mag_le (k + 1) (binary_normalize prec emax m e false).
Proof.
  intros Hk Hr. destruct m as [| p | p]; cbn [binary_normalize].
  - exact I.
  - now apply binary_round_mag.
  - now apply binary_round_mag.
Qed.

Lemma Zdigits2_abs (m : Z) : Zdigits2 m = Zdigits2 (Z.abs m).
Proof. destruct m; reflexivity. Qed.

Lemma SFsub_mag (x y : spec_float) (k : Z) :
  mag_le k x -> mag_le k y -> (-1074 <= k + 1 <= 971)%Z ->
  mag_le (k + 2) (SF64sub x y).
Proof.
  destruct x as [[] | sx | | sx mx ex], y as [[] | sy | | sy my ey];
    cbn [SF64sub SFsub mag_le negb]; try tauto; try lia.
  intros Hx Hy Hk.
  set (ez := Z.min ex ey).
  destruct (shl_align_spec mx ex ez) as (tx & Htx & Hmx & _ & Etx).
  destruct (shl_align_spec my ey ez) as (ty & Hty & Hmy & _ & Ety).
  rewrite Hmx, Hmy.
  replace (k + 2)%Z with (k + 1 + 1)%Z by ring.
  apply binary_normalize_mag; [| exact Hk].
  set (a := (Z.pos mx * 2 ^ tx)%Z). set (b := (Z.pos my * 2 ^ ty)%Z).
  assert (Ha : (0 < a < 2 ^ (k - ez))%Z).
  { unfold a. pose proof (Zdigits2_gt (Z.pos mx) ltac:(lia)) as Hg.
    cbn [Zdigits2] in Hg.
    assert (0 < 2 ^ tx)%Z by (apply Z.pow_pos_nonneg; lia).
    split; [apply Z.mul_pos_pos; lia|].
    apply Z.lt_le_trans with (2 ^ Z.pos (digits2_pos mx) * 2 ^ tx)%Z.
    - apply Z.mul_lt_mono_pos_r; lia.
    - rewrite <- Z.pow_add_r by lia. apply Z.pow_le_mono_r; lia. }
  assert (Hb : (0 < b < 2 ^ (k - ez))%Z).
  { unfold b. pose proof (Zdigits2_gt (Z.pos my) ltac:(lia)) as Hg.
    cbn [Zdigits2] in Hg.
    assert (0 < 2 ^ ty)%Z by (apply Z.pow_pos_nonneg; lia).
    split; [apply Z.mul_pos_pos; lia|].
    apply Z.lt_le_trans with (2 ^ Z.pos (digits2_pos my) * 2 ^ ty)%Z.
    - apply Z.mul_lt_mono_pos_r; lia.
    - rewrite <- Z.pow_add_r by lia. apply Z.pow_le_mono_r; lia. }
  assert (Hkez : (0 <= k - ez)%Z).
  { destruct (Z_lt_le_dec (k - ez) 0) as [Hn | Hn]; [| exact Hn].
    rewrite (Z.pow_neg_r 2 (k - ez)) in Ha by exact Hn. lia. }
  rewrite Zdigits2_abs.
  assert (Hd : (Zdigits2 (Z.abs (cond_Zopp sx a - cond_Zopp sy b))
                <= k - ez + 1)%Z).
  { apply Zdigits2_lt_pow; [| lia].
    rewrite Z.pow_add_r by lia. change (2 ^ 1)%Z with 2%Z.
    destruct sx, sy; cbn [cond_Zopp]; lia. }
  lia.
Qed.

Lemma half_mag (x : float) (k : Z) :
  mag_le k (Prim2SF x) -> (-1074 <= k + 51 <= 971)%Z ->
  mag_le (k + 52) (Prim2SF (x / 2)%float).
Proof.
  intros H Hk. rewrite div_spec.
  change (Prim2SF 2) with (S754_finite false 4503599627370496 (-51)).
  replace (k + 52)%Z with (k - -51 + 1)%Z by ring.
  apply SFdiv_mag; [exact H | lia].
Qed.

Lemma degToRad_mag_gen (deg : float) (k : Z) :
  mag_le k (Prim2SF deg) -> (-1074 <= k + 2 /\ k + 48 <= 971)%Z ->
  mag_le (k + 49) (Prim2SF (degToRad deg)).
Proof.
  intros H Hk. unfold degToRad. rewrite div_spec, mul_spec.
  change (Prim2SF 180) with (S754_finite false 6333186975989760 (-45)).
  replace (k + 49)%Z with (k + 3 - -45 + 1)%Z by ring.
  apply SFdiv_mag; [| lia].
  replace (k + 3)%Z with (k + 2 + 1)%Z by ring.
  apply SFmul_mag; [exact H | | lia].
  change (Prim2SF math.Pi) with (S754_finite false 7074237752028440 (-51)).
  cbn. lia.
Qed.

(** On a valid input every argument of [math.Sin] and of [math.Cos] is a
    number. *)
Lemma half_angle_number (x y : float) :
  mag_le 8 (Prim2SF x) -> mag_le 8 (Prim2SF y) ->
  F2Q (degToRad (y - x) / 2)%float <> None.
Proof.
  intros Hx Hy. apply (mag_F2Q (10 + 49 + 52)).
  apply half_mag; [| lia]. apply degToRad_mag_gen; [| lia].
  rewrite sub_spec. apply (SFsub_mag _ _ 8); [exact Hy | exact Hx | lia].
Qed.

Lemma radians_number (x : float) :
  mag_le 8 (Prim2SF x) -> F2Q (degToRad x) <> None.
Proof.
  intros Hx. apply (mag_F2Q (8 + 49)). apply degToRad_mag_gen; [exact Hx | lia].
Qed.

(** ** The validation gate of [Haversine] *)

Lemma valid_gate (lat1 lon1 lat2 lon2 : float) :
  negb (isValidLatitude lat1) || negb (isValidLatitude lat2)
  || negb (isValidLongitude lon1) || negb (isValidLongitude lon2) = false
  <-> ValidLat lat1 /\ ValidLat lat2 /\ ValidLon lon1 /\ ValidLon lon2.
Proof.
  rewrite !orb_false_iff, !negb_false_iff.
  rewrite !isValidLatitude_spec, !isValidLongitude_spec. tauto.
Qed.

Lemma invalid_gate (lat1 lon1 lat2 lon2 : float) :
  negb (isValidLatitude lat1) || negb (isValidLatitude lat2)
  || negb (isValidLongitude lon1) || negb (isValidLongitude lon2) = true
  <-> ~ ValidLat lat1 \/ ~ ValidLat lat2 \/ ~ ValidLon lon1 \/ ~ ValidLon lon2.
Proof.
  rewrite !orb_true_iff, !negb_true_iff.
  rewrite <- !isValidLatitude_spec, <- !isValidLongitude_spec.
  rewrite !not_true_iff_false. tauto.
Qed.

Lemma Haversine_accepts (libm : math.MathLib) (lat1 lon1 lat2 lon2 : float) :
  ValidLat lat1 -> ValidLon lon1 -> ValidLat lat2 -> ValidLon lon2 ->
  Haversine libm lat1 lon1 lat2 lon2
  = (Spec.distance libm lat1 lon1 lat2 lon2, None).
Proof.
  intros H1 H2 H3 H4. unfold Haversine.
  replace (negb (isValidLatitude lat1) || negb (isValidLatitude lat2)
           || negb (isValidLongitude lon1) || negb (isValidLongitude lon2))
    with false by (symmetry; apply valid_gate; auto).
  reflexivity.
Qed.

Lemma Haversine_rejects (libm : math.MathLib) (lat1 lon1 lat2 lon2 : float) :
  ~ ValidLat lat1 \/ ~ ValidLat lat2 \/ ~ ValidLon lon1 \/ ~ ValidLon lon2 ->
  Haversine libm lat1 lon1 lat2 lon2 = ((-1)%float, Some InvalidCoordinate).
Proof.
  intros H. apply invalid_gate in H. unfold Haversine. now rewrite H.
Qed.

(** Ranges are decided by running [in_range]. *)
Lemma ValidLat_run (lat : float) : in_range (-90) 90 lat = true -> ValidLat lat.
Proof. apply InRange_in_range. Qed.

Lemma ValidLon_run (lon : float) : in_range (-180) 180 lon = true -> ValidLon lon.
Proof. apply InRange_in_range. Qed.

Lemma not_ValidLat_run (lat : float) :
  in_range (-90) 90 lat = false -> ~ ValidLat lat.
Proof. intros H V. apply InRange_in_range in V. congruence. Qed.

Lemma not_ValidLon_run (lon : float) :
  in_range (-180) 180 lon = false -> ~ ValidLon lon.
Proof. intros H V. apply InRange_in_range in V. congruence. Qed.

Lemma NonFinite_not_InRange (lo hi : Q) (x : float) :
  NonFinite x -> ~ InRange lo hi x.
Proof.
  intros H (q & Hq & _). apply NonFinite_no_value in H. congruence.
Qed.

(** ** Symmetry *)

Lemma sin2_swap (libm : math.MathLib) (x y : float) :
  sin2_even libm ->
  Spec.sin2 libm (degToRad (y - x) / 2)%float
  = Spec.sin2 libm (degToRad (x - y) / 2)%float.
Proof.
  intros Heven. unfold Spec.sin2.
  destruct (sub_swap x y) as [-> | ->]; [| reflexivity].
  rewrite degToRad_opp, div_opp_l. apply Heven.
Qed.

Lemma distance_swap (libm : math.MathLib) (lat1 lon1 lat2 lon2 : float) :
  sin2_even libm ->
  Spec.distance libm lat1 lon1 lat2 lon2
  = Spec.distance libm lat2 lon2 lat1 lon1.
Proof.
  intros Heven. unfold Spec.distance, Spec.a.
  change Spec.radians with degToRad.
  rewrite (sin2_swap libm lat1 lat2 Heven), (sin2_swap libm lon1 lon2 Heven).
  rewrite (mul_comm (math.Cos libm (degToRad lat1))).
  reflexivity.
Qed.

Lemma sin2_even_of_odd (libm : math.MathLib) :
  (forall x : float, math.Sin libm (- x)%float = (- math.Sin libm x)%float) ->
  (forall x : float, math.Pow libm (- x)%float 2%float
                     = math.Pow libm x 2%float) ->
  sin2_even libm.
Proof. intros Hodd Heven x. now rewrite Hodd, Heven. Qed.

Lemma libm0_sin2_even : sin2_even libm0.
Proof. intros x. apply mul_opp_opp. Qed.

(** ** Identity *)

Lemma SFsub_self (x : spec_float) :
  is_number x = true -> SF64sub x x = S754_zero false.
Proof.
  destruct x as [[] | s | | s m e]; cbn [is_number SF64sub SFsub];
    try discriminate; try reflexivity.
  intros _. now rewrite Z.sub_diag.
Qed.

Lemma sub_self (x : float) : F2Q x <> None -> (x - x = 0)%float.
Proof.
  intros H. apply Prim2SF_inj. rewrite sub_spec. apply SFsub_self.
  apply number_SF2Q. unfold F2Q in H.
  destruct (SF2Q (Prim2SF x)) as [q |]; [now exists q | congruence].
Qed.

Lemma ValidLat_mag (lat : float) : ValidLat lat -> mag_le 8 (Prim2SF lat).
Proof. intros H. apply (InRange_mag 90 8); [exact H | reflexivity | lia]. Qed.

Lemma ValidLon_mag (lon : float) : ValidLon lon -> mag_le 8 (Prim2SF lon).
Proof. intros H. apply (InRange_mag 180 8); [exact H | reflexivity | lia]. Qed.

Lemma mul_self_zero (c : float) :
  InRange (-2) 2 c -> (c * c * 0 = 0)%float.
Proof.
  intros H.
  assert (Hc : mag_le 2 (Prim2SF c))
    by (apply (InRange_mag 2 2); [exact H | reflexivity | lia]).
  pose proof (SFmul_mag _ _ 2 2 Hc Hc ltac:(lia)) as Hcc.
  pose proof (SFmul_self_sign (Prim2SF c)) as Hs.
  apply Prim2SF_inj. rewrite !mul_spec.
  change (Prim2SF 0) with (S754_zero false).
  destruct (SF64mul (Prim2SF c) (Prim2SF c)) as [s | s | | s m e];
    cbn [mag_le] in Hcc; try contradiction; subst s; reflexivity.
Qed.

Lemma libm0_identity :
  sin_zero libm0 /\ pow_zero libm0 /\ cos_bounded libm0 /\ atan2_zero libm0.
Proof.
  split; [reflexivity | split; [reflexivity | split; [| reflexivity]]].
  intros x _. apply InRange_in_range. vm_compute. reflexivity.
Qed.

(** ** The arguments of the sine and of the cosine *)

Lemma libm0_libm1_agree : agree_on_numbers libm0 libm1.
Proof.
  repeat split; intros x H; cbn [math.Sin math.Cos libm0 libm1];
    destruct (F2Q x); congruence.
Qed.

(** ** When the haversine exceeds one

    The source takes the square root of [1 - a] as it stands.  These
    lemmas follow a value of [a] above 1 through the subtraction and the
    square root. *)

Lemma shiftr_pos (m n : Z) :
  (0 < m)%Z -> (0 <= n < Zdigits2 m)%Z -> (0 < Z.shiftr m n)%Z.
Proof.
  intros Hm Hn. rewrite Zdigits2_log2 in Hn by exact Hm.
  rewrite Z.shiftr_div_pow2 by lia.
  assert (H2 : (0 < 2 ^ n)%Z) by (apply Z.pow_pos_nonneg; lia).
  assert (Hle : (2 ^ n <= m)%Z).
  { apply Z.le_trans with (2 ^ Z.log2 m)%Z.
    - apply Z.pow_le_mono_r; lia.
    - apply Z.log2_spec. exact Hm. }
  apply Z.div_str_pos. lia.
Qed.

Lemma Zdigits2_pos (m : Z) : (0 < m)%Z -> (0 < Zdigits2 m)%Z.
Proof.
  intros Hm. rewrite Zdigits2_log2 by exact Hm.
  pose proof (Z.log2_nonneg m). lia.
Qed.

(** A value of at least [2 ^ emin] does not round to zero. *)
Lemma binary_round_aux_nonzero (s : bool) (m e : Z) (l : location) :
  (0 < m)%Z -> (-1074 < Zdigits2 m + e)%Z ->
  match binary_round_aux prec emax s m e l with
  | S754_zero _ | S754_nan => False
  | S754_infinity s' | S754_finite s' _ _ => s' = s
  end.
Proof.
  intros Hm Hmag.
  destruct (shr_fexp_spec m e l ltac:(lia)) as (mrs1 & n1 & E1 & Hm1 & Hn1).
  rewrite fexp64 in Hn1.
  pose proof (Zdigits2_pos m Hm) as HD0.
  assert (Hm1pos : (0 < shr_m mrs1)%Z)
    by (rewrite Hm1; apply shiftr_pos; lia).
  pose proof (round_nearest_even_bounds (shr_m mrs1) (loc_of_shr_record mrs1))
    as Hrne.
  set (m2 := round_nearest_even (shr_m mrs1) (loc_of_shr_record mrs1)) in *.
  destruct (shr_fexp_spec m2 (e + n1) loc_Exact ltac:(lia))
    as (mrs2 & n2 & E2 & Hm3 & Hn2).
  rewrite fexp64 in Hn2.
  unfold binary_round_aux. rewrite E1. fold m2. rewrite E2.
  assert (HD1 : (Zdigits2 (shr_m mrs1) + n1 = Zdigits2 m)%Z).
  { rewrite Hm1. apply Zdigits2_shiftr; lia. }
  assert (HD2 : (Zdigits2 (shr_m mrs1) <= Zdigits2 m2)%Z)
    by (apply Zdigits2_le; lia).
  pose proof (Zdigits2_pos m2 ltac:(lia)) as HD3.
  assert (Hm3pos : (0 < shr_m mrs2)%Z)
    by (rewrite Hm3; apply shiftr_pos; lia).
  destruct (shr_m mrs2) as [| p | p]; try lia.
  destruct (e + n1 + n2 <=? emax - prec)%Z; reflexivity.
Qed.

Lemma binary_round_nonzero (s : bool) (m : positive) (e : Z) :
  (-1074 <= e)%Z ->
  match binary_round prec emax s m e with
  | S754_zero _ | S754_nan => False
  | S754_infinity s' | S754_finite s' _ _ => s' = s
  end.
Proof.
  intros He. unfold binary_round.
  destruct (shl_align_spec m e (fexp prec emax (Z.pos (digits2_pos m) + e)))
    as (t & Ht & Hm & Hez & _).
  destruct (shl_align m e _) as [mz ez]. cbn [fst snd] in Hm, Hez.
  apply binary_round_aux_nonzero; [lia|].
  rewrite Hm, shiftl_mul_pow2_digits by lia. cbn [Zdigits2]. lia.
Qed.

(** The difference [x - y] of a number below [y] is negative, and not
    a zero. *)
Lemma SFsub_negative (x y : spec_float) :
  valid_binary x = true -> valid_binary y = true ->
  SFltb x y = true ->
  match SF64sub x y with
  | S754_infinity s | S754_finite s _ _ => s = true
  | S754_zero _ => False
  | S754_nan => is_number x = false
  end.
Proof.
  intros Vx Vy Hlt.
  assert (Hcmp : SFcompare x y = Some Lt).
  { unfold SFltb in Hlt.
    destruct (SFcompare x y) as [[] |]; try discriminate; reflexivity. }
  clear Hlt.
  destruct x as [sx | sx | | sx mx ex], y as [sy | sy | | sy my ey];
    cbn [SF64sub SFsub is_number];
    try solve [ cbn [SFcompare] in Hcmp;
                repeat match goal with b : bool |- _ => destruct b end;
                try discriminate; reflexivity ].
  assert (Hc : (units (S754_finite sx mx ex)
                < units (S754_finite sy my ey))%Z).
  { apply Z.compare_lt_iff.
    pose proof (compare_units _ _ Vx Vy eq_refl eq_refl) as E. congruence. }
  clear Hcmp. cbn [units] in Hc. cbn [valid_binary] in Vx, Vy.
  destruct (bounded_inv _ _ Vx) as ((Hex & _) & _).
  destruct (bounded_inv _ _ Vy) as ((Hey & _) & _).
  set (ez := Z.min ex ey).
  destruct (shl_align_spec mx ex ez) as (tx & Htx & Hmx & _ & Etx).
  destruct (shl_align_spec my ey ez) as (ty & Hty & Hmy & _ & Ety).
  rewrite Hmx, Hmy.
  assert (Hez : (emin64 <= ez)%Z) by (unfold ez; lia).
  assert (Hpx : (2 ^ (ex - emin64) = 2 ^ tx * 2 ^ (ez - emin64))%Z)
    by (rewrite <- Z.pow_add_r by lia; f_equal; lia).
  assert (Hpy : (2 ^ (ey - emin64) = 2 ^ ty * 2 ^ (ez - emin64))%Z)
    by (rewrite <- Z.pow_add_r by lia; f_equal; lia).
  rewrite Hpx, Hpy in Hc.
  assert (HP : (0 < 2 ^ (ez - emin64))%Z) by (apply Z.pow_pos_nonneg; lia).
  set (P := (2 ^ (ez - emin64))%Z) in *.
  set (a := (Z.pos mx * 2 ^ tx)%Z). set (b := (Z.pos my * 2 ^ ty)%Z).
  assert (Hab : (cond_Zopp sx a - cond_Zopp sy b < 0)%Z).
  { assert (Hc' : (cond_Zopp sx a * P < cond_Zopp sy b * P)%Z).
    { unfold a, b. destruct sx, sy; cbn [cond_Zopp] in *; lia. }
    apply Z.mul_lt_mono_pos_r in Hc'; [lia | exact HP]. }
  destruct (cond_Zopp sx a - cond_Zopp sy b)%Z as [| p | p] eqn:Ed; try lia.
  cbn [binary_normalize].
  pose proof (binary_round_nonzero true p ez ltac:(unfold emin64 in Hez; lia))
    as Hnz.
  destruct (binary_round prec emax true p ez); try contradiction; auto.
Qed.

Lemma SFsqrt_negative (x : spec_float) :
  match x with
  | S754_infinity s | S754_finite s _ _ => s = true
  | S754_zero _ => False
  | S754_nan => True
  end ->
  SF64sqrt x = S754_nan.
Proof.
  destruct x as [s | s | | s m e]; cbn [SF64sqrt SFsqrt];
    try contradiction; try reflexivity; intros ->; reflexivity.
Qed.

(** [math.Sqrt(1 - a)] is a NaN as soon as [a] exceeds 1. *)
Lemma Sqrt_one_minus (a : float) :
  (1 <? a)%float = true -> math.Sqrt (1 - a)%float = nan.
Proof.
  intros Hlt. rewrite ltb_spec in Hlt.
  pose proof (SFsub_negative _ _ (Prim2SF_valid 1) (Prim2SF_valid a) Hlt) as H.
  apply Prim2SF_inj. unfold math.Sqrt. rewrite sqrt_spec, sub_spec.
  change (Prim2SF nan) with S754_nan.
  apply SFsqrt_negative.
  destruct (SF64sub (Prim2SF 1) (Prim2SF a)); auto.
Qed.

Lemma libm0_atan2_nan : atan2_nan libm0.
Proof.
  intros y. cbn [math.Atan2 libm0]. apply Prim2SF_inj.
  rewrite div_spec, add_spec, !abs_spec.
  change (Prim2SF nan) with S754_nan.
  destruct (Prim2SF y); reflexivity.
Qed.

(** No clamp: on a valid input whose haversine [a] comes out above 1,
    [Haversine] returns a NaN distance with a nil error, on every library
    whose [Atan2] of a NaN is a NaN. *)
Lemma Haversine_above_one
  (libm : math.MathLib) (lat1 lon1 lat2 lon2 : float) :
  atan2_nan libm ->
  ValidLat lat1 -> ValidLon lon1 -> ValidLat lat2 -> ValidLon lon2 ->
  (1 <? Spec.a libm lat1 lon1 lat2 lon2)%float = true ->
  Haversine libm lat1 lon1 lat2 lon2 = (nan, None).
Proof.
  intros Hnan V1 V2 V3 V4 Ha.
  rewrite Haversine_accepts by assumption. f_equal.
  unfold Spec.distance, Spec.c.
  rewrite (Sqrt_one_minus _ Ha), Hnan. reflexivity.
Qed.

(** ** The real sine and cosine, enclosed by rational Taylor sums *)

Lemma Q2R_Qpow (a : Q) (n : nat) : Q2R (Qpow a n) = (Q2R a ^ n)%R.
Proof.
  induction n as [| n IH]; cbn [Qpow pow].
  - unfold Q2R. simpl. lra.
  - now rewrite Q2R_mult, IH.
Qed.

Lemma Zfact_fact (n : nat) : Zfact n = Z.of_nat (fact n).
Proof.
  induction n as [| n IH]; [reflexivity|].
  cbn [Zfact]. rewrite IH, <- Nat2Z.inj_mul. reflexivity.
Qed.

Lemma Q2R_Qfact (n : nat) : Q2R (Qfact n) = INR (fact n).
Proof.
  unfold Qfact, Q2R. cbn [Qnum Qden inject_Z].
  rewrite Zfact_fact, INR_IZR_INZ. rewrite Rinv_1. apply Rmult_1_r.
Qed.

Lemma Qfact_nonzero (n : nat) : ~ (Qfact n == 0)%Q.
Proof.
  unfold Qfact, Qeq. cbn [Qnum Qden inject_Z]. rewrite Zfact_fact.
  pose proof (lt_O_fact n). lia.
Qed.

Lemma Q2R_minus_one : Q2R (-1) = (-1)%R.
Proof. unfold Q2R. simpl. lra. Qed.

Lemma Q2R_sin_term (a : Q) (i : nat) :
  Q2R (sin_termQ a i) = sin_term (Q2R a) i.
Proof.
  unfold sin_termQ, sin_term.
  rewrite Q2R_mult, Q2R_div by apply Qfact_nonzero.
  now rewrite !Q2R_Qpow, Q2R_Qfact, Q2R_minus_one.
Qed.

Lemma Q2R_cos_term (a : Q) (i : nat) :
  Q2R (cos_termQ a i) = cos_term (Q2R a) i.
Proof.
  unfold cos_termQ, cos_term.
  rewrite Q2R_mult, Q2R_div by apply Qfact_nonzero.
  now rewrite !Q2R_Qpow, Q2R_Qfact, Q2R_minus_one.
Qed.

Lemma Q2R_Qsum (f : nat -> Q) (g : nat -> R) (n : nat) :
  (forall i, Q2R (f i) = g i) -> Q2R (Qsum f n) = sum_f_R0 g n.
Proof.
  intros H. induction n as [| n IH]; cbn [Qsum sum_f_R0].
  - apply H.
  - now rewrite Q2R_plus, IH, H.
Qed.

Lemma sin_enclosure (a : Q) (n : nat) :
  (0 <= a)%Q -> (a <= 4)%Q ->
  (Q2R (sin_approxQ a (2 * n + 1)) <= sin (Q2R a)
   <= Q2R (sin_approxQ a (2 * (n + 1))))%R.
Proof.
  intros H0 H4. unfold sin_approxQ.
  rewrite !(Q2R_Qsum _ (sin_term (Q2R a))) by apply Q2R_sin_term.
  apply pre_sin_bound.
  - apply Qle_Rle in H0. now rewrite RMicromega.Q2R_0 in H0.
  - apply Qle_Rle in H4. replace 4%R with (Q2R 4); [exact H4|].
    unfold Q2R. simpl. lra.
Qed.

Lemma cos_enclosure (a : Q) (n : nat) :
  (-2 <= a)%Q -> (a <= 2)%Q ->
  (Q2R (cos_approxQ a (2 * n + 1)) <= cos (Q2R a)
   <= Q2R (cos_approxQ a (2 * (n + 1))))%R.
Proof.
  intros Hlo Hhi. unfold cos_approxQ.
  rewrite !(Q2R_Qsum _ (cos_term (Q2R a))) by apply Q2R_cos_term.
  apply pre_cos_bound.
  - apply Qle_Rle in Hlo. replace (-2)%R with (Q2R (-2)); [exact Hlo|].
    unfold Q2R. simpl. lra.
  - apply Qle_Rle in Hhi. replace 2%R with (Q2R 2); [exact Hhi|].
    unfold Q2R. simpl. lra.
Qed.

(** ** Floats among the reals: the nearest float *)

Lemma scale_pos : (0 < IZR scale)%R.
Proof. apply IZR_lt. reflexivity. Qed.

Lemma F2R_units (x : float) :
  F2Q x <> None -> F2R x = (IZR (units (Prim2SF x)) / IZR scale)%R.
Proof.
  intros H. unfold F2R, value. unfold F2Q in *.
  destruct (SF2Q (Prim2SF x)) as [q |] eqn:E; [| congruence].
  pose proof (SF2Q_units _ _ (Prim2SF_valid x) E) as Hq.
  assert (Hs : (2 ^ emin64 == 1 # Z.to_pos scale)%Q) by reflexivity.
  rewrite Hs in Hq. apply Qeq_eqR in Hq. rewrite Hq, Q2R_mult.
  unfold Q2R. cbn [Qnum Qden inject_Z].
  replace (Z.pos (Z.to_pos scale)) with scale by reflexivity.
  field. pose proof scale_pos. lra.
Qed.

(** A real nearer to an isolated float than half its gap has this float
    as its one nearest float. *)
Lemma nearest_isolated (r : R) (s : float) (g : Z) :
  F2Q s <> None -> isolated s g ->
  (Rabs (r * IZR scale - IZR (units (Prim2SF s))) < IZR g / 2)%R ->
  forall y : float, nearest_to r y <-> y = s.
Proof.
  intros Hs Hiso Hr.
  pose proof scale_pos as Hsc.
  assert (Hscaled : forall z : float, F2Q z <> None ->
            (Rabs (F2R z - r) * IZR scale
             = Rabs (IZR (units (Prim2SF z)) - r * IZR scale))%R).
  { intros z Hz. rewrite (F2R_units z Hz).
    rewrite <- (Rabs_pos_eq (IZR scale)) at 2 by lra.
    rewrite <- Rabs_mult. f_equal. field. lra. }
  assert (Hfar : forall z : float, F2Q z <> None -> z <> s ->
            (IZR g / 2 < Rabs (IZR (units (Prim2SF z)) - r * IZR scale))%R).
  { intros z Hz Hne.
    destruct (Z_lt_le_dec (Z.abs (units (Prim2SF z) - units (Prim2SF s))) g)
      as [Hlt | Hge]; [elim Hne; now apply Hiso|].
    apply IZR_le in Hge. rewrite abs_IZR, minus_IZR in Hge.
    revert Hge Hr. unfold Rabs.
    repeat destruct Rcase_abs; lra. }
  intros y. split.
  - intros [Hy Hmin]. specialize (Hmin s Hs).
    destruct (Z_lt_le_dec (Z.abs (units (Prim2SF y) - units (Prim2SF s))) g)
      as [Hlt | Hge]; [now apply Hiso|].
    exfalso.
    apply (Rmult_le_compat_r (IZR scale)) in Hmin; [| lra].
    rewrite (Hscaled y Hy), (Hscaled s Hs) in Hmin.
    apply IZR_le in Hge. rewrite abs_IZR, minus_IZR in Hge.
    revert Hge Hr Hmin. unfold Rabs.
    repeat destruct Rcase_abs; lra.
  - intros ->. split; [exact Hs|]. intros z Hz.
    apply (Rmult_le_reg_r (IZR scale)); [lra|].
    rewrite (Hscaled z Hz), (Hscaled s Hs).
    destruct (Leibniz.eqb_spec z s) as [Heq _].
    destruct (Leibniz.eqb z s) eqn:E.
    + rewrite (Heq eq_refl). lra.
    + assert (Hne : z <> s).
      { intros ->. destruct (Leibniz.eqb_spec s s) as [_ H]. 
        rewrite (H eq_refl) in E. discriminate. }
      pose proof (Hfar z Hz Hne) as Hz'.
      revert Hz' Hr. unfold Rabs. repeat destruct Rcase_abs; lra.
Qed.

(** ** Isolated floats *)

Lemma pow2_split (a b : Z) :
  (b < a)%Z -> (emin64 <= b)%Z ->
  exists k : Z, (1 <= k)%Z
                /\ (2 ^ (a - emin64) = 2 * k * 2 ^ (b - emin64))%Z.
Proof.
  intros Hlt Hb. exists (2 ^ (a - b - 1))%Z. split.
  - assert (0 < 2 ^ (a - b - 1))%Z by (apply Z.pow_pos_nonneg; lia). lia.
  - replace (a - emin64)%Z with (1 + (a - b - 1) + (b - emin64))%Z by ring.
    rewrite !Z.pow_add_r by lia. reflexivity.
Qed.

(** A normal float whose mantissa is not a power of two is one unit in
    the last place away from its neighbours. *)
Lemma isolated_SF (sg : bool) (m : positive) (e : Z) (y : spec_float) :
  bounded prec emax m e = true -> (2 ^ 52 < Z.pos m)%Z ->
  valid_binary y = true -> is_number y = true ->
  (Z.abs (units y - units (S754_finite sg m e)) < 2 ^ (e - emin64))%Z ->
  y = S754_finite sg m e.
Proof.
  intros Vs Hm Vy Ny. cbn [units].
  destruct (bounded_inv _ _ Vs) as ((He & _) & Hm53 & _).
  assert (HP : (0 < 2 ^ (e - emin64))%Z) by (apply Z.pow_pos_nonneg; lia).
  set (P := (2 ^ (e - emin64))%Z) in *.
  assert (HmP : (P <= Z.pos m * P)%Z) by nia.
  destruct y as [sy | sy | | sy my ey]; try discriminate; cbn [units].
  - destruct sg; cbn [cond_Zopp]; lia.
  - cbn [valid_binary] in Vy.
    destruct (bounded_inv _ _ Vy) as ((Hey & _) & Hmy53 & Hmy52).
    assert (HPy : (0 < 2 ^ (ey - emin64))%Z) by (apply Z.pow_pos_nonneg; lia).
    destruct (Z.lt_trichotomy ey e) as [Hlt | [Heq | Hgt]].
    + destruct (pow2_split e ey Hlt Hey) as (k & Hk & HPk). fold P in HPk.
      set (Py := (2 ^ (ey - emin64))%Z) in *.
      assert (Z.pos my * Py + P <= Z.pos m * P)%Z by nia.
      destruct sg, sy; cbn [cond_Zopp]; lia.
    + subst ey. fold P. intros H.
      assert (Z.pos my = Z.pos m).
      { destruct sg, sy; cbn [cond_Zopp] in H; nia. }
      assert (sy = sg).
      { destruct sg, sy; cbn [cond_Zopp] in H; try reflexivity; nia. }
      congruence.
    + destruct (pow2_split ey e Hgt He) as (k & Hk & HPk). fold P in HPk.
      specialize (Hmy52 ltac:(lia)).
      set (Py := (2 ^ (ey - emin64))%Z) in *.
      assert (Z.pos m * P + P <= Z.pos my * Py)%Z by nia.
      destruct sg, sy; cbn [cond_Zopp]; lia.
Qed.

Lemma isolated_interior (s : float) (sg : bool) (m : positive) (e : Z) :
  Prim2SF s = S754_finite sg m e -> (2 ^ 52 < Z.pos m)%Z ->
  isolated s (2 ^ (e - emin64)).
Proof.
  intros Hs Hm y Hy Habs. apply Prim2SF_inj.
  pose proof (Prim2SF_valid s) as Vs. rewrite Hs in *.
  apply isolated_SF; auto.
  - apply Prim2SF_valid.
  - apply number_SF2Q. unfold F2Q in Hy.
    destruct (SF2Q (Prim2SF y)) as [q |]; [now exists q | congruence].
Qed.

(** The float 1 is half a unit in the last place away from its lower
    neighbour, and further from the upper one. *)
Lemma isolated_one : isolated 1%float (2 ^ (-53 - emin64)).
Proof.
  intros y Hy Habs. apply Prim2SF_inj. revert Habs.
  change (Prim2SF 1) with (S754_finite false 4503599627370496 (-52)).
  pose proof (Prim2SF_valid y) as Vy.
  assert (Ny : is_number (Prim2SF y) = true).
  { apply number_SF2Q. unfold F2Q in Hy.
    destruct (SF2Q (Prim2SF y)) as [q |]; [now exists q | congruence]. }
  cbn [units cond_Zopp].
  assert (HP : (0 < 2 ^ (-53 - emin64))%Z) by reflexivity.
  assert (H2P : (2 ^ (-52 - emin64) = 2 * 2 ^ (-53 - emin64))%Z)
    by reflexivity.
  destruct (Prim2SF y) as [sy | sy | | sy my ey]; try discriminate;
    cbn [units].
  cbn [valid_binary] in Vy.
  destruct (bounded_inv _ _ Vy) as ((Hey & _) & Hmy53 & Hmy52).
  assert (HPy : (0 < 2 ^ (ey - emin64))%Z) by (apply Z.pow_pos_nonneg; lia).
  destruct sy; cbn [cond_Zopp].
  - rewrite H2P. set (P := (2 ^ (-53 - emin64))%Z) in *. clearbody P.
      set (Py := (2 ^ (ey - emin64))%Z) in *. clearbody Py.
      intros H. exfalso. nia.
  - destruct (Z.lt_trichotomy ey (-53)) as [Hlt | [Heq | Hgt]].
    + destruct (pow2_split (-53) ey Hlt Hey) as (k & Hk & HPk).
      rewrite H2P.
      set (P := (2 ^ (-53 - emin64))%Z) in *. clearbody P.
      set (Py := (2 ^ (ey - emin64))%Z) in *. clearbody Py.
      intros H. exfalso. nia.
    + subst ey. rewrite H2P.
      set (P := (2 ^ (-53 - emin64))%Z) in *. clearbody P.
      intros H. exfalso. nia.
    + destruct (Z.eq_dec ey (-52)) as [-> | Hne].
      * set (P := (2 ^ (-52 - emin64))%Z) in *.
        set (Q := (2 ^ (-53 - emin64))%Z) in *. clearbody P Q.
        intros H. assert (Z.pos my = 4503599627370496)%Z by nia. congruence.
      * destruct (pow2_split ey (-52) ltac:(lia) ltac:(unfold emin64; lia))
          as (k & Hk & HPk).
        specialize (Hmy52 ltac:(unfold emin64; lia)).
        set (P := (2 ^ (-52 - emin64))%Z) in *.
        set (Q := (2 ^ (-53 - emin64))%Z) in *.
        set (Py := (2 ^ (ey - emin64))%Z) in *. clearbody P Q Py.
        intros H. exfalso. nia.
Qed.

(** ** The antipodal pair (2.5, -180), (-2.5, 0) *)

Lemma Q2R_inject_Z (z : Z) : Q2R (inject_Z z) = IZR z.
Proof.
  unfold Q2R. cbn [Qnum Qden inject_Z]. rewrite Rinv_1. apply Rmult_1_r.
Qed.

(** From an enclosure of [r] by two rationals to its distance from a
    float of [u] units. *)
Lemma near_from_enclosure (r : R) (lo hi : Q) (u g : Z) :
  (Q2R lo <= r <= Q2R hi)%R ->
  (inject_Z (2 * u - g) < lo * inject_Z (2 * scale))%Q ->
  (hi * inject_Z (2 * scale) < inject_Z (2 * u + g))%Q ->
  (Rabs (r * IZR scale - IZR u) < IZR g / 2)%R.
Proof.
  intros [Hlo Hhi] Hl Hh.
  apply Qlt_Rlt in Hl, Hh.
  rewrite Q2R_mult, !Q2R_inject_Z in Hl, Hh.
  rewrite minus_IZR in Hl. rewrite plus_IZR in Hh.
  rewrite !mult_IZR in Hl, Hh.
  pose proof scale_pos as Hsc.
  assert (Hl' : (Q2R lo * IZR scale <= r * IZR scale)%R)
    by (apply Rmult_le_compat_r; lra).
  assert (Hh' : (r * IZR scale <= Q2R hi * IZR scale)%R)
    by (apply Rmult_le_compat_r; lra).
  unfold Rabs. destruct Rcase_abs; lra.
Qed.

Lemma nearest_sin_hLat_a (y : float) :
  nearest_to (sin (F2R hLat_a)) y <-> y = sin_hLat_a.
Proof.
  apply (nearest_isolated _ sin_hLat_a (2 ^ (-57 - emin64))).
  - discriminate.
  - apply (isolated_interior _ true 6286216213909009 (-57)); reflexivity.
  - change (F2R hLat_a) with (Q2R q_hLat_a).
    replace (Q2R q_hLat_a) with (- Q2R (- q_hLat_a))%R
      by (rewrite Q2R_opp; lra).
    rewrite sin_neg.
    pose proof (sin_enclosure (- q_hLat_a) 2 ltac:(discriminate)
                  ltac:(discriminate)) as [Hlo Hhi].
    set (r := sin (Q2R (- q_hLat_a))) in *.
    apply (near_from_enclosure _
             (- sin_approxQ (- q_hLat_a) (2 * (2 + 1)))
             (- sin_approxQ (- q_hLat_a) (2 * 2 + 1))).
    + rewrite !Q2R_opp. lra.
    + vm_compute. reflexivity.
    + vm_compute. reflexivity.
Qed.

Lemma nearest_cos_rad_a (y : float) :
  nearest_to (cos (F2R rad_a)) y <-> y = cos_rad_a.
Proof.
  apply (nearest_isolated _ cos_rad_a (2 ^ (-53 - emin64))).
  - discriminate.
  - apply (isolated_interior _ false 8998626396882423 (-53)); reflexivity.
  - change (F2R rad_a) with (Q2R q_rad_a).
    pose proof (cos_enclosure q_rad_a 2 ltac:(discriminate)
                  ltac:(discriminate)) as [Hlo Hhi].
    apply (near_from_enclosure _
             (cos_approxQ q_rad_a (2 * 2 + 1))
             (cos_approxQ q_rad_a (2 * (2 + 1)))).
    + split; assumption.
    + vm_compute. reflexivity.
    + vm_compute. reflexivity.
Qed.

Lemma nearest_cos_neg_rad_a (y : float) :
  nearest_to (cos (F2R (- rad_a)%float)) y <-> y = cos_rad_a.
Proof.
  replace (F2R (- rad_a)%float) with (- F2R rad_a)%R.
  - rewrite cos_neg. apply nearest_cos_rad_a.
  - unfold F2R. rewrite <- Q2R_opp. apply Qeq_eqR. reflexivity.
Qed.

Lemma nearest_sin_hLon_a (y : float) :
  nearest_to (sin (F2R hLon_a)) y <-> y = 1%float.
Proof.
  apply (nearest_isolated _ 1%float (2 ^ (-53 - emin64))).
  - discriminate.
  - exact isolated_one.
  - change (F2R hLon_a) with (Q2R q_hLon_a).
    pose proof (sin_enclosure q_hLon_a 5 ltac:(discriminate)
                  ltac:(discriminate)) as [Hlo Hhi].
    apply (near_from_enclosure _
             (sin_approxQ q_hLon_a (2 * 5 + 1))
             (sin_approxQ q_hLon_a (2 * (5 + 1)))).
    + split; assumption.
    + vm_compute. reflexivity.
    + vm_compute. reflexivity.
Qed.

Lemma nearest_sq_sin_hLat_a (y : float) :
  nearest_to (F2R sin_hLat_a ^ 2) y <-> y = sq_sin_hLat_a.
Proof.
  apply (nearest_isolated _ sq_sin_hLat_a (2 ^ (-62 - emin64))).
  - discriminate.
  - apply (isolated_interior _ false 8774428803096094 (-62)); reflexivity.
  - change (F2R sin_hLat_a) with (Q2R q_sin_hLat_a).
    apply (near_from_enclosure _ (q_sin_hLat_a * q_sin_hLat_a)
             (q_sin_hLat_a * q_sin_hLat_a)).
    + rewrite Q2R_mult. cbn [pow]. rewrite Rmult_1_r.
      split; apply Rle_refl.
    + vm_compute. reflexivity.
    + vm_compute. reflexivity.
Qed.

Lemma nearest_sq_one (y : float) :
  nearest_to (F2R 1 ^ 2) y <-> y = 1%float.
Proof.
  apply (nearest_isolated _ 1%float (2 ^ (-53 - emin64))).
  - discriminate.
  - exact isolated_one.
  - apply (near_from_enclosure _ (value 1 * value 1) (value 1 * value 1)).
    + unfold F2R. rewrite Q2R_mult. cbn [pow]. rewrite Rmult_1_r.
      split; apply Rle_refl.
    + vm_compute. reflexivity.
    + vm_compute. reflexivity.
Qed.

Lemma libm_a_rounds : rounds_to_nearest_at libm_a 2.5 (-180) (-2.5) 0.
Proof.
  unfold rounds_to_nearest_at.
  change (degToRad (-2.5 - 2.5) / 2)%float with hLat_a.
  change (degToRad (0 - -180) / 2)%float with hLon_a.
  change (degToRad 2.5) with rad_a.
  change (degToRad (-2.5)) with (- rad_a)%float.
  cbv zeta. split; [| split; [| split; [| split; [| split]]]].
  - apply nearest_sin_hLat_a. reflexivity.
  - apply nearest_cos_rad_a. reflexivity.
  - apply nearest_cos_neg_rad_a. reflexivity.
  - apply nearest_sin_hLon_a. reflexivity.
  - apply nearest_sq_sin_hLat_a. reflexivity.
  - apply nearest_sq_one. reflexivity.
Qed.

(** The haversine of the pair, for a library that rounds to nearest. *)
Lemma antipodal_a (libm : math.MathLib) :
  rounds_to_nearest_at libm 2.5 (-180) (-2.5) 0 ->
  Spec.a libm 2.5 (-180) (-2.5) 0 = 0x1.0000000000001p+0%float.
Proof.
  intros (H1 & H2 & H3 & H4 & H5 & H6).
  change (degToRad (-2.5 - 2.5) / 2)%float with hLat_a in H1, H5.
  change (degToRad (0 - -180) / 2)%float with hLon_a in H4, H6.
  change (degToRad 2.5) with rad_a in H2.
  change (degToRad (-2.5)) with (- rad_a)%float in H3.
  apply nearest_sin_hLat_a in H1. apply nearest_cos_rad_a in H2.
  apply nearest_cos_neg_rad_a in H3. apply nearest_sin_hLon_a in H4.
  rewrite H1 in H5. rewrite H4 in H6.
  apply nearest_sq_sin_hLat_a in H5. apply nearest_sq_one in H6.
  unfold Spec.a, Spec.sin2.
  change (Spec.radians (-2.5 - 2.5) / 2)%float with hLat_a.
  change (Spec.radians (0 - -180) / 2)%float with hLon_a.
  change (Spec.radians 2.5) with rad_a.
  change (Spec.radians (-2.5)) with (- rad_a)%float.
  rewrite H1, H2, H3, H4, H5, H6. reflexivity.
Qed.

Lemma antipodal_valid :
  ValidLat 2.5 /\ ValidLon (-180) /\ ValidLat (-2.5) /\ ValidLon 0.
Proof.
  repeat split;
    first [ apply ValidLat_run | apply ValidLon_run ]; vm_compute; reflexivity.
Qed.

Lemma antipodal_result (libm : math.MathLib) :
  rounds_to_nearest_at libm 2.5 (-180) (-2.5) 0 -> atan2_nan libm ->
  Haversine libm 2.5 (-180) (-2.5) 0 = (nan, None).
Proof.
  intros Hr Hnan. destruct antipodal_valid as (V1 & V2 & V3 & V4).
  apply Haversine_above_one; try assumption.
  rewrite (antipodal_a libm Hr). reflexivity.
Qed.

(** ** Rounding errors in [SpecFloat] *)

Lemma F2R_SF2R (x : float) : F2R x = SF2R (Prim2SF x).
Proof.
  unfold F2R, value, F2Q. destruct (Prim2SF x) as [s | s | | s m e];
    cbn [SF2Q SF2R]; try apply RMicromega.Q2R_0.
  rewrite Q2R_mult, Q2R_inject_Z.
  rewrite RMicromega.Q2RpowerRZ by (left; discriminate).
  f_equal. f_equal. unfold Q2R. cbn. lra.
Qed.

Lemma powerRZ_2_pos (e : Z) : (0 < powerRZ 2 e)%R.
Proof. apply powerRZ_lt. lra. Qed.

Lemma powerRZ_2_IZR (n : Z) : (0 <= n)%Z -> powerRZ 2 n = IZR (2 ^ n).
Proof.
  intros Hn. rewrite <- (Z2Nat.id n Hn) at 1.
  rewrite <- pow_powerRZ, pow_IZR. now rewrite Z2Nat.id.
Qed.

Lemma powerRZ_2_add (a b : Z) :
  powerRZ 2 (a + b) = (powerRZ 2 a * powerRZ 2 b)%R.
Proof. apply powerRZ_add. lra. Qed.

Lemma powerRZ_2_le (a b : Z) :
  (a <= b)%Z -> (powerRZ 2 a <= powerRZ 2 b)%R.
Proof.
  intros H. replace b with (a + (b - a))%Z by ring.
  rewrite powerRZ_2_add, (powerRZ_2_IZR (b - a)) by lia.
  assert (Hp : (1 <= 2 ^ (b - a))%Z)
    by (change 1%Z with (2 ^ 0)%Z; apply Z.pow_le_mono_r; lia).
  apply IZR_le in Hp. pose proof (powerRZ_2_pos a) as Ha.
  rewrite <- (Rmult_1_r (powerRZ 2 a)) at 1.
  apply Rmult_le_compat_l; lra.
Qed.

Lemma powerRZ_2_succ (a : Z) : powerRZ 2 (a + 1) = (2 * powerRZ 2 a)%R.
Proof.
  rewrite powerRZ_2_add. replace (powerRZ 2 1) with 2%R; [lra|].
  rewrite (powerRZ_2_IZR 1) by lia. reflexivity.
Qed.

Lemma IZR_cond_Zopp (s : bool) (z : Z) :
  IZR (cond_Zopp s z) = (if s then - IZR z else IZR z)%R.
Proof. destruct s; cbn [cond_Zopp]; [apply opp_IZR | reflexivity]. Qed.

(** A right shift is a division that rounds down. *)
Lemma shiftr_bounds (m n : Z) :
  (0 <= n)%Z ->
  (Z.shiftr m n * 2 ^ n <= m < (Z.shiftr m n + 1) * 2 ^ n)%Z.
Proof.
  intros Hn. rewrite Z.shiftr_div_pow2 by exact Hn.
  assert (Hp : (0 < 2 ^ n)%Z) by (apply Z.pow_pos_nonneg; lia).
  pose proof (Z.mul_div_le m _ Hp). pose proof (Z.mul_succ_div_gt m _ Hp).
  lia.
Qed.

(** Without a shift the record is the one of the location. *)
Lemma shr_fexp_exact (m e : Z) (l : location) :
  (fexp prec emax (Zdigits2 m + e) <= e)%Z ->
  shr_fexp prec emax m e l = (shr_record_of_loc m l, e).
Proof.
  intros H. unfold shr_fexp, shr.
  destruct (fexp prec emax (Zdigits2 m + e) - e)%Z eqn:E; try reflexivity.
  lia.
Qed.

Lemma loc_of_shr_record_of_loc (m : Z) (l : location) :
  loc_of_shr_record (shr_record_of_loc m l) = l.
Proof. destruct l as [| []]; reflexivity. Qed.

(** The value of the outcome of a rounding, whatever its shape. *)
Lemma SF2R_round_result (s : bool) (m e : Z) (x : spec_float) :
  (0 <= m)%Z ->
  x = match m with
      | Z0 => S754_zero s
      | Zpos p => S754_finite s p e
      | Zneg _ => S754_nan
      end ->
  SF2R x = (IZR (cond_Zopp s m) * powerRZ 2 e)%R.
Proof.
  intros Hm ->. destruct m as [| p | p]; cbn [SF2R]; try lia.
  - destruct s; cbn [cond_Zopp Z.opp]; lra.
  - reflexivity.
Qed.

(** The rounding of [m * 2 ^ e], a number below [2 ^ k], is within four units
    of the last digit from it. *)
Lemma binary_round_aux_err (s : bool) (m e : Z) (l : location) (k : Z) :
  (0 <= m)%Z -> (Zdigits2 m + e <= k)%Z -> (-1074 <= k <= 971)%Z ->
  l = loc_Exact \/ (e <= ulp_exp k)%Z ->
  (Rabs (SF2R (binary_round_aux prec emax s m e l)
         - IZR (cond_Zopp s m) * powerRZ 2 e)
   <= 4 * powerRZ 2 (ulp_exp k))%R.
Proof.
  intros Hm Hk Hrange Hl.
  pose proof (powerRZ_2_pos (ulp_exp k)) as HE.
  destruct (shr_fexp_spec m e l Hm) as (mrs1 & n1 & E1 & Hm1 & Hn1).
  assert (Hm1pos : (0 <= shr_m mrs1)%Z)
    by (rewrite Hm1; now apply Z.shiftr_nonneg).
  pose proof (round_nearest_even_bounds (shr_m mrs1) (loc_of_shr_record mrs1))
    as Hrne.
  set (m2 := round_nearest_even (shr_m mrs1) (loc_of_shr_record mrs1)) in *.
  assert (Hm2 : (0 <= m2)%Z) by lia.
  destruct (shr_fexp_spec m2 (e + n1) loc_Exact Hm2)
    as (mrs2 & n2 & E2 & Hm3 & Hn2).
  set (m3 := shr_m mrs2) in *.
  assert (Hm3pos : (0 <= m3)%Z) by (rewrite Hm3; now apply Z.shiftr_nonneg).
  pose proof (Zdigits2_nonneg m) as HD0.
  assert (HD1 : (Zdigits2 (shr_m mrs1) + (e + n1) <= k)%Z).
  { rewrite fexp64 in Hn1.
    destruct (Z.eq_dec (shr_m mrs1) 0) as [-> | Hnz].
    - cbn [Zdigits2]. lia.
    - pose proof (Zdigits2_shiftr m n1 Hm ltac:(lia) ltac:(lia)) as Hs.
      rewrite <- Hm1 in Hs. lia. }
  assert (HD2 : (Zdigits2 m2 <= Zdigits2 (shr_m mrs1) + 1)%Z).
  { apply Z.le_trans with (Zdigits2 (shr_m mrs1 + 1)).
    - apply Zdigits2_le. lia.
    - now apply Zdigits2_succ. }
  assert (Hn1pos : (0 <= n1)%Z) by lia.
  assert (Hn2pos : (0 <= n2)%Z) by lia.
  (* the value of the result *)
  assert (Hres : SF2R (binary_round_aux prec emax s m e l)
                 = (IZR (cond_Zopp s m3) * powerRZ 2 (e + n1 + n2))%R).
  { apply SF2R_round_result; [exact Hm3pos|].
    unfold binary_round_aux. rewrite E1. fold m2. rewrite E2. fold m3.
    destruct m3 as [| p | p] eqn:E3; try reflexivity.
    assert (Hs : (Zdigits2 (Z.shiftr m2 n2) + n2 = Zdigits2 m2)%Z)
      by (apply Zdigits2_shiftr; lia).
    rewrite <- Hm3 in Hs. cbn [Zdigits2] in Hs.
    rewrite fexp64 in Hn1, Hn2.
    replace (e + n1 + n2 <=? emax - prec)%Z with true; [reflexivity|].
    symmetry; apply Z.leb_le; change (emax - prec)%Z with 971%Z. lia. }
  rewrite Hres.
  (* either nothing is lost, or the last digit is at most at [ulp_exp k] *)
  assert (Hex : (m3 = m /\ n1 = 0 /\ n2 = 0)%Z \/ (e + n1 <= ulp_exp k)%Z).
  { destruct (Z_le_gt_dec (fexp prec emax (Zdigits2 m + e)) e) as [Hns | Hsh].
    - destruct Hl as [-> | He]; [left | right; lia].
      rewrite (shr_fexp_exact m e loc_Exact Hns) in E1.
      injection E1 as <- Hn1'.
      assert (Hz1 : n1 = 0%Z) by lia.
      assert (Em2 : m2 = m) by reflexivity.
      rewrite Em2, Hz1, Z.add_0_r in Hn2.
      assert (Hz2 : n2 = 0%Z) by lia.
      rewrite Em2, Hz2, Z.shiftr_0_r in Hm3. auto.
    - right. rewrite fexp64 in Hn1, Hsh. unfold ulp_exp. lia. }
  destruct Hex as [(-> & -> & ->) | He1].
  { rewrite !Z.add_0_r. replace (_ - _)%R with 0%R by ring.
    rewrite Rabs_R0. lra. }
  assert (He2 : (e + n1 + n2 <= ulp_exp k + 1)%Z).
  { rewrite fexp64 in Hn2. unfold ulp_exp in *. lia. }
  (* in units of [2 ^ e] *)
  pose proof (shiftr_bounds m n1 Hn1pos) as B1. rewrite <- Hm1 in B1.
  pose proof (shiftr_bounds m2 n2 Hn2pos) as B2. rewrite <- Hm3 in B2.
  fold m3 in B2.
  set (P1 := (2 ^ n1)%Z) in *. set (P2 := (2 ^ n2)%Z) in *.
  assert (HP1 : (0 < P1)%Z) by (apply Z.pow_pos_nonneg; lia).
  assert (HP2 : (0 < P2)%Z) by (apply Z.pow_pos_nonneg; lia).
  assert (Hint : (Z.abs (m3 * (P1 * P2) - m) <= P1 + P1 * P2)%Z).
  { assert (U1 : (m3 * P2 * P1 <= m2 * P1)%Z)
      by (apply Z.mul_le_mono_nonneg_r; lia).
    assert (U2 : (m2 * P1 <= (shr_m mrs1 + 1) * P1)%Z)
      by (apply Z.mul_le_mono_nonneg_r; lia).
    assert (L1 : (m2 * P1 < (m3 + 1) * P2 * P1)%Z)
      by (apply Z.mul_lt_mono_pos_r; lia).
    assert (L2 : (shr_m mrs1 * P1 <= m2 * P1)%Z)
      by (apply Z.mul_le_mono_nonneg_r; lia).
    lia. }
  replace (e + n1 + n2)%Z with (e + (n1 + n2))%Z by ring.
  rewrite (powerRZ_2_add e), (powerRZ_2_IZR (n1 + n2)) by lia.
  rewrite Z.pow_add_r by lia. fold P1 P2.
  assert (Hreal : (Rabs (IZR (m3 * (P1 * P2) - m)) <= IZR (P1 + P1 * P2))%R)
    by (rewrite <- abs_IZR; now apply IZR_le).
  rewrite minus_IZR, plus_IZR, !mult_IZR in Hreal.
  assert (Hb1 : (IZR P1 * powerRZ 2 e <= powerRZ 2 (ulp_exp k))%R).
  { unfold P1. rewrite <- powerRZ_2_IZR by lia.
    rewrite <- powerRZ_2_add. apply powerRZ_2_le. lia. }
  assert (Hb2 : (IZR P1 * IZR P2 * powerRZ 2 e
                 <= 2 * powerRZ 2 (ulp_exp k))%R).
  { unfold P1, P2. rewrite <- mult_IZR, <- Z.pow_add_r by lia.
    rewrite <- powerRZ_2_IZR by lia.
    rewrite <- powerRZ_2_add, <- powerRZ_2_succ. apply powerRZ_2_le. lia. }
  pose proof (powerRZ_2_pos e) as Hpe.
  rewrite !IZR_cond_Zopp, !mult_IZR.
  set (x := IZR m3) in *. set (p1 := IZR P1) in *. set (p2 := IZR P2) in *.
  set (y := IZR m) in *. set (w := powerRZ 2 e) in *.
  assert (Hw : (Rabs (x * (p1 * p2) - y) * w <= (p1 + p1 * p2) * w)%R)
    by (apply Rmult_le_compat_r; lra).
  destruct s.
  - replace (- x * (w * (p1 * p2)) - - y * w)%R
      with (- ((x * (p1 * p2) - y) * w))%R by ring.
    rewrite Rabs_Ropp, Rabs_mult, (Rabs_pos_eq w) by lra. lra.
  - replace (x * (w * (p1 * p2)) - y * w)%R
      with ((x * (p1 * p2) - y) * w)%R by ring.
    rewrite Rabs_mult, (Rabs_pos_eq w) by lra. lra.
Qed.

Lemma SF2R_opp (x : spec_float) : SF2R (SFopp x) = (- SF2R x)%R.
Proof.
  destruct x as [s | s | | s m e]; cbn [SFopp SF2R]; try lra.
  rewrite !IZR_cond_Zopp. destruct s; cbn [negb]; lra.
Qed.

Lemma mag_le_opp (k : Z) (x : spec_float) : mag_le k (SFopp x) <-> mag_le k x.
Proof. destruct x; cbn [SFopp mag_le]; tauto. Qed.

Lemma Rabs_zero_le (x r : R) : x = 0%R -> (0 <= r)%R -> (Rabs x <= r)%R.
Proof. intros -> H. now rewrite Rabs_R0. Qed.

Lemma ulp_pos (k : Z) : (0 <= 4 * powerRZ 2 (ulp_exp k))%R.
Proof. pose proof (powerRZ_2_pos (ulp_exp k)). lra. Qed.

(** The product. *)
Lemma SFmul_err (x y : spec_float) (kx ky : Z) :
  mag_le kx x -> mag_le ky y -> (-1074 <= kx + ky <= 971)%Z ->
  (Rabs (SF2R (SF64mul x y) - SF2R x * SF2R y)
   <= 4 * powerRZ 2 (ulp_exp (kx + ky)))%R.
Proof.
  destruct x as [sx | sx | | sx mx ex], y as [sy | sy | | sy my ey];
    cbn [SF64mul SFmul mag_le]; try tauto; intros Hx Hy Hk;
    try (apply Rabs_zero_le; [cbn [SF2R]; ring | apply ulp_pos]).
  pose proof (binary_round_aux_err (xorb sx sy) (Z.pos (mx * my)) (ex + ey)
                loc_Exact (kx + ky) ltac:(lia)) as H.
  replace (SF2R (S754_finite sx mx ex) * SF2R (S754_finite sy my ey))%R
    with (IZR (cond_Zopp (xorb sx sy) (Z.pos (mx * my)))
          * powerRZ 2 (ex + ey))%R.
  - apply H; [| exact Hk | now left].
    pose proof (Zdigits2_mul mx my). lia.
  - cbn [SF2R]. rewrite powerRZ_2_add, !IZR_cond_Zopp, Pos2Z.inj_mul, mult_IZR.
    destruct sx, sy; cbn [xorb]; ring.
Qed.

(** The rounding of an integer multiple of a power of 2. *)
Lemma binary_round_err (s : bool) (m : positive) (e k : Z) :
  (Z.pos (digits2_pos m) + e <= k)%Z -> (-1074 <= k <= 971)%Z ->
  (Rabs (SF2R (binary_round prec emax s m e)
         - IZR (cond_Zopp s (Z.pos m)) * powerRZ 2 e)
   <= 4 * powerRZ 2 (ulp_exp k))%R.
Proof.
  intros Hk Hr. unfold binary_round.
  destruct (shl_align_spec m e (fexp prec emax (Z.pos (digits2_pos m) + e)))
    as (t & Ht & Hm & He & _).
  destruct (shl_align m e _) as [mz ez]. cbn [fst snd] in Hm, He.
  replace (IZR (cond_Zopp s (Z.pos m)) * powerRZ 2 e)%R
    with (IZR (cond_Zopp s (Z.pos mz)) * powerRZ 2 ez)%R.
  - apply binary_round_aux_err; [lia | | exact Hr | now left].
    rewrite Hm, shiftl_mul_pow2_digits by lia. cbn [Zdigits2]. lia.
  - assert (Hp : powerRZ 2 e = (IZR (2 ^ t) * powerRZ 2 ez)%R).
    { rewrite <- powerRZ_2_IZR, <- powerRZ_2_add by lia. f_equal. lia. }
    rewrite !IZR_cond_Zopp, Hm, mult_IZR, Hp. destruct s; ring.
Qed.

Lemma binary_normalize_err (m e k : Z) :
  (Zdigits2 m + e <= k)%Z -> (-1074 <= k <= 971)%Z ->
  (Rabs (SF2R (binary_normalize prec emax m e false) - IZR m * powerRZ 2 e)
   <= 4 * powerRZ 2 (ulp_exp k))%R.
Proof.
  intros Hk Hr. destruct m as [| p | p]; cbn [binary_normalize].
  - apply Rabs_zero_le; [cbn [SF2R]; ring | apply ulp_pos].
  - now apply (binary_round_err false).
  - now apply (binary_round_err true).
Qed.

(** The mantissas of two numbers below [2 ^ k], aligned on the smaller
    exponent. *)
Lemma aligned (mx my : positive) (ex ey k : Z) :
  (Z.pos (digits2_pos mx) + ex <= k)%Z ->
  (Z.pos (digits2_pos my) + ey <= k)%Z ->
  let ez := Z.min ex ey in
  exists a b : Z,
    Z.pos (fst (shl_align mx ex ez)) = a
    /\ Z.pos (fst (shl_align my ey ez)) = b
    /\ (0 < a < 2 ^ (k - ez))%Z /\ (0 < b < 2 ^ (k - ez))%Z
    /\ (0 <= k - ez)%Z
    /\ (IZR a * powerRZ 2 ez = IZR (Z.pos mx) * powerRZ 2 ex)%R
    /\ (IZR b * powerRZ 2 ez = IZR (Z.pos my) * powerRZ 2 ey)%R.
Proof.
  intros Hx Hy ez.
  destruct (shl_align_spec mx ex ez) as (tx & Htx & Hmx & _ & Etx).
  destruct (shl_align_spec my ey ez) as (ty & Hty & Hmy & _ & Ety).
  exists (Z.pos mx * 2 ^ tx)%Z, (Z.pos my * 2 ^ ty)%Z.
  assert (Ha : (0 < Z.pos mx * 2 ^ tx < 2 ^ (k - ez))%Z).
  { pose proof (Zdigits2_gt (Z.pos mx) ltac:(lia)) as Hg.
    cbn [Zdigits2] in Hg.
    assert (0 < 2 ^ tx)%Z by (apply Z.pow_pos_nonneg; lia).
    split; [apply Z.mul_pos_pos; lia|].
    apply Z.lt_le_trans with (2 ^ Z.pos (digits2_pos mx) * 2 ^ tx)%Z.
    - apply Z.mul_lt_mono_pos_r; lia.
    - rewrite <- Z.pow_add_r by lia. apply Z.pow_le_mono_r; lia. }
  assert (Hb : (0 < Z.pos my * 2 ^ ty < 2 ^ (k - ez))%Z).
  { pose proof (Zdigits2_gt (Z.pos my) ltac:(lia)) as Hg.
    cbn [Zdigits2] in Hg.
    assert (0 < 2 ^ ty)%Z by (apply Z.pow_pos_nonneg; lia).
    split; [apply Z.mul_pos_pos; lia|].
    apply Z.lt_le_trans with (2 ^ Z.pos (digits2_pos my) * 2 ^ ty)%Z.
    - apply Z.mul_lt_mono_pos_r; lia.
    - rewrite <- Z.pow_add_r by lia. apply Z.pow_le_mono_r; lia. }
  assert (Hkez : (0 <= k - ez)%Z).
  { destruct (Z_lt_le_dec (k - ez) 0) as [Hn | Hn]; [| exact Hn].
    rewrite (Z.pow_neg_r 2 (k - ez)) in Ha by exact Hn. lia. }
  repeat split; try assumption; try lia.
  - assert (Hp : powerRZ 2 ex = (IZR (2 ^ tx) * powerRZ 2 ez)%R).
    { rewrite <- powerRZ_2_IZR, <- powerRZ_2_add by lia. f_equal.
      unfold ez in *. lia. }
    rewrite mult_IZR, Hp. ring.
  - assert (Hp : powerRZ 2 ey = (IZR (2 ^ ty) * powerRZ 2 ez)%R).
    { rewrite <- powerRZ_2_IZR, <- powerRZ_2_add by lia. f_equal.
      unfold ez in *. lia. }
    rewrite mult_IZR, Hp. ring.
Qed.

(** The difference. *)
Lemma SFsub_err (x y : spec_float) (k : Z) :
  mag_le k x -> mag_le k y -> (-1074 <= k + 1 <= 971)%Z ->
  (Rabs (SF2R (SF64sub x y) - (SF2R x - SF2R y))
   <= 4 * powerRZ 2 (ulp_exp (k + 1)))%R.
Proof.
  destruct x as [sx | sx | | sx mx ex], y as [sy | sy | | sy my ey];
    cbn [SF64sub SFsub mag_le]; try tauto; intros Hx Hy Hk.
  - apply Rabs_zero_le; [| apply ulp_pos].
    destruct sx, sy; cbn [SF2R]; ring.
  - apply Rabs_zero_le; [| apply ulp_pos].
    cbn [SF2R]. rewrite !IZR_cond_Zopp. destruct sy; cbn [negb]; ring.
  - apply Rabs_zero_le; [| apply ulp_pos]. cbn [SF2R]. ring.
  - destruct (aligned mx my ex ey k Hx Hy)
      as (a & b & -> & -> & Ha & Hb & Hkez & Ea & Eb).
    set (ez := Z.min ex ey) in *.
    replace (SF2R (S754_finite sx mx ex) - SF2R (S754_finite sy my ey))%R
      with (IZR (cond_Zopp sx a - cond_Zopp sy b) * powerRZ 2 ez)%R.
    + apply binary_normalize_err; [| exact Hk].
      rewrite Zdigits2_abs.
      assert (Hd : (Zdigits2 (Z.abs (cond_Zopp sx a - cond_Zopp sy b))
                    <= k - ez + 1)%Z).
      { apply Zdigits2_lt_pow; [| lia].
        rewrite Z.pow_add_r by lia. change (2 ^ 1)%Z with 2%Z.
        destruct sx, sy; cbn [cond_Zopp]; lia. }
      lia.
    + cbn [SF2R]. rewrite minus_IZR, !IZR_cond_Zopp.
      destruct sx, sy; lra.
Qed.

Lemma SFadd_sub_opp (x y : spec_float) : SF64add x y = SF64sub x (SFopp y).
Proof.
  destruct x as [[] | [] | | sx mx ex], y as [[] | [] | | sy my ey];
    cbn [SF64add SFadd SF64sub SFsub SFopp negb]; try reflexivity.
  - now rewrite negb_involutive.
  - now rewrite negb_involutive.
  - f_equal. destruct sy; cbn [negb cond_Zopp]; lia.
Qed.

(** The sum. *)
Lemma SFadd_err (x y : spec_float) (k : Z) :
  mag_le k x -> mag_le k y -> (-1074 <= k + 1 <= 971)%Z ->
  (Rabs (SF2R (SF64add x y) - (SF2R x + SF2R y))
   <= 4 * powerRZ 2 (ulp_exp (k + 1)))%R.
Proof.
  intros Hx Hy Hk. rewrite SFadd_sub_opp.
  replace (SF2R x + SF2R y)%R with (SF2R x - SF2R (SFopp y))%R
    by (rewrite SF2R_opp; ring).
  apply SFsub_err; [exact Hx | now apply mag_le_opp | exact Hk].
Qed.

Lemma SFadd_mag (x y : spec_float) (k : Z) :
  mag_le k x -> mag_le k y -> (-1074 <= k + 1 <= 971)%Z ->
  mag_le (k + 2) (SF64add x y).
Proof.
  intros Hx Hy Hk. rewrite SFadd_sub_opp.
  apply SFsub_mag; [exact Hx | now apply mag_le_opp | exact Hk].
Qed.

(** The square root: its integer core. *)
Lemma SFsqrt_core_spec (m : positive) (e : Z) :
  exists (q e' : Z) (l : location),
    SFsqrt_core_binary prec emax (Z.pos m) e = (q, e', l)
    /\ (0 <= q)%Z /\ (2 * e' <= e)%Z
    /\ (e' <= fexp prec emax (Z.div2 (Zdigits2 (Z.pos m) + e + 1)))%Z
    /\ (q * q <= Z.pos m * 2 ^ (e - 2 * e') < (q + 1) * (q + 1))%Z.
Proof.
  unfold SFsqrt_core_binary.
  set (d := Zdigits2 (Z.pos m)).
  set (e' := Z.min (fexp prec emax (Z.div2 (d + e + 1))) (Z.div2 e)).
  assert (He' : (2 * e' <= e)%Z).
  { assert (2 * Z.div2 e <= e)%Z
      by (rewrite Z.div2_div; apply Z.mul_div_le; lia).
    unfold e'. lia. }
  set (s := (e - 2 * e')%Z).
  assert (Hm' : match s with
                | 0%Z => Z.pos m
                | Z.pos _ => Z.shiftl (Z.pos m) s
                | Z.neg _ => 0%Z
                end = (Z.pos m * 2 ^ s)%Z).
  { destruct s as [| p | p] eqn:Es.
    - cbn. lia.
    - now rewrite Z.shiftl_mul_pow2 by lia.
    - lia. }
  rewrite Hm'.
  assert (Hpos : (0 <= Z.pos m * 2 ^ s)%Z).
  { apply Z.mul_nonneg_nonneg; [lia|]. apply Z.pow_nonneg. lia. }
  pose proof (Z.sqrtrem_spec _ Hpos) as Hs.
  destruct (Z.sqrtrem (Z.pos m * 2 ^ s)) as [q r] eqn:Eq.
  destruct Hs as [Hs Hr].
  assert (Hq : (0 <= q)%Z).
  { pose proof (Z.sqrtrem_sqrt (Z.pos m * 2 ^ s)) as H. rewrite Eq in H.
    cbn [fst] in H. rewrite H. apply Z.sqrt_nonneg. }
  eexists q, e', _. split; [reflexivity|].
  split; [exact Hq|]. split; [exact He'|]. split; [apply Z.le_min_l|].
  fold s. lia.
Qed.

Lemma div2_le (a b : Z) : (a <= b)%Z -> (Z.div2 a <= Z.div2 b)%Z.
Proof. intros H. rewrite !Z.div2_div. apply Z.div_le_mono; lia. Qed.

Lemma div2_sub_even (n e' : Z) : Z.div2 (n - 2 * e') = (Z.div2 n - e')%Z.
Proof.
  rewrite !Z.div2_div.
  replace (n - 2 * e')%Z with (n + (- e') * 2)%Z by ring.
  rewrite Z.div_add by lia. ring.
Qed.

(** The square root of a number below [2 ^ kx] is a number below
    [2 ^ (k + 1)], [k] the half of [kx] rounded up, within five units of the
    last digit from the real square root. *)
Lemma SFsqrt_err (x : spec_float) (kx : Z) :
  mag_le kx x ->
  match x with S754_finite true _ _ => False | _ => True end ->
  (-1074 <= Z.div2 (kx + 1) <= 971)%Z ->
  mag_le (Z.div2 (kx + 1) + 1) (SF64sqrt x)
  /\ (Rabs (SF2R (SF64sqrt x) - R_sqrt.sqrt (SF2R x))
      <= 5 * powerRZ 2 (ulp_exp (Z.div2 (kx + 1))))%R.
Proof.
  set (k := Z.div2 (kx + 1)).
  destruct x as [sx | sx | | [] mx ex]; cbn [SF64sqrt SFsqrt mag_le];
    try tauto; intros Hx _ Hk.
  - split; [exact I|].
    apply Rabs_zero_le; [cbn [SF2R]; rewrite sqrt_0; ring|].
    pose proof (powerRZ_2_pos (ulp_exp k)). lra.
  - destruct (SFsqrt_core_spec mx ex) as (q & e' & l & -> & Hq & He' & Hf & Hsq).
    set (d := Zdigits2 (Z.pos mx)) in *. set (s := (ex - 2 * e')%Z) in *.
    assert (Hd : d = Z.pos (digits2_pos mx)) by reflexivity.
    assert (Hs : (0 <= s)%Z) by (unfold s; lia).
    assert (Hk1 : (Z.div2 (d + ex + 1) <= k)%Z) by (apply div2_le; lia).
    set (j := Z.div2 (d + s + 1)).
    assert (Hj : (j + e' = Z.div2 (d + ex + 1))%Z).
    { unfold j, s. replace (d + (ex - 2 * e') + 1)%Z
        with (d + ex + 1 - 2 * e')%Z by ring.
      rewrite div2_sub_even. ring. }
    assert (Hj0 : (0 <= j)%Z).
    { unfold j. rewrite Z.div2_div. apply Z.div_pos; lia. }
    assert (Hds : (d + s <= 2 * j)%Z).
    { unfold j. rewrite Z.div2_div.
      pose proof (Z.mul_succ_div_gt (d + s + 1) 2 ltac:(lia)). lia. }
    assert (Hqj : (q < 2 ^ j)%Z).
    { pose proof (Zdigits2_gt (Z.pos mx) ltac:(lia)) as Hg. fold d in Hg.
      assert (Hm' : (Z.pos mx * 2 ^ s < 2 ^ j * 2 ^ j)%Z).
      { rewrite <- Z.pow_add_r by lia.
        apply Z.lt_le_trans with (2 ^ d * 2 ^ s)%Z.
        - apply Z.mul_lt_mono_pos_r; [apply Z.pow_pos_nonneg|]; lia.
        - rewrite <- Z.pow_add_r by lia. apply Z.pow_le_mono_r; lia. }
      assert (0 < 2 ^ j)%Z by (apply Z.pow_pos_nonneg; lia).
      destruct (Z_lt_le_dec q (2 ^ j)) as [Hlt | Hge]; [exact Hlt|].
      assert (2 ^ j * 2 ^ j <= q * q)%Z by (apply Z.mul_le_mono_nonneg; lia).
      lia. }
    assert (Hdq : (Zdigits2 q + e' <= k)%Z).
    { pose proof (Zdigits2_lt_pow q j ltac:(lia) Hj0). lia. }
    assert (Hulp : (e' <= ulp_exp k)%Z).
    { rewrite fexp64 in Hf. unfold ulp_exp. lia. }
    split.
    + apply binary_round_aux_mag; [exact Hq | exact Hdq | exact Hk].
    + pose proof (binary_round_aux_err false q e' l k Hq Hdq Hk
                    (or_intror Hulp)) as Herr.
      cbn [cond_Zopp] in Herr.
      set (res := SF2R (binary_round_aux prec emax false q e' l)) in *.
      pose proof (powerRZ_2_pos e') as Hw.
      pose proof (powerRZ_2_le _ _ Hulp) as Hwu.
      set (w := powerRZ 2 e') in *.
      assert (Hv : SF2R (S754_finite false mx ex)
                   = (IZR (Z.pos mx * 2 ^ s) * (w * w))%R).
      { cbn [SF2R cond_Zopp]. rewrite mult_IZR, <- powerRZ_2_IZR by lia.
        unfold w. rewrite <- !powerRZ_2_add.
        rewrite Rmult_assoc, <- powerRZ_2_add. do 2 f_equal. unfold s. lia. }
      rewrite Hv.
      assert (H0 : (0 <= IZR (Z.pos mx * 2 ^ s))%R).
      { apply IZR_le. apply Z.mul_nonneg_nonneg; [lia|].
        apply Z.pow_nonneg. lia. }
      rewrite sqrt_mult_alt by exact H0.
      rewrite (sqrt_square w) by lra.
      assert (Hlo : (IZR q <= R_sqrt.sqrt (IZR (Z.pos mx * 2 ^ s)))%R).
      { rewrite <- (sqrt_square (IZR q)) by (now apply IZR_le).
        apply sqrt_le_1_alt. rewrite <- mult_IZR. apply IZR_le. lia. }
      assert (Hhi : (R_sqrt.sqrt (IZR (Z.pos mx * 2 ^ s)) < IZR q + 1)%R).
      { rewrite <- (sqrt_square (IZR q + 1))
          by (apply IZR_le in Hq; lra).
        apply sqrt_lt_1_alt. split; [exact H0|].
        rewrite <- (plus_IZR q 1), <- mult_IZR. apply IZR_lt. lia. }
      set (r := R_sqrt.sqrt (IZR (Z.pos mx * 2 ^ s))) in *.
      assert (Hrw : (IZR q * w <= r * w <= IZR q * w + w)%R) by nra.
      revert Herr. unfold Rabs. repeat destruct Rcase_abs; lra.
Qed.

(** ** Rounding errors of the operations on floats *)

Lemma F2Q_value (x : float) : F2Q x <> None -> F2Q x = Some (value x).
Proof. unfold value. destruct (F2Q x); congruence. Qed.

(** A number of absolute value at most [n < 2 ^ k]. *)
Lemma bound_mag (x : float) (n k : Z) :
  F2Q x <> None -> (Rabs (F2R x) <= IZR n)%R -> (n < 2 ^ k)%Z -> (0 <= k)%Z ->
  mag_le k (Prim2SF x).
Proof.
  intros Hx Hb Hn Hk. apply (InRange_mag n); [| exact Hn | exact Hk].
  exists (value x). split; [now apply F2Q_value|].
  unfold F2R in Hb. rewrite <- Q2R_inject_Z in Hb.
  split; apply Rle_Qle; rewrite ?inject_Z_opp, ?Q2R_opp;
    revert Hb; unfold Rabs; destruct Rcase_abs; lra.
Qed.

Lemma ulp_eps (k : Z) (c : R) :
  (k <= 14)%Z -> (0 <= c <= 4)%R -> (c * powerRZ 2 (ulp_exp k) <= eps)%R.
Proof.
  intros Hk Hc.
  assert (Hu : (ulp_exp k <= -39)%Z) by (unfold ulp_exp; lia).
  apply powerRZ_2_le in Hu. pose proof (powerRZ_2_pos (ulp_exp k)) as Hp.
  assert (E : (4 * powerRZ 2 (-39) = eps)%R).
  { unfold eps. change (-39)%Z with (- (39))%Z. rewrite powerRZ_neg'.
    rewrite (powerRZ_2_IZR 39) by lia.
    change (2 ^ 39)%Z with (4 * 137438953472)%Z. rewrite mult_IZR.
    lra. }
  rewrite <- E. nra.
Qed.

Lemma mul_close (x y : float) (kx ky : Z) :
  mag_le kx (Prim2SF x) -> mag_le ky (Prim2SF y) ->
  (-1074 <= kx + ky <= 14)%Z ->
  F2Q (x * y)%float <> None
  /\ (Rabs (F2R (x * y)%float - F2R x * F2R y) <= eps)%R.
Proof.
  intros Hx Hy Hk. split.
  - apply (mag_F2Q (kx + ky + 1)). rewrite mul_spec.
    apply SFmul_mag; [exact Hx | exact Hy | lia].
  - rewrite !F2R_SF2R, mul_spec.
    eapply Rle_trans; [apply (SFmul_err _ _ kx ky); [exact Hx | exact Hy | lia]|].
    apply ulp_eps; [lia | lra].
Qed.

Lemma add_close (x y : float) (k : Z) :
  mag_le k (Prim2SF x) -> mag_le k (Prim2SF y) -> (-1074 <= k + 1 <= 14)%Z ->
  F2Q (x + y)%float <> None
  /\ (Rabs (F2R (x + y)%float - (F2R x + F2R y)) <= eps)%R.
Proof.
  intros Hx Hy Hk. split.
  - apply (mag_F2Q (k + 2)). rewrite add_spec.
    apply SFadd_mag; [exact Hx | exact Hy | lia].
  - rewrite !F2R_SF2R, add_spec.
    eapply Rle_trans; [apply (SFadd_err _ _ k); [exact Hx | exact Hy | lia]|].
    apply ulp_eps; [lia | lra].
Qed.

Lemma sub_close (x y : float) (k : Z) :
  mag_le k (Prim2SF x) -> mag_le k (Prim2SF y) -> (-1074 <= k + 1 <= 14)%Z ->
  F2Q (x - y)%float <> None
  /\ (Rabs (F2R (x - y)%float - (F2R x - F2R y)) <= eps)%R.
Proof.
  intros Hx Hy Hk. split.
  - apply (mag_F2Q (k + 2)). rewrite sub_spec.
    apply SFsub_mag; [exact Hx | exact Hy | lia].
  - rewrite !F2R_SF2R, sub_spec.
    eapply Rle_trans; [apply (SFsub_err _ _ k); [exact Hx | exact Hy | lia]|].
    apply ulp_eps; [lia | lra].
Qed.

Lemma sqrt_close (x : float) (kx : Z) :
  mag_le kx (Prim2SF x) -> (0 <= F2R x)%R -> (-2148 <= kx <= 25)%Z ->
  F2Q (math.Sqrt x) <> None
  /\ (Rabs (F2R (math.Sqrt x) - R_sqrt.sqrt (F2R x)) <= 2 * eps)%R.
Proof.
  intros Hx H0 Hk. unfold math.Sqrt.
  assert (Hk' : (-1074 <= Z.div2 (kx + 1) <= 13)%Z).
  { rewrite Z.div2_div. split.
    - apply Z.div_le_lower_bound; lia.
    - apply Z.div_le_upper_bound; lia. }
  assert (Hs : match Prim2SF x with
               | S754_finite true _ _ => False
               | _ => True
               end).
  { rewrite F2R_SF2R in H0. destruct (Prim2SF x) as [| | | [] m e]; auto.
    cbn [SF2R cond_Zopp] in H0. pose proof (powerRZ_2_pos e) as Hp.
    assert (IZR (- Z.pos m) <= -1)%R by (apply IZR_le; lia). nra. }
  destruct (SFsqrt_err _ kx Hx Hs ltac:(lia)) as [Hm He]. split.
  - apply (mag_F2Q (Z.div2 (kx + 1) + 1)). now rewrite sqrt_spec.
  - rewrite !F2R_SF2R, sqrt_spec.
    eapply Rle_trans; [exact He|].
    pose proof (ulp_eps (Z.div2 (kx + 1)) 4 ltac:(lia) ltac:(lra)) as Hu.
    pose proof (powerRZ_2_pos (ulp_exp (Z.div2 (kx + 1)))). lra.
Qed.

(** ** Real intervals *)

Lemma enclose (r : R) (lo hi lo' hi' : Q) :
  (Q2R lo <= r <= Q2R hi)%R ->
  Qle_bool lo' lo = true -> Qle_bool hi hi' = true ->
  (Q2R lo' <= r <= Q2R hi')%R.
Proof.
  intros [H1 H2] Hlo Hhi.
  apply Qle_bool_imp_le, Qle_Rle in Hlo, Hhi. lra.
Qed.

Lemma within_RRange (d r lo hi : R) (x : float) :
  within d r x -> (lo <= r <= hi)%R -> RRange (lo - d) (hi + d) x.
Proof.
  intros [Hx Hd] Hr. split; [exact Hx|].
  revert Hd. unfold Rabs. destruct Rcase_abs; lra.
Qed.

Lemma RRange_weaken (lo hi lo' hi' : R) (x : float) :
  RRange lo hi x -> (lo' <= lo)%R -> (hi <= hi')%R -> RRange lo' hi' x.
Proof. intros [Hx Hr] H1 H2. split; [exact Hx | lra]. Qed.

Lemma RRange_close (d r lo hi : R) (x : float) :
  F2Q x <> None /\ (Rabs (F2R x - r) <= d)%R ->
  (lo + d <= r)%R -> (r <= hi - d)%R -> RRange lo hi x.
Proof.
  intros [Hx Hd] H1 H2. split; [exact Hx|].
  revert Hd. unfold Rabs. destruct Rcase_abs; lra.
Qed.

Lemma RRange_small (lo hi : R) (x : float) :
  RRange lo hi x -> (-1 <= lo)%R -> (hi <= 1)%R -> mag_le 1 (Prim2SF x).
Proof.
  intros [Hx Hr] H1 H2. apply (bound_mag x 1 1); [exact Hx | | lia | lia].
  unfold Rabs. destruct Rcase_abs; lra.
Qed.

Lemma F2R_const (x : float) (q : Q) :
  Qeq_bool (value x) q = true -> F2R x = Q2R q.
Proof. intros H. apply Qeq_eqR. now apply Qeq_bool_eq. Qed.

Lemma F2R_1 : F2R 1 = 1%R.
Proof. rewrite (F2R_const 1 1) by reflexivity. apply RMicromega.Q2R_1. Qed.

Lemma F2R_2 : F2R 2 = 2%R.
Proof.
  rewrite (F2R_const 2 2) by reflexivity. unfold Q2R. cbn [Qnum Qden]. lra.
Qed.

Lemma F2R_earthRadius : F2R earthRadius = 6371%R.
Proof.
  rewrite (F2R_const earthRadius 6371) by reflexivity.
  unfold Q2R. cbn [Qnum Qden]. lra.
Qed.

Lemma sqrt_between (r lo hi : R) :
  (0 <= lo)%R -> (0 <= hi)%R -> (lo * lo <= r <= hi * hi)%R ->
  (lo <= R_sqrt.sqrt r <= hi)%R.
Proof.
  intros Hlo Hhi [H1 H2]. split.
  - rewrite <- (sqrt_square lo Hlo) at 1. now apply sqrt_le_1_alt.
  - rewrite <- (sqrt_square hi Hhi) at 1. now apply sqrt_le_1_alt.
Qed.

Lemma div_between (x y xlo xhi ylo yhi rlo rhi : R) :
  (0 < xlo <= x)%R -> (x <= xhi)%R -> (ylo <= y <= yhi)%R ->
  (0 <= rlo)%R -> (rlo * xhi <= ylo)%R -> (yhi <= rhi * xlo)%R ->
  (rlo <= y / x <= rhi)%R.
Proof.
  intros Hx Hx' Hy Hr H1 H2.
  assert (Hpos : (0 < x)%R) by lra.
  assert (E : (y / x * x = y)%R) by (field; lra).
  assert (A1 : (rlo * x <= rlo * xhi)%R) by (apply Rmult_le_compat_l; lra).
  assert (Hrhi : (0 <= rhi)%R).
  { assert (0 <= rlo * xhi)%R by (apply Rmult_le_pos; lra).
    destruct (Rle_lt_dec 0 rhi) as [Hp | Hn]; [exact Hp|].
    assert (rhi * xlo < 0)%R by nra. lra. }
  assert (A2 : (rhi * xlo <= rhi * x)%R) by (apply Rmult_le_compat_l; lra).
  split; apply (Rmult_le_reg_r x); try exact Hpos; rewrite E; lra.
Qed.

Lemma Ratan2_pos (y x : R) : (0 < x)%R -> Ratan2 y x = atan (y / x).
Proof.
  intros H. unfold Ratan2.
  destruct (Rlt_dec 0 x); [reflexivity | contradiction].
Qed.

Lemma atan_le (x y : R) : (x <= y)%R -> (atan x <= atan y)%R.
Proof.
  intros [H | ->]; [left; now apply atan_increasing | right; reflexivity].
Qed.

(** The arc tangent, enclosed through the Taylor sums of the sine and of
    the cosine at the two bounds. *)
Lemma atan_enclosure (tlo thi rlo rhi : Q) (n : nat) (rho : R) :
  (0 <= tlo)%Q -> (tlo <= 1)%Q -> (0 <= thi)%Q -> (thi <= 1)%Q ->
  (0 <= rlo)%Q ->
  (0 < cos_approxQ tlo (2 * n + 1))%Q ->
  (sin_approxQ tlo (2 * (n + 1)) <= rlo * cos_approxQ tlo (2 * n + 1))%Q ->
  (rhi * cos_approxQ thi (2 * (n + 1)) <= sin_approxQ thi (2 * n + 1))%Q ->
  (Q2R rlo <= rho <= Q2R rhi)%R ->
  (Q2R tlo <= atan rho <= Q2R thi)%R.
Proof.
  intros L0 L1 H0 H1 R0 Cpos Hlo Hhi [Rlo Rhi].
  pose proof PI2_1 as Hpi.
  apply Qle_Rle in L0, L1, H0, H1, R0, Hlo, Hhi. apply Qlt_Rlt in Cpos.
  rewrite RMicromega.Q2R_0 in *. rewrite RMicromega.Q2R_1 in *.
  rewrite Q2R_mult in Hlo, Hhi.
  destruct (sin_enclosure tlo n) as [_ S1];
    [apply Rle_Qle; rewrite RMicromega.Q2R_0; lra
    |apply Rle_Qle; replace (Q2R 4) with 4%R
        by (unfold Q2R; cbn [Qnum Qden]; lra); lra|].
  destruct (cos_enclosure tlo n) as [C1 _];
    [apply Rle_Qle; replace (Q2R (-2)) with (-2)%R
        by (unfold Q2R; cbn [Qnum Qden]; lra); lra
    |apply Rle_Qle; replace (Q2R 2) with 2%R
        by (unfold Q2R; cbn [Qnum Qden]; lra); lra|].
  destruct (sin_enclosure thi n) as [S2 _];
    [apply Rle_Qle; rewrite RMicromega.Q2R_0; lra
    |apply Rle_Qle; replace (Q2R 4) with 4%R
        by (unfold Q2R; cbn [Qnum Qden]; lra); lra|].
  destruct (cos_enclosure thi n) as [_ C2];
    [apply Rle_Qle; replace (Q2R (-2)) with (-2)%R
        by (unfold Q2R; cbn [Qnum Qden]; lra); lra
    |apply Rle_Qle; replace (Q2R 2) with 2%R
        by (unfold Q2R; cbn [Qnum Qden]; lra); lra|].
  set (t1 := Q2R tlo) in *. set (t2 := Q2R thi) in *.
  assert (Hc1 : (0 < cos t1)%R) by lra.
  assert (Hc2 : (0 < cos t2)%R) by (apply cos_gt_0; lra).
  split.
  - rewrite <- (atan_tan t1) by lra. apply atan_le.
    unfold tan. apply (Rmult_le_reg_r (cos t1)); [exact Hc1|].
    replace (sin t1 / cos t1 * cos t1)%R with (sin t1) by (field; lra).
    nra.
  - rewrite <- (atan_tan t2) by lra. apply atan_le.
    unfold tan. apply (Rmult_le_reg_r (cos t2)); [exact Hc2|].
    replace (sin t2 / cos t2 * cos t2)%R with (sin t2) by (field; lra).
    nra.
Qed.

Ltac q_le := apply Qle_bool_imp_le; vm_compute; reflexivity.
Ltac q_lt := vm_compute; reflexivity.
Ltac range_of t :=
  eapply RRange_weaken; [apply t; lra | unfold eps; lra | unfold eps; lra].

Lemma RRange_InRange (lo hi : Q) (x : float) :
  RRange (Q2R lo) (Q2R hi) x -> InRange lo hi x.
Proof.
  intros [Hx [H1 H2]]. exists (value x). split; [now apply F2Q_value|].
  unfold F2R in *. split; now apply Rle_Qle.
Qed.

Lemma F2R_between (x : float) (lo hi : Q) :
  Qle_bool lo (value x) && Qle_bool (value x) hi = true ->
  (Q2R lo <= F2R x <= Q2R hi)%R.
Proof.
  intros H. apply andb_prop in H. destruct H as [H1 H2].
  apply Qle_bool_imp_le, Qle_Rle in H1, H2. unfold F2R. lra.
Qed.

Lemma RRange_mul (a1 a2 b1 b2 : R) (x y : float) :
  RRange a1 a2 x -> RRange b1 b2 y ->
  (0 <= a1)%R -> (a2 <= 1)%R -> (0 <= b1)%R -> (b2 <= 1)%R ->
  RRange (a1 * b1 - eps) (a2 * b2 + eps) (x * y)%float.
Proof.
  intros Hx Hy A1 A2 B1 B2.
  destruct (mul_close x y 1 1) as [Hn He];
    [apply (RRange_small _ _ _ Hx); lra
    |apply (RRange_small _ _ _ Hy); lra | lia |].
  destruct Hx as [_ Hx], Hy as [_ Hy]. split; [exact Hn|].
  assert (H : (a1 * b1 <= F2R x * F2R y <= a2 * b2)%R) by nra.
  revert He. unfold Rabs. destruct Rcase_abs; lra.
Qed.

Lemma RRange_add (a1 a2 b1 b2 : R) (x y : float) :
  RRange a1 a2 x -> RRange b1 b2 y ->
  (-1 <= a1)%R -> (a2 <= 1)%R -> (-1 <= b1)%R -> (b2 <= 1)%R ->
  RRange (a1 + b1 - eps) (a2 + b2 + eps) (x + y)%float.
Proof.
  intros Hx Hy A1 A2 B1 B2.
  destruct (add_close x y 1) as [Hn He];
    [apply (RRange_small _ _ _ Hx); lra
    |apply (RRange_small _ _ _ Hy); lra | lia |].
  destruct Hx as [_ Hx], Hy as [_ Hy]. split; [exact Hn|].
  revert He. unfold Rabs. destruct Rcase_abs; lra.
Qed.

Lemma RRange_sub (a1 a2 b1 b2 : R) (x y : float) :
  RRange a1 a2 x -> RRange b1 b2 y ->
  (-1 <= a1)%R -> (a2 <= 1)%R -> (-1 <= b1)%R -> (b2 <= 1)%R ->
  RRange (a1 - b2 - eps) (a2 - b1 + eps) (x - y)%float.
Proof.
  intros Hx Hy A1 A2 B1 B2.
  destruct (sub_close x y 1) as [Hn He];
    [apply (RRange_small _ _ _ Hx); lra
    |apply (RRange_small _ _ _ Hy); lra | lia |].
  destruct Hx as [_ Hx], Hy as [_ Hy]. split; [exact Hn|].
  revert He. unfold Rabs. destruct Rcase_abs; lra.
Qed.

Lemma RRange_sqrt (a1 a2 l h : R) (x : float) :
  RRange a1 a2 x ->
  (0 <= l)%R -> (0 <= h)%R -> (l * l <= a1)%R -> (a2 <= h * h)%R ->
  (a2 <= 1)%R ->
  RRange (l - 2 * eps) (h + 2 * eps) (math.Sqrt x).
Proof.
  intros Hx L H A1 A2 A3.
  assert (Hl : (0 <= l * l)%R) by now apply Rmult_le_pos.
  destruct (sqrt_close x 1) as [Hn He];
    [apply (RRange_small _ _ _ Hx); lra | destruct Hx; lra | lia |].
  destruct Hx as [_ Hx]. split; [exact Hn|].
  pose proof (sqrt_between (F2R x) l h L H ltac:(lra)) as Hs.
  revert He. unfold Rabs. destruct Rcase_abs; lra.
Qed.

Lemma RRange_1 : RRange 1 1 1%float.
Proof. split; [discriminate | rewrite F2R_1; lra]. Qed.

(** ** New York City to Los Angeles *)

Lemma sin_nyc_la_hLat :
  ((-0.058068455) <= sin (F2R nyc_la_hLat) <= (-0.058068454))%R.
Proof.
  change (F2R nyc_la_hLat) with (Q2R q_nyc_la_hLat).
  replace (Q2R q_nyc_la_hLat) with (- Q2R (- q_nyc_la_hLat))%R
    by (rewrite Q2R_opp; lra).
  rewrite sin_neg.
  pose proof (sin_enclosure (- q_nyc_la_hLat) 3 ltac:(discriminate)
                ltac:(discriminate)) as H.
  set (r := sin (Q2R (- q_nyc_la_hLat))) in *.
  apply (enclose _ _ _ (58068454 # 1000000000)
           (58068455 # 1000000000)) in H;
    [| vm_compute; reflexivity | vm_compute; reflexivity].
  unfold Q2R in H. cbn [Qnum Qden] in H. lra.
Qed.

Lemma sin_nyc_la_hLon :
  ((-0.376520173) <= sin (F2R nyc_la_hLon) <= (-0.376520172))%R.
Proof.
  change (F2R nyc_la_hLon) with (Q2R q_nyc_la_hLon).
  replace (Q2R q_nyc_la_hLon) with (- Q2R (- q_nyc_la_hLon))%R
    by (rewrite Q2R_opp; lra).
  rewrite sin_neg.
  pose proof (sin_enclosure (- q_nyc_la_hLon) 3 ltac:(discriminate)
                ltac:(discriminate)) as H.
  set (r := sin (Q2R (- q_nyc_la_hLon))) in *.
  apply (enclose _ _ _ (376520172 # 1000000000)
           (376520173 # 1000000000)) in H;
    [| vm_compute; reflexivity | vm_compute; reflexivity].
  unfold Q2R in H. cbn [Qnum Qden] in H. lra.
Qed.

Lemma cos_nyc_rad :
  (0.757988637 <= cos (F2R nyc_rad) <= 0.757988638)%R.
Proof.
  change (F2R nyc_rad) with (Q2R q_nyc_rad).
  pose proof (cos_enclosure q_nyc_rad 3 ltac:(discriminate)
                ltac:(discriminate)) as H.
  set (r := cos (Q2R q_nyc_rad)) in *.
  apply (enclose _ _ _ (757988637 # 1000000000)
           (757988638 # 1000000000)) in H;
    [| vm_compute; reflexivity | vm_compute; reflexivity].
  unfold Q2R in H. cbn [Qnum Qden] in H. lra.
Qed.

Lemma cos_la_rad :
  (0.828501381 <= cos (F2R la_rad) <= 0.828501382)%R.
Proof.
  change (F2R la_rad) with (Q2R q_la_rad).
  pose proof (cos_enclosure q_la_rad 3 ltac:(discriminate)
                ltac:(discriminate)) as H.
  set (r := cos (Q2R q_la_rad)) in *.
  apply (enclose _ _ _ (828501381 # 1000000000)
           (828501382 # 1000000000)) in H;
    [| vm_compute; reflexivity | vm_compute; reflexivity].
  unfold Q2R in H. cbn [Qnum Qden] in H. lra.
Qed.

(** The distance computed with a library accurate to [1e-6]. *)
Lemma nyc_la_distance (libm : math.MathLib) :
  accurate_at 1e-6 libm nyc_lat nyc_lon la_lat la_lon ->
  RRange 3935.46462864 3935.597846252
    (Spec.distance libm nyc_lat nyc_lon la_lat la_lon).
Proof.
  unfold accurate_at, Spec.distance, Spec.c. cbv zeta.
  change (degToRad (la_lat - nyc_lat) / 2)%float with nyc_la_hLat.
  change (degToRad (la_lon - nyc_lon) / 2)%float with nyc_la_hLon.
  change (degToRad nyc_lat) with nyc_rad.
  change (degToRad la_lat) with la_rad.
  assert (Ea : Spec.a libm nyc_lat nyc_lon la_lat la_lon
               = (math.Pow libm (math.Sin libm nyc_la_hLat) 2
                  + math.Cos libm nyc_rad * math.Cos libm la_rad
                    * math.Pow libm (math.Sin libm nyc_la_hLon) 2)%float)
    by reflexivity.
  set (a := Spec.a libm nyc_lat nyc_lon la_lat la_lon) in *.
  set (sLat := math.Sin libm nyc_la_hLat) in *.
  set (sLon := math.Sin libm nyc_la_hLon) in *.
  set (c1 := math.Cos libm nyc_rad) in *.
  set (c2 := math.Cos libm la_rad) in *.
  set (p1 := math.Pow libm sLat 2) in *.
  set (p2 := math.Pow libm sLon 2) in *.
  intros (H1 & H2 & H3 & H4 & H5 & H6 & H7).
  assert (R1 : RRange (-0.058069455) (-0.058067454) sLat).
  { range_of (within_RRange _ _ _ _ _ H1 sin_nyc_la_hLat). }
  assert (R2 : RRange 0.757987637 0.757989638 c1).
  { range_of (within_RRange _ _ _ _ _ H2 cos_nyc_rad). }
  assert (R3 : RRange 0.828500381 0.828502382 c2).
  { range_of (within_RRange _ _ _ _ _ H3 cos_la_rad). }
  assert (R4 : RRange (-0.376521173) (-0.376519172) sLon).
  { range_of (within_RRange _ _ _ _ _ H4 sin_nyc_la_hLon). }
  assert (R5 : RRange 0.003370829 0.003373062 p1).
  { assert (Q : (0.003371829 <= F2R sLat ^ 2 <= 0.003372062)%R).
    { destruct R1 as [_ B].
      replace (F2R sLat ^ 2)%R with (F2R sLat * F2R sLat)%R by ring. nra. }
    range_of (within_RRange _ _ _ _ _ H5 Q). }
  assert (R6 : RRange 0.141765686 0.141769194 p2).
  { assert (Q : (0.141766686 <= F2R sLon ^ 2 <= 0.141768194)%R).
    { destruct R4 as [_ B].
      replace (F2R sLon ^ 2)%R with (F2R sLon * F2R sLon)%R by ring. nra. }
    range_of (within_RRange _ _ _ _ _ H6 Q). }
  assert (R7 : RRange 0.627993046 0.627996221 (c1 * c2)%float).
  { range_of (RRange_mul _ _ _ _ _ _ R2 R3). }
  assert (R8 : RRange 0.089027864 0.089030519 (c1 * c2 * p2)%float).
  { range_of (RRange_mul _ _ _ _ _ _ R7 R6). }
  assert (R9 : RRange 0.092398692 0.092403582 a).
  { rewrite Ea. range_of (RRange_add _ _ _ _ _ _ R5 R8). }
  assert (R10 : RRange 0.907596417 0.907601309 (1 - a)%float).
  { range_of (RRange_sub _ _ _ _ _ _ RRange_1 R9). }
  assert (R11 : RRange 0.30397153 0.303979576 (math.Sqrt a)).
  { range_of (RRange_sqrt _ _ 0.303971531 0.303979575 _ R9). }
  assert (R12 : RRange 0.952678547 0.952681118 (math.Sqrt (1 - a)%float)).
  { range_of (RRange_sqrt _ _ 0.952678548 0.952681117 _ R10). }
  set (y := math.Sqrt a) in *. set (x := math.Sqrt (1 - a)%float) in *.
  assert (Hrho : (0.319069544 <= F2R y / F2R x <= 0.319078851)%R).
  { destruct R11 as [_ By], R12 as [_ Bx].
    apply (div_between _ _ 0.952678547 0.952681118
             0.30397153 0.303979576); lra. }
  pose proof (atan_enclosure (308858686 # 1000000000) (308867140 # 1000000000)
                (319069544 # 1000000000) (319078851 # 1000000000) 3
                (F2R y / F2R x)) as Hatan.
  unfold Q2R in Hatan. cbn [Qnum Qden] in Hatan.
  specialize (Hatan ltac:(q_le) ltac:(q_le) ltac:(q_le) ltac:(q_le)
                ltac:(q_le) ltac:(q_lt) ltac:(q_le) ltac:(q_le) ltac:(lra)).
  rewrite Ratan2_pos in H7 by (destruct R12 as [_ Bx]; lra).
  set (r := math.Atan2 libm y x) in *.
  assert (R13 : RRange 0.308857686 0.30886814 r).
  { range_of (within_RRange _ _ _ _ _ H7 Hatan). }
  assert (R14 : RRange 0.617715371 0.617736281 (2 * r)%float).
  { destruct (mul_close 2 r 2 1) as [Hn He];
      [apply (bound_mag 2 2 2); [discriminate | | lia | lia];
       rewrite F2R_2, Rabs_pos_eq; lra
      |apply (RRange_small _ _ _ R13); lra | lia |].
    rewrite F2R_2 in He. destruct R13 as [_ Br].
    apply (RRange_close eps (2 * F2R r));
      [split; assumption | unfold eps; lra | unfold eps; lra]. }
  set (c := (2 * r)%float) in *.
  destruct (mul_close Spec.earthRadiusKm c 13 1) as [Hn He];
    [apply (bound_mag _ 6371 13); [discriminate | | lia | lia];
     change Spec.earthRadiusKm with earthRadius;
     rewrite F2R_earthRadius, Rabs_pos_eq; lra
    |apply (RRange_small _ _ _ R14); lra | lia |].
  change Spec.earthRadiusKm with earthRadius in *.
  rewrite F2R_earthRadius in He. destruct R14 as [_ Bc].
  apply (RRange_close eps (6371 * F2R c));
    [split; assumption | unfold eps; lra | unfold eps; lra].
Qed.

(** The library [libm_nyc_la] is accurate to [1e-6] at this call. *)
Lemma within_between (d r rlo rhi : R) (x : float) (lo hi : Q) :
  F2Q x <> None ->
  Qle_bool lo (value x) && Qle_bool (value x) hi = true ->
  (rlo <= r <= rhi)%R ->
  (Q2R hi - rlo <= d)%R -> (rhi - Q2R lo <= d)%R ->
  within d r x.
Proof.
  intros Hx Hb Hr H1 H2. split; [exact Hx|].
  apply F2R_between in Hb. unfold Rabs. destruct Rcase_abs; lra.
Qed.

Lemma within_square (x : float) (lo hi : Q) :
  F2Q x <> None ->
  Qle_bool lo (value x) && Qle_bool (value x) hi = true ->
  (-1 <= Q2R lo)%R -> (Q2R hi <= 1)%R ->
  within 1e-6 (F2R x ^ 2) (x * x)%float.
Proof.
  intros Hx Hb H1 H2. apply F2R_between in Hb.
  assert (Hm : mag_le 1 (Prim2SF x)).
  { apply (RRange_small (Q2R lo) (Q2R hi)); [split; assumption | lra | lra]. }
  destruct (mul_close x x 1 1 Hm Hm ltac:(lia)) as [Hn He].
  split; [exact Hn|].
  replace (F2R x ^ 2)%R with (F2R x * F2R x)%R by ring.
  eapply Rle_trans; [exact He|]. unfold eps. lra.
Qed.

Lemma libm_nyc_la_accurate :
  accurate_at 1e-6 libm_nyc_la nyc_lat nyc_lon la_lat la_lon.
Proof.
  unfold accurate_at. cbv zeta.
  change (degToRad (la_lat - nyc_lat) / 2)%float with nyc_la_hLat.
  change (degToRad (la_lon - nyc_lon) / 2)%float with nyc_la_hLon.
  change (degToRad nyc_lat) with nyc_rad.
  change (degToRad la_lat) with la_rad.
  change (Spec.a libm_nyc_la nyc_lat nyc_lon la_lat la_lon) with a_nyc_la.
  change (math.Sin libm_nyc_la nyc_la_hLat) with sLat_nyc_la.
  change (math.Sin libm_nyc_la nyc_la_hLon) with sLon_nyc_la.
  change (math.Cos libm_nyc_la nyc_rad) with cos_nyc.
  change (math.Cos libm_nyc_la la_rad) with cos_la.
  change (math.Pow libm_nyc_la sLat_nyc_la 2)
    with (sLat_nyc_la * sLat_nyc_la)%float.
  change (math.Pow libm_nyc_la sLon_nyc_la 2)
    with (sLon_nyc_la * sLon_nyc_la)%float.
  split; [| split; [| split; [| split; [| split; [| split]]]]].
  - eapply (within_between _ _ _ _ _ (-58068455 # 1000000000)
              (-58068454 # 1000000000));
      [discriminate | vm_compute; reflexivity | exact sin_nyc_la_hLat | |];
      unfold Q2R; cbn [Qnum Qden]; lra.
  - eapply (within_between _ _ _ _ _ (757988637 # 1000000000)
              (757988638 # 1000000000));
      [discriminate | vm_compute; reflexivity | exact cos_nyc_rad | |];
      unfold Q2R; cbn [Qnum Qden]; lra.
  - eapply (within_between _ _ _ _ _ (828501381 # 1000000000)
              (828501382 # 1000000000));
      [discriminate | vm_compute; reflexivity | exact cos_la_rad | |];
      unfold Q2R; cbn [Qnum Qden]; lra.
  - eapply (within_between _ _ _ _ _ (-376520173 # 1000000000)
              (-376520172 # 1000000000));
      [discriminate | vm_compute; reflexivity | exact sin_nyc_la_hLon | |];
      unfold Q2R; cbn [Qnum Qden]; lra.
  - apply (within_square _ (-58068455 # 1000000000)
             (-58068454 # 1000000000));
      [discriminate | vm_compute; reflexivity | |];
      unfold Q2R; cbn [Qnum Qden]; lra.
  - apply (within_square _ (-376520173 # 1000000000)
             (-376520172 # 1000000000));
      [discriminate | vm_compute; reflexivity | |];
      unfold Q2R; cbn [Qnum Qden]; lra.
  - change (math.Atan2 libm_nyc_la (math.Sqrt a_nyc_la)
              (math.Sqrt (1 - a_nyc_la)%float)) with atan_nyc_la.
    pose proof (F2R_between (math.Sqrt a_nyc_la)
                  (303975553 # 1000000000) (303975554 # 1000000000)
                  ltac:(vm_compute; reflexivity)) as By.
    pose proof (F2R_between (math.Sqrt (1 - a_nyc_la)%float)
                  (952679832 # 1000000000) (952679833 # 1000000000)
                  ltac:(vm_compute; reflexivity)) as Bx.
    unfold Q2R in By, Bx. cbn [Qnum Qden] in By, Bx.
    set (y := F2R (math.Sqrt a_nyc_la)) in *.
    set (x := F2R (math.Sqrt (1 - a_nyc_la)%float)) in *.
    rewrite Ratan2_pos by lra.
    assert (Hrho : (0.319074197 <= y / x <= 0.319074199)%R).
    { apply (div_between _ _ 0.952679832 0.952679833
               0.303975553 0.303975554); lra. }
    pose proof (atan_enclosure (308862908 # 1000000000) (308862919 # 1000000000)
                  (319074197 # 1000000000) (319074199 # 1000000000) 3
                  (y / x)) as Hatan.
    unfold Q2R in Hatan. cbn [Qnum Qden] in Hatan.
    specialize (Hatan ltac:(q_le) ltac:(q_le) ltac:(q_le) ltac:(q_le)
                  ltac:(q_le) ltac:(q_lt) ltac:(q_le) ltac:(q_le) ltac:(lra)).
    eapply (within_between _ _ _ _ _ (308862913 # 1000000000)
              (308862914 # 1000000000));
      [discriminate | vm_compute; reflexivity | exact Hatan | |];
      unfold Q2R; cbn [Qnum Qden]; lra.
Qed.

(** ** The rounding error of a quotient *)

(** The integer core of a division: the quotient of the aligned
    mantissas, rounded down. *)
Lemma SFdiv_core_spec (mx my : positive) (ex ey : Z) :
  exists (q e' : Z) (l : location),
    SFdiv_core_binary prec emax (Z.pos mx) ex (Z.pos my) ey = (q, e', l)
    /\ (0 <= q)%Z /\ (e' <= ex - ey)%Z
    /\ (e' <= fexp prec emax
                (Zdigits2 (Z.pos mx) + ex - (Zdigits2 (Z.pos my) + ey)))%Z
    /\ (q * Z.pos my <= Z.pos mx * 2 ^ (ex - ey - e')
        < (q + 1) * Z.pos my)%Z.
Proof.
  unfold SFdiv_core_binary.
  set (d1 := Zdigits2 (Z.pos mx)). set (d2 := Zdigits2 (Z.pos my)).
  set (e' := Z.min (fexp prec emax (d1 + ex - (d2 + ey))) (ex - ey)).
  set (s := (ex - ey - e')%Z).
  assert (Hs : (0 <= s)%Z) by (unfold s, e'; lia).
  assert (Hm' : match s with
                | 0%Z => Z.pos mx
                | Z.pos _ => Z.shiftl (Z.pos mx) s
                | Z.neg _ => 0%Z
                end = (Z.pos mx * 2 ^ s)%Z).
  { destruct s as [| p | p] eqn:Es.
    - now rewrite Z.mul_1_r.
    - apply Z.shiftl_mul_pow2. lia.
    - lia. }
  rewrite Hm'. set (m' := (Z.pos mx * 2 ^ s)%Z).
  assert (Hm'pos : (0 <= m')%Z).
  { apply Z.mul_nonneg_nonneg; [lia|]. apply Z.pow_nonneg. lia. }
  assert (Hq : fst (Z.div_eucl m' (Z.pos my)) = (m' / Z.pos my)%Z)
    by reflexivity.
  destruct (Z.div_eucl m' (Z.pos my)) as [q r]. cbn [fst] in Hq. subst q.
  pose proof (Z.mul_div_le m' (Z.pos my) ltac:(lia)) as D1.
  pose proof (Z.mul_succ_div_gt m' (Z.pos my) ltac:(lia)) as D2.
  eexists (m' / Z.pos my)%Z, e', _. split; [reflexivity|].
  split; [apply Z.div_pos; lia|].
  split; [apply Z.le_min_r|]. split; [apply Z.le_min_l|].
  fold s. fold m'. lia.
Qed.

(** The quotient of a number below [2 ^ kx] by a number of magnitude
    [2 ^ (ky - 1)] at least: within five units of the last digit of a
    number below [2 ^ (kx - ky + 1)]. *)
Lemma SFdiv_err (x : spec_float) (sy : bool) (my : positive) (ey kx : Z) :
  mag_le kx x ->
  let ky := (Z.pos (digits2_pos my) + ey)%Z in
  (-1074 <= kx - ky + 1 <= 971)%Z ->
  mag_le (kx - ky + 2) (SF64div x (S754_finite sy my ey))
  /\ (Rabs (SF2R (SF64div x (S754_finite sy my ey))
            - SF2R x / SF2R (S754_finite sy my ey))
      <= 5 * powerRZ 2 (ulp_exp (kx - ky + 1)))%R.
Proof.
  intros Hx ky Hk. set (k := (kx - ky + 1)%Z) in *.
  pose proof (powerRZ_2_pos (ulp_exp k)) as HU.
  assert (Hy0 : SF2R (S754_finite sy my ey) <> 0%R).
  { cbn [SF2R]. rewrite IZR_cond_Zopp. pose proof (powerRZ_2_pos ey).
    assert (0 < IZR (Z.pos my))%R by (apply IZR_lt; lia).
    destruct sy; nra. }
  destruct x as [sx | sx | | sx mx ex]; cbn [SF64div SFdiv mag_le] in *;
    try tauto.
  - split; [exact I|]. apply Rabs_zero_le; [| lra].
    cbn [SF2R]. unfold Rdiv. ring.
  - destruct (SFdiv_core_spec mx my ex ey)
      as (q & e' & l & -> & Hq & Hs & Hf & Hdiv).
    set (s := (ex - ey - e')%Z) in *.
    assert (Hs0 : (0 <= s)%Z) by (unfold s; lia).
    set (d1 := Z.pos (digits2_pos mx)) in *.
    set (d2 := Z.pos (digits2_pos my)) in *.
    assert (H2s : (0 < 2 ^ s)%Z) by (apply Z.pow_pos_nonneg; lia).
    (* the digits of the quotient *)
    assert (Hdq : (Zdigits2 q + e' <= k)%Z).
    { pose proof (Zdigits2_gt (Z.pos mx) ltac:(lia)) as Hgx.
      cbn [Zdigits2] in Hgx. fold d1 in Hgx.
      pose proof (digits2_bounds my) as Hby. fold d2 in Hby.
      assert (Hd2 : (1 <= d2)%Z) by (unfold d2; lia).
      destruct (Z_le_gt_dec d2 (d1 + s + 1)) as [Hle | Hgt].
      - assert (Hlt : (q < 2 ^ (d1 + s - d2 + 1))%Z).
        { destruct (Z_lt_le_dec q (2 ^ (d1 + s - d2 + 1))) as [H | H];
            [exact H | exfalso].
          assert (Hp : (2 ^ (d1 + s - d2 + 1) * 2 ^ (d2 - 1)
                        = 2 ^ d1 * 2 ^ s)%Z).
          { rewrite <- !Z.pow_add_r by lia. f_equal. lia. }
          assert (Hmy : (2 ^ (d2 - 1) <= Z.pos my)%Z) by lia.
          assert (0 < 2 ^ (d2 - 1))%Z by (apply Z.pow_pos_nonneg; lia).
          assert (0 < 2 ^ (d1 + s - d2 + 1))%Z
            by (apply Z.pow_pos_nonneg; lia).
          assert (Hqm : (2 ^ (d1 + s - d2 + 1) * 2 ^ (d2 - 1)
                         <= q * Z.pos my)%Z)
            by (apply Z.mul_le_mono_nonneg; lia).
          assert (Z.pos mx * 2 ^ s < 2 ^ d1 * 2 ^ s)%Z
            by (apply Z.mul_lt_mono_pos_r; lia).
          lia. }
        pose proof (Zdigits2_lt_pow q (d1 + s - d2 + 1) ltac:(lia)
                      ltac:(lia)) as Hd.
        unfold k, ky, s in *. fold d2. lia.
      - (* the divisor has more digits than the dividend: q = 0 *)
        assert (Hq0 : q = 0%Z).
        { assert (Hmy : (2 ^ (d2 - 1) <= Z.pos my)%Z) by lia.
          assert (Hpow : (2 ^ d1 * 2 ^ s <= 2 ^ (d2 - 1))%Z).
          { rewrite <- Z.pow_add_r by lia. apply Z.pow_le_mono_r; lia. }
          assert (Z.pos mx * 2 ^ s < 2 ^ d1 * 2 ^ s)%Z
            by (apply Z.mul_lt_mono_pos_r; lia).
          destruct (Z.eq_dec q 0) as [E | E]; [exact E | exfalso].
          assert (1 * Z.pos my <= q * Z.pos my)%Z
            by (apply Z.mul_le_mono_nonneg_r; lia).
          lia. }
        subst q. cbn [Zdigits2] in *. rewrite fexp64 in Hf.
        fold d1 d2 in Hf. unfold k, ky in *. fold d2 in Hk |- *. lia. }
    assert (Hulp : (e' <= ulp_exp k)%Z).
    { rewrite fexp64 in Hf. cbn [Zdigits2] in Hf. fold d1 d2 in Hf.
      unfold ulp_exp, k, ky. fold d2. lia. }
    split.
    + replace (kx - ky + 2)%Z with (k + 1)%Z by (unfold k; ring).
      apply binary_round_aux_mag; [exact Hq | exact Hdq | exact Hk].
    + pose proof (binary_round_aux_err (xorb sx sy) q e' l k Hq Hdq Hk
                    (or_intror Hulp)) as Herr.
      set (res := SF2R (binary_round_aux prec emax (xorb sx sy) q e' l)) in *.
      pose proof (powerRZ_2_pos e') as Hw.
      pose proof (powerRZ_2_le _ _ Hulp) as Hwu.
      set (w := powerRZ 2 e') in *.
      assert (Hmy : (0 < IZR (Z.pos my))%R) by (apply IZR_lt; lia).
      set (rho := (IZR (Z.pos mx * 2 ^ s) / IZR (Z.pos my))%R).
      assert (Hrho : (IZR q <= rho < IZR q + 1)%R).
      { destruct Hdiv as [D1 D2]. apply IZR_le in D1. apply IZR_lt in D2.
        rewrite (mult_IZR q) in D1. rewrite (mult_IZR (q + 1)), plus_IZR in D2.
        unfold rho. split.
        - apply (Rmult_le_reg_r (IZR (Z.pos my))); [exact Hmy|].
          unfold Rdiv. rewrite Rmult_assoc, Rinv_l, Rmult_1_r by lra.
          exact D1.
        - apply (Rmult_lt_reg_r (IZR (Z.pos my))); [exact Hmy|].
          unfold Rdiv. rewrite Rmult_assoc, Rinv_l, Rmult_1_r by lra.
          exact D2. }
      assert (Hexact : (SF2R (S754_finite sx mx ex)
                        / SF2R (S754_finite sy my ey)
                        = (if xorb sx sy then - (rho * w) else rho * w))%R).
      { cbn [SF2R]. rewrite !IZR_cond_Zopp. unfold rho.
        rewrite mult_IZR, <- (powerRZ_2_IZR s) by lia.
        assert (Hp : powerRZ 2 ex
                     = (powerRZ 2 s * powerRZ 2 ey * w)%R).
        { unfold w. rewrite <- !powerRZ_2_add. f_equal. unfold s. lia. }
        rewrite Hp. pose proof (powerRZ_2_pos ey). pose proof (powerRZ_2_pos s).
        destruct sx, sy; cbn [xorb]; field; lra. }
      rewrite Hexact. rewrite IZR_cond_Zopp in Herr.
      assert (Hrw : (IZR q * w <= rho * w <= IZR q * w + w)%R) by nra.
      revert Herr. destruct (xorb sx sy); unfold Rabs;
        repeat destruct Rcase_abs; lra.
Qed.

(** ** The constant [math.Pi] and the real number [PI] *)

Lemma Q2R_atan_term (x : Q) (i : nat) :
  Q2R (atan_termQ x i) = tg_alt (Ratan_seq (Q2R x)) i.
Proof.
  unfold atan_termQ, tg_alt, Ratan_seq.
  rewrite Q2R_mult, Q2R_div.
  - now rewrite !Q2R_Qpow, Q2R_minus_one, Q2R_inject_Z, <- INR_IZR_INZ.
  - intros H. apply Qeq_eqR in H.
    rewrite Q2R_inject_Z, RMicromega.Q2R_0 in H.
    apply eq_IZR in H. lia.
Qed.

(** The arc tangent of a rational of [(0, 1)] lies between two consecutive
    partial sums of its alternating series. *)
Lemma atan_series_enclosure (x : Q) (n : nat) :
  (0 < x)%Q -> (x < 1)%Q ->
  (Q2R (atan_approxQ x (S (2 * n))) <= atan (Q2R x)
   <= Q2R (atan_approxQ x (2 * n)))%R.
Proof.
  intros H0 H1. apply Qlt_Rlt in H0, H1.
  rewrite RMicromega.Q2R_0 in H0. rewrite RMicromega.Q2R_1 in H1.
  unfold atan_approxQ.
  rewrite !(Q2R_Qsum _ (tg_alt (Ratan_seq (Q2R x))))
    by apply Q2R_atan_term.
  rewrite atan_eq_ps_atan by lra. unfold ps_atan.
  destruct (Ratan.in_int (Q2R x)) as [h | h]; [| exfalso; apply h; lra].
  destruct (ps_atan_exists_1 _ h) as [v Hv].
  apply alternated_series_ineq.
  - apply Ratan_seq_decreasing. lra.
  - apply Ratan_seq_converging. lra.
  - exact Hv.
Qed.

(** [PI] through Machin's formula
    [PI / 4 = 4 * atan (/ 5) - atan (/ 239)]. *)
Lemma atan_fifth :
  (0.1973955598498807583 <= atan (/ 5) <= 0.1973955598498807584)%R.
Proof.
  pose proof (atan_series_enclosure (1 # 5) 7 eq_refl eq_refl) as H.
  apply (enclose _ _ _ (1973955598498807583 # 10000000000000000000)
           (1973955598498807584 # 10000000000000000000)) in H;
    [| vm_compute; reflexivity | vm_compute; reflexivity].
  unfold Q2R in H. cbn [Qnum Qden] in H.
  replace (1 * / 5)%R with (/ 5)%R in H by lra. lra.
Qed.

Lemma atan_239th :
  (0.0041840760020747238 <= atan (/ 239) <= 0.0041840760020747239)%R.
Proof.
  pose proof (atan_series_enclosure (1 # 239) 2 eq_refl eq_refl) as H.
  apply (enclose _ _ _ (41840760020747238 # 10000000000000000000)
           (41840760020747239 # 10000000000000000000)) in H;
    [| vm_compute; reflexivity | vm_compute; reflexivity].
  unfold Q2R in H. cbn [Qnum Qden] in H.
  replace (1 * / 239)%R with (/ 239)%R in H by lra. lra.
Qed.

Lemma PI_enclosure :
  (3.14159265358979323 <= PI <= 3.14159265358979324)%R.
Proof.
  pose proof Machin_4_5_239 as M. pose proof atan_fifth as A.
  pose proof atan_239th as B. lra.
Qed.

(** [math.Pi] is a little below [PI]. *)
Lemma Pi_below_PI : (1.2e-16 <= PI - F2R math.Pi <= 1.3e-16)%R.
Proof.
  pose proof Machin_4_5_239 as M. pose proof atan_fifth as A.
  pose proof atan_239th as A'.
  pose proof (F2R_between math.Pi
                (31415926535897931159979 # 10000000000000000000000)
                (31415926535897931159980 # 10000000000000000000000)
                ltac:(vm_compute; reflexivity)) as B.
  unfold Q2R in B. cbn [Qnum Qden] in B. lra.
Qed.

(** ** Rounding errors of products and quotients of floats *)

Lemma InRange_RRange (lo hi : Q) (x : float) :
  InRange lo hi x -> RRange (Q2R lo) (Q2R hi) x.
Proof.
  intros (q & Hq & H1 & H2). split; [congruence|].
  unfold F2R, value. rewrite Hq. split; now apply Qle_Rle.
Qed.

Lemma powerRZ_2_neg (n : Z) :
  (0 <= n)%Z -> powerRZ 2 (- n) = (/ IZR (2 ^ n))%R.
Proof. intros H. now rewrite powerRZ_neg', powerRZ_2_IZR. Qed.

Lemma mul_err (x y : float) (kx ky : Z) :
  mag_le kx (Prim2SF x) -> mag_le ky (Prim2SF y) ->
  (-1074 <= kx + ky <= 971)%Z ->
  F2Q (x * y)%float <> None
  /\ (Rabs (F2R (x * y)%float - F2R x * F2R y)
      <= 4 * powerRZ 2 (ulp_exp (kx + ky)))%R.
Proof.
  intros Hx Hy Hk. split.
  - apply (mag_F2Q (kx + ky + 1)). rewrite mul_spec.
    apply SFmul_mag; [exact Hx | exact Hy | lia].
  - rewrite !F2R_SF2R, mul_spec. now apply SFmul_err.
Qed.

Lemma div_err (x y : float) (sy : bool) (my : positive) (ey kx : Z) :
  Prim2SF y = S754_finite sy my ey -> mag_le kx (Prim2SF x) ->
  let ky := (Z.pos (digits2_pos my) + ey)%Z in
  (-1074 <= kx - ky + 1 <= 971)%Z ->
  F2Q (x / y)%float <> None
  /\ (Rabs (F2R (x / y)%float - F2R x / F2R y)
      <= 5 * powerRZ 2 (ulp_exp (kx - ky + 1)))%R.
Proof.
  intros Ey Hx ky Hk.
  destruct (SFdiv_err (Prim2SF x) sy my ey kx Hx Hk) as [Hm He].
  split.
  - apply (mag_F2Q (kx - ky + 2)). rewrite div_spec, Ey. exact Hm.
  - rewrite !F2R_SF2R, div_spec, Ey. exact He.
Qed.

Lemma F2R_180 : F2R 180 = 180%R.
Proof.
  rewrite (F2R_const 180 180) by reflexivity.
  unfold Q2R. cbn [Qnum Qden]. lra.
Qed.

(** ** The accuracy of [degToRad] *)

(** [degToRad] of a number below 512 in absolute value is within
    [2e-14] of the real number of radians. *)
Lemma degToRad_error (deg : float) :
  F2Q deg <> None -> (Rabs (F2R deg) <= 511)%R ->
  F2Q (degToRad deg) <> None
  /\ (Rabs (F2R (degToRad deg) - F2R deg * PI / 180) <= 2e-14)%R.
Proof.
  intros Hn Hb. unfold degToRad.
  pose proof Pi_below_PI as HPi. pose proof PI_enclosure as HPI.
  assert (Md : mag_le 9 (Prim2SF deg))
    by (apply (bound_mag deg 511 9); [exact Hn | exact Hb | lia | lia]).
  assert (Mp : mag_le 2 (Prim2SF math.Pi)) by (cbn; lia).
  destruct (mul_err deg math.Pi 9 2 Md Mp ltac:(lia)) as [Nt Et].
  change (ulp_exp (9 + 2)) with (- (42))%Z in Et.
  rewrite powerRZ_2_neg in Et by lia.
  change (2 ^ 42)%Z with 4398046511104%Z in Et.
  set (t := (deg * math.Pi)%float) in *.
  set (d := F2R deg) in *. set (p := F2R math.Pi) in *.
  assert (Bd : (-511 <= d <= 511)%R)
    by (revert Hb; unfold Rabs; destruct Rcase_abs; lra).
  assert (Bdp : (-1606 <= d * p <= 1606)%R) by nra.
  assert (Bt : (Rabs (F2R t) <= 1607)%R).
  { revert Et. unfold Rabs. repeat destruct Rcase_abs; lra. }
  assert (Mt : mag_le 11 (Prim2SF t))
    by (apply (bound_mag t 1607 11); [exact Nt | exact Bt | lia | lia]).
  destruct (div_err t 180 false 6333186975989760 (-45) 11 eq_refl Mt
              ltac:(cbn; lia)) as [Nq Eq].
  change (ulp_exp _) with (- (49))%Z in Eq.
  rewrite powerRZ_2_neg in Eq by lia.
  change (2 ^ 49)%Z with 562949953421312%Z in Eq.
  rewrite F2R_180 in Eq.
  split; [exact Nq|].
  set (q := F2R (t / 180)%float) in *. set (u := F2R t) in *.
  assert (Edp : (Rabs (d * p - d * PI) <= 511 * 1.3e-16)%R).
  { replace (d * p - d * PI)%R with (d * (p - PI))%R by ring.
    rewrite Rabs_mult.
    apply Rmult_le_compat; try apply Rabs_pos; [exact Hb|].
    unfold Rabs. destruct Rcase_abs; lra. }
  replace (d * PI / 180)%R with (d * PI * / 180)%R by (unfold Rdiv; ring).
  unfold Rdiv in Eq.
  revert Eq Et Edp. unfold Rabs. repeat destruct Rcase_abs; lra.
Qed.

(** ** The arguments of the sine and of the cosine, in radians *)

Lemma RRange_sym_InRange (b : Q) (x : float) :
  RRange (- Q2R b) (Q2R b) x -> InRange (- b) b x.
Proof.
  intros H. apply RRange_InRange. now rewrite Q2R_opp.
Qed.

(** The radians of a number of at most [b <= 361] degrees, halved or
    not. *)
Lemma radians_range (deg : float) (b c : R) :
  F2Q deg <> None -> (0 <= b <= 361)%R -> (Rabs (F2R deg) <= b)%R ->
  (b * 0.01745329252 + 1e-13 <= c)%R ->
  RRange (- c) c (degToRad deg)
  /\ RRange (- (c / 2)) (c / 2) (degToRad deg / 2)%float.
Proof.
  intros Hn Hb Hd Hc.
  destruct (degToRad_error deg Hn ltac:(lra)) as [Nr Er].
  pose proof PI_enclosure as HPI.
  set (r := degToRad deg) in *. set (d := F2R deg) in *.
  assert (Bd : (- b <= d <= b)%R)
    by (revert Hd; unfold Rabs; destruct Rcase_abs; lra).
  assert (Bp : (- (b * 3.1415926536) <= d * PI <= b * 3.1415926536)%R)
    by nra.
  assert (Br : (- (b * 0.01745329252) - 2e-14 <= F2R r
                <= b * 0.01745329252 + 2e-14)%R).
  { revert Er. unfold Rdiv, Rabs. destruct Rcase_abs; lra. }
  assert (Mr : mag_le 3 (Prim2SF r)).
  { apply (bound_mag r 7 3); [exact Nr | | lia | lia].
    unfold Rabs. destruct Rcase_abs; lra. }
  destruct (div_err r 2 false 4503599627370496 (-51) 3 eq_refl Mr
              ltac:(cbn; lia)) as [Nh Eh].
  change (ulp_exp _) with (- (51))%Z in Eh.
  rewrite powerRZ_2_neg in Eh by lia.
  change (2 ^ 51)%Z with 2251799813685248%Z in Eh.
  rewrite F2R_2 in Eh. unfold Rdiv in Eh.
  split; (split; [assumption|]).
  - lra.
  - revert Eh. unfold Rdiv, Rabs. destruct Rcase_abs; lra.
Qed.

Lemma difference_bound (x y : float) (b : R) :
  mag_le 8 (Prim2SF x) -> mag_le 8 (Prim2SF y) ->
  (Rabs (F2R x) <= b)%R -> (Rabs (F2R y) <= b)%R ->
  F2Q (y - x)%float <> None /\ (Rabs (F2R (y - x)%float) <= 2 * b + 1e-11)%R.
Proof.
  intros Mx My Bx By.
  destruct (sub_close y x 8 My Mx ltac:(lia)) as [Nd Ed].
  split; [exact Nd|]. unfold eps in Ed.
  revert Ed Bx By. unfold Rabs. repeat destruct Rcase_abs; lra.
Qed.

Lemma ValidLat_Rabs (lat : float) :
  ValidLat lat -> F2Q lat <> None /\ (Rabs (F2R lat) <= 90)%R.
Proof.
  intros H. apply InRange_RRange in H. destruct H as [Hn H].
  split; [exact Hn|]. unfold Q2R in H. cbn [Qnum Qden] in H.
  unfold Rabs. destruct Rcase_abs; lra.
Qed.

Lemma ValidLon_Rabs (lon : float) :
  ValidLon lon -> F2Q lon <> None /\ (Rabs (F2R lon) <= 180)%R.
Proof.
  intros H. apply InRange_RRange in H. destruct H as [Hn H].
  split; [exact Hn|]. unfold Q2R in H. cbn [Qnum Qden] in H.
  unfold Rabs. destruct Rcase_abs; lra.
Qed.

Lemma to_InRange (b : Q) (c : R) (x : float) :
  RRange (- c) c x -> (c <= Q2R b)%R -> InRange (- b) b x.
Proof.
  intros H Hc. apply RRange_sym_InRange.
  apply (RRange_weaken _ _ _ _ _ H); lra.
Qed.

(** The radians of a valid latitude lie in [[-1.5708, 1.5708]]. *)
Lemma radians_lat_range (lat : float) :
  ValidLat lat -> InRange (- (15708 # 10000)) (15708 # 10000) (degToRad lat).
Proof.
  intros V. destruct (ValidLat_Rabs lat V) as [Hn Hb].
  destruct (radians_range lat 90 1.5708 Hn ltac:(lra) Hb ltac:(lra))
    as [H _].
  apply (to_InRange _ _ _ H). unfold Q2R. cbn [Qnum Qden]. lra.
Qed.

(** Half the radians of the difference of two valid latitudes lie in
    [[-1.5708, 1.5708]], of two valid longitudes in [[-3.1416, 3.1416]]. *)
Lemma half_dLat_range (lat1 lat2 : float) :
  ValidLat lat1 -> ValidLat lat2 ->
  InRange (- (15708 # 10000)) (15708 # 10000)
    (degToRad (lat2 - lat1) / 2)%float.
Proof.
  intros V1 V2.
  destruct (ValidLat_Rabs lat1 V1) as [_ B1].
  destruct (ValidLat_Rabs lat2 V2) as [_ B2].
  destruct (difference_bound lat1 lat2 90 (ValidLat_mag _ V1)
              (ValidLat_mag _ V2) B1 B2) as [Nd Bd].
  destruct (radians_range _ (2 * 90 + 1e-11) 3.1416 Nd ltac:(lra) Bd
              ltac:(lra)) as [_ H].
  apply (to_InRange _ _ _ H). unfold Q2R. cbn [Qnum Qden]. lra.
Qed.

Lemma half_dLon_range (lon1 lon2 : float) :
  ValidLon lon1 -> ValidLon lon2 ->
  InRange (- (31416 # 10000)) (31416 # 10000)
    (degToRad (lon2 - lon1) / 2)%float.
Proof.
  intros V1 V2.
  destruct (ValidLon_Rabs lon1 V1) as [_ B1].
  destruct (ValidLon_Rabs lon2 V2) as [_ B2].
  destruct (difference_bound lon1 lon2 180 (ValidLon_mag _ V1)
              (ValidLon_mag _ V2) B1 B2) as [Nd Bd].
  destruct (radians_range _ (2 * 180 + 1e-11) 6.2832 Nd ltac:(lra) Bd
              ltac:(lra)) as [_ H].
  apply (to_InRange _ _ _ H). unfold Q2R. cbn [Qnum Qden]. lra.
Qed.

Lemma InRange_weaken (lo hi lo' hi' : Q) (x : float) :
  InRange lo hi x -> (lo' <= lo)%Q -> (hi <= hi')%Q -> InRange lo' hi' x.
Proof.
  intros (q & Hq & H1 & H2) Hlo Hhi. exists q. split; [exact Hq|].
  split; eapply Qle_trans; eauto.
Qed.

Lemma libm0_libm2_agree : agree_on_domain libm0 libm2.
Proof.
  repeat split; intros x H; cbn [math.Sin math.Cos libm0 libm2];
    apply InRange_in_range in H; now rewrite H.
Qed.

(** ** Signs: what is not below zero *)

Lemma SFpos0_nonneg (x : spec_float) : SFpos0 x -> SFnonneg x.
Proof. destruct x; cbn; auto. Qed.

Lemma leb0_nonneg (y : float) :
  (0 <=? y)%float = true <-> SFnonneg (Prim2SF y).
Proof.
  rewrite leb_spec. change (Prim2SF 0) with (S754_zero false).
  destruct (Prim2SF y) as [s | [] | | [] m e]; cbn; split;
    intros H; try discriminate; try reflexivity; try contradiction; auto.
Qed.

Lemma pos0_cases (x : float) :
  SFpos0 (Prim2SF x) -> x = 0%float \/ (0 <? x)%float = true.
Proof.
  rewrite ltb_spec. change (Prim2SF 0) with (S754_zero false).
  destruct (Prim2SF x) as [s | s | | s m e] eqn:E; cbn; intros H;
    try contradiction; subst s.
  - left. apply Prim2SF_inj. now rewrite E.
  - right. reflexivity.
  - right. reflexivity.
Qed.

Lemma SF2R_nonneg (x : spec_float) : SFnonneg x -> (0 <= SF2R x)%R.
Proof.
  destruct x as [s | s | | s m e]; cbn [SFnonneg SF2R]; intros H; try lra.
  subst s. cbn [cond_Zopp]. pose proof (powerRZ_2_pos e).
  assert (0 < IZR (Z.pos m))%R by (apply IZR_lt; lia). nra.
Qed.

(** A rounding that gives a number gives one of its sign. *)
Lemma round_aux_pos0 (m e : Z) (l : location) (k : Z) :
  mag_le k (binary_round_aux prec emax false m e l) ->
  SFpos0 (binary_round_aux prec emax false m e l).
Proof.
  pose proof (binary_round_aux_sign false m e l) as Hs.
  destruct (binary_round_aux prec emax false m e l); cbn in *; auto.
Qed.

Lemma binary_round_pos0 (m : positive) (e k : Z) :
  mag_le k (binary_round prec emax false m e) ->
  SFpos0 (binary_round prec emax false m e).
Proof.
  unfold binary_round. destruct (shl_align m e _) as [mz ez].
  apply round_aux_pos0.
Qed.

(** The product of two numbers that are not below zero. *)
Lemma SFmul_nonneg (x y : spec_float) (k : Z) :
  SFnonneg x -> SFnonneg y -> mag_le k (SF64mul x y) ->
  SFnonneg (SF64mul x y).
Proof.
  destruct x as [sx | sx | | sx mx ex], y as [sy | sy | | sy my ey];
    cbn [SF64mul SFmul SFnonneg mag_le]; try tauto.
  intros -> -> H. cbn [xorb] in *.
  apply SFpos0_nonneg. exact (round_aux_pos0 _ _ _ _ H).
Qed.

(** The square root of a number that is not below zero. *)
Lemma SFsqrt_nonneg (x : spec_float) (k : Z) :
  SFnonneg x -> mag_le k (SF64sqrt x) -> SFnonneg (SF64sqrt x).
Proof.
  destruct x as [sx | sx | | sx mx ex];
    cbn [SF64sqrt SFsqrt SFnonneg mag_le]; try tauto.
  - intros -> H. contradiction.
  - intros -> H.
    destruct (SFsqrt_core_binary prec emax (Z.pos mx) ex) as [[mz ez] lz].
    apply SFpos0_nonneg. exact (round_aux_pos0 _ _ _ _ H).
Qed.

Lemma SFsqrt_pos0 (x : spec_float) (k : Z) :
  SFpos0 x -> mag_le k (SF64sqrt x) -> SFpos0 (SF64sqrt x).
Proof.
  destruct x as [sx | sx | | sx mx ex];
    cbn [SF64sqrt SFsqrt SFpos0 mag_le]; try tauto.
  - intros -> H. contradiction.
  - intros -> H.
    destruct (SFsqrt_core_binary prec emax (Z.pos mx) ex) as [[mz ez] lz].
    exact (round_aux_pos0 _ _ _ _ H).
Qed.

(** The difference of a positive number and of a number that is not above
    it is [+0] or above zero. *)
Lemma SFsub_pos0 (mx : positive) (ex : Z) (y : spec_float) (k : Z) :
  mag_le k (S754_finite false mx ex) -> mag_le k y ->
  (-1074 <= k + 1 <= 971)%Z ->
  (SF2R y <= SF2R (S754_finite false mx ex))%R ->
  SFpos0 (SF64sub (S754_finite false mx ex) y).
Proof.
  intros Hx Hy Hk Hle.
  pose proof (SFsub_mag _ _ k Hx Hy Hk) as Hm. revert Hm.
  destruct y as [sy | sy | | sy my ey]; cbn [SF64sub SFsub mag_le] in *;
    try tauto.
  - intros _. reflexivity.
  - destruct (aligned mx my ex ey k Hx Hy)
      as (a & b & -> & -> & Ha & Hb & Hkez & Ea & Eb).
    set (ez := Z.min ex ey) in *.
    assert (Hd : (0 <= cond_Zopp false a - cond_Zopp sy b)%Z).
    { cbn [SF2R] in Hle. rewrite !IZR_cond_Zopp in Hle.
      pose proof (powerRZ_2_pos ez) as Hp.
      assert (H : (0 <= IZR (cond_Zopp false a - cond_Zopp sy b))%R).
      { rewrite minus_IZR, !IZR_cond_Zopp.
        apply (Rmult_le_reg_r (powerRZ 2 ez)); [exact Hp|].
        destruct sy; lra. }
      apply le_IZR. exact H. }
    destruct (cond_Zopp false a - cond_Zopp sy b)%Z as [| p | p];
      cbn [binary_normalize]; try lia.
    + intros _. reflexivity.
    + apply binary_round_pos0.
Qed.

(** ** The distance, in range or a NaN *)

Lemma Haversine_var_a (libm : math.MathLib) (lat1 lon1 lat2 lon2 : float) :
  ValidLat lat1 -> ValidLon lon1 -> ValidLat lat2 -> ValidLon lon2 ->
  Haversine libm lat1 lon1 lat2 lon2
  = ((earthRadius
      * (2 * math.Atan2 libm
               (math.Sqrt (var_a libm lat1 lon1 lat2 lon2))
               (math.Sqrt (1 - var_a libm lat1 lon1 lat2 lon2))))%float,
     None).
Proof. intros V1 V2 V3 V4. now rewrite Haversine_accepts. Qed.

Lemma SF2R_one : SF2R (Prim2SF 1) = 1%R.
Proof. rewrite <- F2R_SF2R. apply F2R_1. Qed.

(** A number of [[0, 1]]. *)
Lemma in_range_01 (a : float) :
  in_range 0 1 a = true ->
  F2Q a <> None /\ (0 <= F2R a <= 1)%R /\ SFnonneg (Prim2SF a)
  /\ mag_le 1 (Prim2SF a).
Proof.
  intros H. apply InRange_in_range, InRange_RRange in H.
  rewrite RMicromega.Q2R_0, RMicromega.Q2R_1 in H. destruct H as [Hn Hr].
  assert (Hm : mag_le 1 (Prim2SF a)).
  { apply (bound_mag a 1 1); [exact Hn | | lia | lia].
    rewrite Rabs_pos_eq; lra. }
  repeat split; try assumption; try lra.
  rewrite F2R_SF2R in Hr. unfold F2Q in Hn.
  destruct (Prim2SF a) as [s | s | | [] m e]; cbn in *; auto;
    try congruence.
  pose proof (powerRZ_2_pos e) as Hp.
  assert (IZR (Z.neg m) <= -1)%R by (apply IZR_le; lia). nra.
Qed.

(** With [a] in [[0, 1]], the two arguments of [math.Atan2] are a number
    that is not below zero and a number that is [+0] or above zero. *)
Lemma atan2_arguments (a : float) :
  in_range 0 1 a = true ->
  (0 <=? math.Sqrt a)%float = true
  /\ (math.Sqrt (1 - a) = 0 \/ (0 <? math.Sqrt (1 - a)) = true)%float.
Proof.
  intros H. destruct (in_range_01 a H) as (Hn & Hr & Hs & Hm).
  unfold math.Sqrt. split.
  - apply leb0_nonneg. rewrite sqrt_spec.
    destruct (SFsqrt_err (Prim2SF a) 1 Hm) as [Hmag _];
      [destruct (Prim2SF a) as [| | | []]; cbn in *; auto; discriminate
      | cbn; lia |].
    exact (SFsqrt_nonneg _ _ Hs Hmag).
  - apply pos0_cases. rewrite sqrt_spec, sub_spec.
    change (Prim2SF 1) with (S754_finite false 4503599627370496 (-52)).
    assert (M1 : mag_le 1 (S754_finite false 4503599627370496 (-52)))
      by (cbn; lia).
    assert (Hu : SFpos0 (SF64sub (S754_finite false 4503599627370496 (-52))
                           (Prim2SF a))).
    { apply (SFsub_pos0 _ _ _ 1 M1 Hm); [lia|].
      change (S754_finite false 4503599627370496 (-52)) with (Prim2SF 1).
      rewrite SF2R_one, <- F2R_SF2R. lra. }
    pose proof (SFsub_mag _ _ 1 M1 Hm ltac:(lia)) as Mu.
    destruct (SFsqrt_err _ 3 Mu) as [Hmag _];
      [destruct (SF64sub _ _) as [| | | []]; cbn in *; auto; discriminate
      | cbn; lia |].
    exact (SFsqrt_pos0 _ _ Hu Hmag).
Qed.

(** Twice a number [r] of [[0, math.Pi / 2]], times the radius. *)
Lemma distance_of_angle (r : float) :
  (0 <=? r)%float = true -> (r <=? math.Pi / 2)%float = true ->
  InRange 0 (2001509 # 100) (earthRadius * (2 * r))%float.
Proof.
  intros H0 H1.
  assert (Hr : InRange 0 (value (math.Pi / 2)%float) r).
  { apply (between_InRange 0 (math.Pi / 2) r); [reflexivity | reflexivity|].
    now rewrite H0, H1. }
  apply InRange_RRange in Hr. destruct Hr as [Nr Br].
  rewrite RMicromega.Q2R_0 in Br.
  assert (Bp : (Q2R (value (math.Pi / 2)%float) <= 1.5707963267948967)%R).
  { pose proof (F2R_between (math.Pi / 2)%float 0
                  (15707963267948967 # 10000000000000000)
                  ltac:(vm_compute; reflexivity)) as [_ B].
    unfold Q2R in B. cbn [Qnum Qden] in B. exact B. }
  apply leb0_nonneg in H0.
  assert (Mr : mag_le 2 (Prim2SF r)).
  { apply (bound_mag r 2 2); [exact Nr | | lia | lia].
    rewrite Rabs_pos_eq; lra. }
  assert (M2 : mag_le 2 (Prim2SF 2)) by (cbn; lia).
  destruct (mul_err 2 r 2 2 M2 Mr ltac:(lia)) as [Nc Ec].
  change (ulp_exp (2 + 2)) with (- (49))%Z in Ec.
  rewrite powerRZ_2_neg in Ec by lia.
  change (2 ^ 49)%Z with 562949953421312%Z in Ec. rewrite F2R_2 in Ec.
  assert (Sc : SFnonneg (Prim2SF (2 * r)%float)).
  { rewrite mul_spec. apply (SFmul_nonneg _ _ (2 + 2 + 1)).
    - reflexivity.
    - exact H0.
    - apply SFmul_mag; [exact M2 | exact Mr | lia]. }
  set (c := (2 * r)%float) in *.
  assert (Bc : (0 <= F2R c <= 3.14159265358981)%R).
  { split; [rewrite F2R_SF2R; now apply SF2R_nonneg|].
    revert Ec. unfold Rabs. destruct Rcase_abs; lra. }
  assert (Mc : mag_le 3 (Prim2SF c)).
  { apply (bound_mag c 4 3); [exact Nc | | lia | lia].
    rewrite Rabs_pos_eq; lra. }
  assert (Me : mag_le 13 (Prim2SF earthRadius)) by (cbn; lia).
  destruct (mul_err earthRadius c 13 3 Me Mc ltac:(lia)) as [Nd Ed].
  change (ulp_exp (13 + 3)) with (- (37))%Z in Ed.
  rewrite powerRZ_2_neg in Ed by lia.
  change (2 ^ 37)%Z with 137438953472%Z in Ed.
  rewrite F2R_earthRadius in Ed.
  assert (Sd : SFnonneg (Prim2SF (earthRadius * c)%float)).
  { rewrite mul_spec. apply (SFmul_nonneg _ _ (13 + 3 + 1)).
    - reflexivity.
    - exact Sc.
    - apply SFmul_mag; [exact Me | exact Mc | lia]. }
  apply RRange_InRange. split; [exact Nd|].
  rewrite RMicromega.Q2R_0. unfold Q2R. cbn [Qnum Qden].
  split; [rewrite F2R_SF2R; now apply SF2R_nonneg|].
  revert Ed. unfold Rabs. destruct Rcase_abs; lra.
Qed.

(** The strict comparison of Go with 1, on a positive number that is not
    of [[0, 1]]. *)
Lemma above_one (a : float) (m : positive) (e : Z) :
  Prim2SF a = S754_finite false m e -> in_range 0 1 a = false ->
  (1 <? a)%float = true.
Proof.
  intros E H. rewrite ltb_spec. unfold SFltb.
  pose proof (Prim2SF_valid a) as Va. pose proof (Prim2SF_valid 1) as V1.
  rewrite (compare_units _ _ V1 Va) by (rewrite ?E; reflexivity).
  unfold in_range, F2Q in H. rewrite E in H. cbn [SF2Q] in H.
  set (q := (inject_Z (cond_Zopp false (Z.pos m)) * 2 ^ e)%Q) in *.
  assert (Hq : SF2Q (Prim2SF a) = Some q) by (rewrite E; reflexivity).
  assert (H0 : Qle_bool 0 q = true).
  { apply Qle_bool_iff.
    apply (Qle_units (Prim2SF 0) (Prim2SF a) 0 q);
      [reflexivity | exact Va | reflexivity | exact Hq |].
    rewrite E. cbn [units cond_Zopp]. change (units (Prim2SF 0)) with 0%Z.
    apply Z.mul_nonneg_nonneg; [lia|]. apply Z.pow_nonneg. lia. }
  rewrite H0 in H. cbn [andb] in H.
  assert (Hgt : (units (Prim2SF 1) < units (Prim2SF a))%Z).
  { destruct (Z_lt_le_dec (units (Prim2SF 1)) (units (Prim2SF a)))
      as [Hlt | Hle]; [exact Hlt | exfalso].
    assert (E1 : SF2Q (Prim2SF 1) = Some (value 1)) by reflexivity.
    apply (Qle_units (Prim2SF a) (Prim2SF 1) q _ Va V1 Hq E1) in Hle.
    assert (Q1 : (value 1 == 1)%Q) by reflexivity.
    rewrite Q1 in Hle. apply Qle_bool_iff in Hle. congruence. }
  apply Z.compare_lt_iff in Hgt. now rewrite Hgt.
Qed.

(** Outside [[0, 1]], one of the two square roots is a NaN. *)
Lemma sqrt_nan_cases (a : float) :
  in_range 0 1 a = false ->
  math.Sqrt a = nan \/ math.Sqrt (1 - a)%float = nan.
Proof.
  intros H. destruct (Prim2SF a) as [s | [] | | [] m e] eqn:E.
  - unfold in_range, F2Q in H. rewrite E in H. discriminate.
  - left. apply Prim2SF_inj. unfold math.Sqrt. now rewrite sqrt_spec, E.
  - right. apply Prim2SF_inj. unfold math.Sqrt.
    now rewrite sqrt_spec, sub_spec, E.
  - left. apply Prim2SF_inj. unfold math.Sqrt. now rewrite sqrt_spec, E.
  - left. apply Prim2SF_inj. unfold math.Sqrt. now rewrite sqrt_spec, E.
  - right. apply Sqrt_one_minus. exact (above_one a m e E H).
Qed.

(** The distance of a valid input: in range when [a] is in [[0, 1]], a
    NaN otherwise. *)
Lemma distance_cases (libm : math.MathLib) (lat1 lon1 lat2 lon2 : float) :
  atan2_nan libm -> atan2_nan_l libm -> atan2_first_quadrant libm ->
  ValidLat lat1 -> ValidLon lon1 -> ValidLat lat2 -> ValidLon lon2 ->
  (in_range 0 1 (var_a libm lat1 lon1 lat2 lon2) = true ->
   InRange 0 (2001509 # 100) (fst (Haversine libm lat1 lon1 lat2 lon2)))
  /\ (in_range 0 1 (var_a libm lat1 lon1 lat2 lon2) = false ->
      fst (Haversine libm lat1 lon1 lat2 lon2) = nan).
Proof.
  intros Hnan Hnanl Hq V1 V2 V3 V4.
  rewrite (Haversine_var_a libm _ _ _ _ V1 V2 V3 V4). cbn [fst].
  set (a := var_a libm lat1 lon1 lat2 lon2). split; intros Ha.
  - destruct (atan2_arguments a Ha) as [Hy Hx].
    destruct (Hq _ _ Hy Hx) as [H0 H1].
    now apply distance_of_angle.
  - destruct (sqrt_nan_cases a Ha) as [-> | ->].
    + now rewrite Hnanl.
    + now rewrite Hnan.
Qed.

Lemma libm3_atan2 :
  atan2_nan libm3 /\ atan2_nan_l libm3 /\ atan2_first_quadrant libm3.
Proof.
  split; [| split].
  - intros y. cbn [math.Atan2 libm3].
    now rewrite andb_false_r.
  - intros x. reflexivity.
  - intros y x Hy Hx. cbn [math.Atan2 libm3].
    assert (Ey : (y =? y)%float = true).
    { rewrite leb_spec in Hy. rewrite eqb_spec.
      change (Prim2SF 0) with (S754_zero false) in Hy.
      unfold SFeqb, SFleb in *.
      pose proof (compare_units _ _ (Prim2SF_valid y) (Prim2SF_valid y)) as C.
      destruct (Prim2SF y) as [s | [] | | s m e]; try discriminate;
        try reflexivity; rewrite C by reflexivity; now rewrite Z.compare_refl. }
    assert (Ex : (x =? x)%float = true).
    { destruct Hx as [-> | Hx]; [reflexivity|].
      rewrite ltb_spec in Hx. rewrite eqb_spec.
      change (Prim2SF 0) with (S754_zero false) in Hx.
      unfold SFeqb, SFltb in *.
      pose proof (compare_units _ _ (Prim2SF_valid x) (Prim2SF_valid x)) as C.
      destruct (Prim2SF x) as [s | [] | | s m e]; try discriminate;
        try reflexivity; rewrite C by reflexivity; now rewrite Z.compare_refl. }
    rewrite Ey, Ex. split; reflexivity.
Qed.

(** ** Opposite coordinates *)

Lemma SFsub_opp_opp (x y : spec_float) :
  SF64sub (SFopp y) (SFopp x) = SF64sub x y.
Proof.
  destruct x as [[] | [] | | sx mx ex], y as [[] | [] | | sy my ey];
    cbn [SF64sub SFsub SFopp negb]; try reflexivity;
    try (now rewrite negb_involutive).
  rewrite (Z.min_comm ey ex). f_equal.
  destruct sx, sy; cbn [negb cond_Zopp]; lia.
Qed.

Lemma sub_opp_opp (x y : float) : (- y - - x = x - y)%float.
Proof.
  apply Prim2SF_inj. rewrite !sub_spec, !opp_spec. apply SFsub_opp_opp.
Qed.

Lemma F2R_opp (x : float) : F2R (- x)%float = (- F2R x)%R.
Proof. rewrite !F2R_SF2R, opp_spec. apply SF2R_opp. Qed.

Lemma F2Q_opp_number (x : float) : F2Q (- x)%float <> None <-> F2Q x <> None.
Proof.
  unfold F2Q. rewrite opp_spec.
  destruct (Prim2SF x); cbn; split; congruence.
Qed.

Lemma InRange_opp (b : Q) (x : float) :
  InRange (- b) b (- x)%float <-> InRange (- b) b x.
Proof.
  split; intros H; apply InRange_RRange in H; apply RRange_InRange;
    destruct H as [Hn Hr]; rewrite Q2R_opp in *.
  - rewrite F2R_opp in Hr. split; [now apply F2Q_opp_number | lra].
  - split; [now apply F2Q_opp_number|]. rewrite F2R_opp. lra.
Qed.

Lemma bool_eq_iff (b c : bool) : (b = true <-> c = true) -> b = c.
Proof. destruct b, c; intuition congruence. Qed.

Lemma isValidLatitude_opp (lat : float) :
  isValidLatitude (- lat) = isValidLatitude lat.
Proof.
  apply bool_eq_iff. rewrite !isValidLatitude_spec. unfold ValidLat.
  apply (InRange_opp 90).
Qed.

Lemma isValidLongitude_opp (lon : float) :
  isValidLongitude (- lon) = isValidLongitude lon.
Proof.
  apply bool_eq_iff. rewrite !isValidLongitude_spec. unfold ValidLon.
  apply (InRange_opp 180).
Qed.

(** The squared sine of half the radians of a difference, for opposite
    coordinates. *)
Lemma sin2_opp_opp (libm : math.MathLib) (x y : float) :
  sin2_even libm ->
  Spec.sin2 libm (degToRad (- y - - x) / 2)%float
  = Spec.sin2 libm (degToRad (y - x) / 2)%float.
Proof.
  intros Heven. rewrite sub_opp_opp. symmetry. now apply sin2_swap.
Qed.

Lemma Haversine_unfold (libm : math.MathLib) (lat1 lon1 lat2 lon2 : float) :
  Haversine libm lat1 lon1 lat2 lon2
  = if negb (isValidLatitude lat1) || negb (isValidLatitude lat2)
       || negb (isValidLongitude lon1) || negb (isValidLongitude lon2)
    then ((-1)%float, Some InvalidCoordinate)
    else ((earthRadius
           * (2 * math.Atan2 libm
                    (math.Sqrt
                       (Spec.sin2 libm (degToRad (lat2 - lat1) / 2)
                        + math.Cos libm (degToRad lat1)
                          * math.Cos libm (degToRad lat2)
                          * Spec.sin2 libm (degToRad (lon2 - lon1) / 2)))
                    (math.Sqrt
                       (1 - (Spec.sin2 libm (degToRad (lat2 - lat1) / 2)
                             + math.Cos libm (degToRad lat1)
                               * math.Cos libm (degToRad lat2)
                               * Spec.sin2 libm
                                   (degToRad (lon2 - lon1) / 2))))))%float,
          None).
Proof. reflexivity. Qed.

Lemma mirror_equator (libm : math.MathLib) (lat1 lon1 lat2 lon2 : float) :
  sin2_even libm -> cos_even libm ->
  Haversine libm (- lat1) lon1 (- lat2) lon2
  = Haversine libm lat1 lon1 lat2 lon2.
Proof.
  intros Hs Hc. rewrite !Haversine_unfold.
  rewrite !isValidLatitude_opp, (sin2_opp_opp libm lat1 lat2 Hs).
  now rewrite !degToRad_opp, !Hc.
Qed.

Lemma mirror_meridian (libm : math.MathLib) (lat1 lon1 lat2 lon2 : float) :
  sin2_even libm ->
  Haversine libm lat1 (- lon1) lat2 (- lon2)
  = Haversine libm lat1 lon1 lat2 lon2.
Proof.
  intros Hs. rewrite !Haversine_unfold.
  now rewrite !isValidLongitude_opp, (sin2_opp_opp libm lon1 lon2 Hs).
Qed.

Lemma libm0_cos_even : cos_even libm0.
Proof. intros x. reflexivity. Qed.

(** ** The claims *)

(** C1: on every input whose latitudes lie in [-90, 90] and whose
    longitudes lie in [-180, 180], [Haversine] returns a nil error and the
    distance of the specified algorithm: dLat = radians(lat2-lat1),
    dLon = radians(lon2-lon1) with radians = degrees * pi / 180,
    a = sin^2(dLat/2) + cos(radians(lat1)) * cos(radians(lat2)) * sin^2(dLon/2),
    c = 2 * atan2(sqrt(a), sqrt(1-a)), result 6371 * c. *)
Theorem Haversine_computes_spec
  (libm : math.MathLib) (lat1 lon1 lat2 lon2 : float) :
  ValidLat lat1 -> ValidLon lon1 -> ValidLat lat2 -> ValidLon lon2 ->
  Haversine libm lat1 lon1 lat2 lon2
  = (Spec.distance libm lat1 lon1 lat2 lon2, None).
Proof.
  intros H1 H2 H3 H4. now apply Haversine_accepts.
Qed.

Lemma Haversine_computes_spec_witness :
  Haversine libm0 nyc_lat nyc_lon la_lat la_lon
  = (Spec.distance libm0 nyc_lat nyc_lon la_lat la_lon, None).
Proof.
  apply (Haversine_computes_spec libm0 nyc_lat nyc_lon la_lat la_lon).
  - apply ValidLat_run. vm_compute. reflexivity.
  - apply ValidLon_run. vm_compute. reflexivity.
  - apply ValidLat_run. vm_compute. reflexivity.
  - apply ValidLon_run. vm_compute. reflexivity.
Defined.

(** C2: [Haversine] returns the sentinel distance -1 with the
    InvalidCoordinate error if and only if lat1 is outside [-90, 90], or
    lat2 is outside [-90, 90], or lon1 is outside [-180, 180], or lon2 is
    outside [-180, 180]; on every other input the error is nil. *)
Theorem Haversine_rejects_iff
  (libm : math.MathLib) (lat1 lon1 lat2 lon2 : float) :
  let r := Haversine libm lat1 lon1 lat2 lon2 in
  let out_of_range :=
    ~ ValidLat lat1 \/ ~ ValidLat lat2 \/ ~ ValidLon lon1 \/ ~ ValidLon lon2 in
  ((fst r = (-1)%float /\ snd r <> None) <-> out_of_range)
  /\ (out_of_range -> r = ((-1)%float, Some InvalidCoordinate))
  /\ (~ out_of_range -> snd r = None).
Proof.
  cbv zeta.
  assert (Hacc : ~ (~ ValidLat lat1 \/ ~ ValidLat lat2
                    \/ ~ ValidLon lon1 \/ ~ ValidLon lon2) ->
                 snd (Haversine libm lat1 lon1 lat2 lon2) = None).
  { intros Hin. unfold Haversine.
    destruct (negb (isValidLatitude lat1) || negb (isValidLatitude lat2)
              || negb (isValidLongitude lon1) || negb (isValidLongitude lon2))
      eqn:G; [| reflexivity].
    apply invalid_gate in G. contradiction. }
  split; [split | split].
  - intros [_ Herr].
    destruct (negb (isValidLatitude lat1) || negb (isValidLatitude lat2)
              || negb (isValidLongitude lon1) || negb (isValidLongitude lon2))
      eqn:G.
    + now apply invalid_gate.
    + exfalso. apply Herr. unfold Haversine. now rewrite G.
  - intros H. rewrite (Haversine_rejects libm _ _ _ _ H). simpl.
    split; [reflexivity | discriminate].
  - apply Haversine_rejects.
  - exact Hacc.
Qed.

Lemma Haversine_rejects_iff_witness :
  Haversine libm0 91 0 0 0 = ((-1)%float, Some InvalidCoordinate)
  /\ snd (Haversine libm0 nyc_lat nyc_lon la_lat la_lon) = None.
Proof.
  pose proof (Haversine_rejects_iff libm0 91 0 0 0) as (_ & Hrej & _).
  pose proof (Haversine_rejects_iff libm0 nyc_lat nyc_lon la_lat la_lon)
    as (_ & _ & Hacc).
  split.
  - apply Hrej. left. apply not_ValidLat_run. vm_compute. reflexivity.
  - apply Hacc. intros [H | [H | [H | H]]]; apply H;
      first [ apply ValidLat_run | apply ValidLon_run ];
      vm_compute; reflexivity.
Defined.

(** C3: the bounds are inclusive: latitudes of exactly 90 or -90 with
    longitudes of exactly 180 or -180 are accepted with a nil error, and a
    latitude of 90.0001 or a longitude of 180.0001 (the binary64 numbers
    nearest to these decimals), in either point, is rejected with the
    InvalidCoordinate error. *)
Theorem bounds_are_inclusive (libm : math.MathLib) :
  nearest_binary64 (900001 # 10000) lat_90_0001 = true
  /\ nearest_binary64 (1800001 # 10000) lon_180_0001 = true
  /\ (forall b1 b2 b3 b4 : bool,
      snd (Haversine libm (signed b1 90) (signed b2 180)
                          (signed b3 90) (signed b4 180)) = None)
  /\ (forall lon1 lat2 lon2 : float,
         Haversine libm lat_90_0001 lon1 lat2 lon2
         = ((-1)%float, Some InvalidCoordinate))
  /\ (forall lat1 lon1 lon2 : float,
         Haversine libm lat1 lon1 lat_90_0001 lon2
         = ((-1)%float, Some InvalidCoordinate))
  /\ (forall lat1 lat2 lon2 : float,
         Haversine libm lat1 lon_180_0001 lat2 lon2
         = ((-1)%float, Some InvalidCoordinate))
  /\ (forall lat1 lon1 lat2 : float,
         Haversine libm lat1 lon1 lat2 lon_180_0001
         = ((-1)%float, Some InvalidCoordinate)).
Proof.
  assert (Hlat : ~ ValidLat lat_90_0001)
    by (apply not_ValidLat_run; vm_compute; reflexivity).
  assert (Hlon : ~ ValidLon lon_180_0001)
    by (apply not_ValidLon_run; vm_compute; reflexivity).
  split; [| split; [| split; [| split; [| split; [| split]]]]]; intros.
  - vm_compute. reflexivity.
  - vm_compute. reflexivity.
  - destruct b1, b2, b3, b4; reflexivity.
  - apply Haversine_rejects. auto.
  - apply Haversine_rejects. auto.
  - apply Haversine_rejects. auto.
  - apply Haversine_rejects. auto.
Qed.

(** C4 (the code departs from it): on the valid input (2.5, -180),
    (-2.5, 0), a pair of antipodal points, the error is nil and the
    distance returned is a number of no interval, let alone a non-negative
    one below [pi * 6371] -- for every library that rounds to nearest the
    sine, the cosine and the square at the arguments of this call and whose
    [Atan2] of a NaN is a NaN. *)
Theorem Haversine_antipodal_no_distance (libm : math.MathLib) :
  rounds_to_nearest_at libm 2.5 (-180) (-2.5) 0 -> atan2_nan libm ->
  (ValidLat 2.5 /\ ValidLon (-180) /\ ValidLat (-2.5) /\ ValidLon 0)
  /\ snd (Haversine libm 2.5 (-180) (-2.5) 0) = None
  /\ forall lo hi : Q,
       ~ InRange lo hi (fst (Haversine libm 2.5 (-180) (-2.5) 0)).
Proof.
  intros Hr Hnan. rewrite (antipodal_result libm Hr Hnan).
  split; [exact antipodal_valid|]. split; [reflexivity|].
  intros lo hi. apply NonFinite_not_InRange. left. reflexivity.
Qed.

Lemma Haversine_antipodal_no_distance_witness :
  snd (Haversine libm_a 2.5 (-180) (-2.5) 0) = None
  /\ ~ InRange 0 20016 (fst (Haversine libm_a 2.5 (-180) (-2.5) 0)).
Proof.
  destruct (Haversine_antipodal_no_distance libm_a libm_a_rounds
              libm0_atan2_nan) as (_ & Herr & Hno).
  split; [exact Herr | exact (Hno 0%Q 20016%Q)].
Defined.

(** C5: symmetry.  For all coordinate pairs A = (lat1, lon1) and
    B = (lat2, lon2), valid or not, [Haversine] returns the same distance
    and the same error from A to B and from B to A, on every library
    whose squared sine is an even function. *)
Theorem Haversine_symmetric
  (libm : math.MathLib) (lat1 lon1 lat2 lon2 : float) :
  sin2_even libm ->
  Haversine libm lat1 lon1 lat2 lon2 = Haversine libm lat2 lon2 lat1 lon1.
Proof.
  intros Heven.
  pose proof (distance_swap libm lat1 lon1 lat2 lon2 Heven) as Hd.
  unfold Haversine, Spec.distance, Spec.a, Spec.c in *.
  change Spec.radians with degToRad in Hd.
  change Spec.earthRadiusKm with earthRadius in Hd.
  unfold Spec.sin2 in Hd.
  destruct (isValidLatitude lat1), (isValidLatitude lat2),
    (isValidLongitude lon1), (isValidLongitude lon2);
    cbn [negb orb]; try reflexivity.
  now rewrite Hd.
Qed.

Lemma Haversine_symmetric_witness :
  Haversine libm0 nyc_lat nyc_lon la_lat la_lon
  = Haversine libm0 la_lat la_lon nyc_lat nyc_lon.
Proof.
  apply (Haversine_symmetric libm0 nyc_lat nyc_lon la_lat la_lon).
  exact libm0_sin2_even.
Defined.

(** C6: identity.  For every valid coordinate pair A = (lat, lon),
    [Haversine] from A to A returns the distance 0 (the float [+0]) and a
    nil error, on every library that maps zero to zero ([Sin 0 = 0],
    [Pow 0 2 = 0], [Atan2 0 1 = 0]) and whose cosine of a number is a
    number of [-2, 2]. *)
Theorem Haversine_identity (libm : math.MathLib) (lat lon : float) :
  sin_zero libm -> pow_zero libm -> cos_bounded libm -> atan2_zero libm ->
  ValidLat lat -> ValidLon lon ->
  Haversine libm lat lon lat lon = (0%float, None).
Proof.
  intros Hsin Hpow Hcos Hatan Vlat Vlon.
  rewrite Haversine_accepts by assumption. f_equal.
  pose proof (ValidLat_mag lat Vlat) as Mlat.
  pose proof (ValidLon_mag lon Vlon) as Mlon.
  unfold Spec.distance, Spec.a, Spec.c, Spec.sin2.
  rewrite (sub_self lat (mag_F2Q _ _ Mlat)).
  rewrite (sub_self lon (mag_F2Q _ _ Mlon)).
  change (Spec.radians 0 / 2)%float with 0%float.
  unfold sin_zero, pow_zero, atan2_zero in *.
  rewrite Hsin, Hpow.
  change Spec.radians with degToRad.
  rewrite (mul_self_zero _ (Hcos _ (mag_F2Q _ _ (degToRad_mag_gen lat 8 Mlat ltac:(lia))))).
  change (math.Sqrt (0 + 0)) with 0%float.
  change (math.Sqrt (1 - (0 + 0))) with 1%float.
  rewrite Hatan. reflexivity.
Qed.

Lemma Haversine_identity_witness :
  Haversine libm0 nyc_lat nyc_lon nyc_lat nyc_lon = (0%float, None).
Proof.
  destruct libm0_identity as (Hsin & Hpow & Hcos & Hatan).
  apply (Haversine_identity libm0 nyc_lat nyc_lon Hsin Hpow Hcos Hatan).
  - apply ValidLat_run. vm_compute. reflexivity.
  - apply ValidLon_run. vm_compute. reflexivity.
Defined.

(** C7: New York City to Los Angeles.  The coordinates are the binary64
    numbers nearest to 40.7128, -74.0060, 34.0549 and -118.2426; for every
    library accurate to [1e-6] at the arguments of this call, the error is
    nil and the distance is within 1 km of 3935.75 km. *)
Theorem Haversine_nyc_la (libm : math.MathLib) :
  accurate_at 1e-6 libm nyc_lat nyc_lon la_lat la_lon ->
  (nearest_binary64 (407128 # 10000) nyc_lat
   && nearest_binary64 (- 740060 # 10000) nyc_lon
   && nearest_binary64 (340549 # 10000) la_lat
   && nearest_binary64 (- 1182426 # 10000) la_lon = true)
  /\ snd (Haversine libm nyc_lat nyc_lon la_lat la_lon) = None
  /\ InRange (393475 # 100) (393675 # 100)
       (fst (Haversine libm nyc_lat nyc_lon la_lat la_lon)).
Proof.
  intros Hacc. split; [vm_compute; reflexivity|].
  rewrite Haversine_accepts
    by (first [apply ValidLat_run | apply ValidLon_run];
        vm_compute; reflexivity).
  cbn [fst snd]. split; [reflexivity|].
  apply RRange_InRange.
  eapply RRange_weaken; [exact (nyc_la_distance libm Hacc) | |];
    unfold Q2R; cbn [Qnum Qden]; lra.
Qed.

Lemma Haversine_nyc_la_witness :
  snd (Haversine libm_nyc_la nyc_lat nyc_lon la_lat la_lon) = None
  /\ InRange (393475 # 100) (393675 # 100)
       (fst (Haversine libm_nyc_la nyc_lat nyc_lon la_lat la_lon)).
Proof.
  exact (proj2 (Haversine_nyc_la libm_nyc_la libm_nyc_la_accurate)).
Defined.

(** C9: a NaN or an infinity fails both range tests, so [Haversine]
    rejects every input with a non-finite argument, whatever the library:
    the sentinel -1 and the InvalidCoordinate error are returned, and no
    function of the library is applied to anything. *)
Theorem nonfinite_rejected :
  (forall x : float,
      NonFinite x -> isValidLatitude x = false /\ isValidLongitude x = false)
  /\ (forall (libm : math.MathLib) (lat1 lon1 lat2 lon2 : float),
         NonFinite lat1 \/ NonFinite lon1 \/ NonFinite lat2 \/ NonFinite lon2 ->
         Haversine libm lat1 lon1 lat2 lon2
         = ((-1)%float, Some InvalidCoordinate)).
Proof.
  split.
  - intros x [-> | [-> | ->]]; split; reflexivity.
  - intros libm lat1 lon1 lat2 lon2 H. apply Haversine_rejects.
    destruct H as [H | [H | [H | H]]];
      pose proof (NonFinite_not_InRange (-90) 90 _ H);
      pose proof (NonFinite_not_InRange (-180) 180 _ H); auto.
Qed.

Lemma nonfinite_rejected_witness :
  Haversine libm0 nyc_lat nan la_lat la_lon
  = ((-1)%float, Some InvalidCoordinate).
Proof.
  apply (proj2 nonfinite_rejected libm0 nyc_lat nan la_lat la_lon).
  right. left. left. reflexivity.
Defined.

(** C10 (the code departs from it): on the valid input (2.5, -180),
    (-2.5, 0) the intermediate value [a] is [1 + 2^-52], above 1, so that
    [math.Sqrt(1 - a)] is a NaN and [Haversine] returns a NaN distance with
    a nil error -- for every library that rounds to nearest the sine, the
    cosine and the square at the arguments of this call and whose [Atan2]
    of a NaN is a NaN. *)
Theorem Haversine_antipodal_nan (libm : math.MathLib) :
  rounds_to_nearest_at libm 2.5 (-180) (-2.5) 0 -> atan2_nan libm ->
  (ValidLat 2.5 /\ ValidLon (-180) /\ ValidLat (-2.5) /\ ValidLon 0)
  /\ Spec.a libm 2.5 (-180) (-2.5) 0 = 0x1.0000000000001p+0%float
  /\ (1 <? Spec.a libm 2.5 (-180) (-2.5) 0)%float = true
  /\ math.Sqrt (1 - Spec.a libm 2.5 (-180) (-2.5) 0)%float = nan
  /\ Haversine libm 2.5 (-180) (-2.5) 0 = (nan, None).
Proof.
  intros Hr Hnan. pose proof (antipodal_a libm Hr) as Ha.
  split; [exact antipodal_valid|]. split; [exact Ha|].
  rewrite Ha. split; [reflexivity|]. split; [reflexivity|].
  now apply antipodal_result.
Qed.

Lemma Haversine_antipodal_nan_witness :
  Haversine libm_a 2.5 (-180) (-2.5) 0 = (nan, None).
Proof.
  apply (Haversine_antipodal_nan libm_a libm_a_rounds libm0_atan2_nan).
Defined.

(** [Haversine] applies [math.Sin] and [math.Cos] to numbers only: no
    input, valid or not, makes the result depend on the sine or the cosine
    of a NaN or of an infinity. *)
Theorem Haversine_trig_on_numbers
  (libm libm' : math.MathLib) (lat1 lon1 lat2 lon2 : float) :
  agree_on_numbers libm libm' ->
  Haversine libm lat1 lon1 lat2 lon2 = Haversine libm' lat1 lon1 lat2 lon2.
Proof.
  intros (Hsin & Hcos & Hatan & Hpow). unfold Haversine.
  destruct (negb (isValidLatitude lat1) || negb (isValidLatitude lat2)
            || negb (isValidLongitude lon1) || negb (isValidLongitude lon2))
    eqn:G; [reflexivity|].
  apply valid_gate in G. destruct G as (V1 & V2 & V3 & V4).
  apply ValidLat_mag in V1, V2. apply ValidLon_mag in V3, V4.
  rewrite <- (Hsin _ (half_angle_number lat1 lat2 V1 V2)).
  rewrite <- (Hsin _ (half_angle_number lon1 lon2 V3 V4)).
  rewrite <- (Hcos _ (radians_number lat1 V1)).
  rewrite <- (Hcos _ (radians_number lat2 V2)).
  rewrite <- !Hpow, <- Hatan. reflexivity.
Qed.

Lemma Haversine_trig_on_numbers_witness :
  Haversine libm0 nyc_lat nyc_lon la_lat la_lon
  = Haversine libm1 nyc_lat nyc_lon la_lat la_lon.
Proof.
  apply (Haversine_trig_on_numbers libm0 libm1 nyc_lat nyc_lon la_lat la_lon).
  exact libm0_libm1_agree.
Defined.

(** ** Further properties of the code *)

(** [degToRad] is odd: the radians of the opposite are the opposite of the
    radians, bit for bit, for every float (NaN and the infinities
    included). *)
Theorem degToRad_odd (deg : float) :
  degToRad (- deg)%float = (- degToRad deg)%float.
Proof. apply degToRad_opp. Qed.

(** [degToRad] is accurate: on a number of [[-360, 360]] (as every valid
    latitude and longitude is) its result is a number within
    [2e-14] of [deg * PI / 180], [PI] the real number. *)
Theorem degToRad_accurate (deg : float) :
  InRange (-360) 360 deg ->
  F2Q (degToRad deg) <> None
  /\ (Rabs (F2R (degToRad deg) - F2R deg * PI / 180) <= 2e-14)%R.
Proof.
  intros H. apply InRange_RRange in H. destruct H as [Hn Hr].
  unfold Q2R in Hr. cbn [Qnum Qden] in Hr.
  apply degToRad_error; [exact Hn|].
  unfold Rabs. destruct Rcase_abs; lra.
Qed.

Lemma degToRad_accurate_witness :
  F2Q (degToRad nyc_lon) <> None
  /\ (Rabs (F2R (degToRad nyc_lon) - F2R nyc_lon * PI / 180) <= 2e-14)%R.
Proof.
  apply (degToRad_accurate nyc_lon).
  apply InRange_in_range. vm_compute. reflexivity.
Defined.

(** The range tests decide the value: [isValidLatitude] holds exactly of
    the numbers of [[-90, 90]] and [isValidLongitude] exactly of the numbers
    of [[-180, 180]]; a NaN or an infinity, which is no number, fails
    both. *)
Theorem range_tests_decide (x : float) :
  (isValidLatitude x = true <-> InRange (-90) 90 x)
  /\ (isValidLongitude x = true <-> InRange (-180) 180 x).
Proof.
  split; [apply isValidLatitude_spec | apply isValidLongitude_spec].
Qed.

(** The two ranges are symmetric: a coordinate is valid exactly when its
    opposite is, for every float. *)
Theorem range_tests_symmetric (x : float) :
  isValidLatitude (- x) = isValidLatitude x
  /\ isValidLongitude (- x) = isValidLongitude x.
Proof.
  split; [apply isValidLatitude_opp | apply isValidLongitude_opp].
Qed.

(** Mirror in the equator: with the opposite latitudes [Haversine]
    returns the same distance and error, bit for bit, on every input --
    for a library with an even squared sine and an even cosine. *)
Theorem Haversine_mirror_equator
  (libm : math.MathLib) (lat1 lon1 lat2 lon2 : float) :
  sin2_even libm -> cos_even libm ->
  Haversine libm (- lat1) lon1 (- lat2) lon2
  = Haversine libm lat1 lon1 lat2 lon2.
Proof. apply mirror_equator. Qed.

Lemma Haversine_mirror_equator_witness :
  Haversine libm0 (- nyc_lat) nyc_lon (- la_lat) la_lon
  = Haversine libm0 nyc_lat nyc_lon la_lat la_lon.
Proof.
  apply (Haversine_mirror_equator libm0 nyc_lat nyc_lon la_lat la_lon).
  - exact libm0_sin2_even.
  - exact libm0_cos_even.
Defined.

(** Mirror in the prime meridian: with the opposite longitudes
    [Haversine] returns the same distance and error, bit for bit, on every
    input -- for a library with an even squared sine. *)
Theorem Haversine_mirror_meridian
  (libm : math.MathLib) (lat1 lon1 lat2 lon2 : float) :
  sin2_even libm ->
  Haversine libm lat1 (- lon1) lat2 (- lon2)
  = Haversine libm lat1 lon1 lat2 lon2.
Proof. apply mirror_meridian. Qed.

Lemma Haversine_mirror_meridian_witness :
  Haversine libm0 nyc_lat (- nyc_lon) la_lat (- la_lon)
  = Haversine libm0 nyc_lat nyc_lon la_lat la_lon.
Proof.
  apply (Haversine_mirror_meridian libm0 nyc_lat nyc_lon la_lat la_lon).
  exact libm0_sin2_even.
Defined.

(** [Haversine] takes the sine of numbers of [[-3.1416, 3.1416]] and the
    cosine of numbers of [[-1.5708, 1.5708]] only: on every input its result
    is the same for two libraries that differ only outside these
    intervals. *)
Theorem Haversine_trig_domain
  (libm libm' : math.MathLib) (lat1 lon1 lat2 lon2 : float) :
  agree_on_domain libm libm' ->
  Haversine libm lat1 lon1 lat2 lon2 = Haversine libm' lat1 lon1 lat2 lon2.
Proof.
  intros (Hsin & Hcos & Hatan & Hpow). unfold Haversine.
  destruct (negb (isValidLatitude lat1) || negb (isValidLatitude lat2)
            || negb (isValidLongitude lon1) || negb (isValidLongitude lon2))
    eqn:G; [reflexivity|].
  apply valid_gate in G. destruct G as (V1 & V2 & V3 & V4).
  assert (Hlat : InRange (- (31416 # 10000)) (31416 # 10000)
                   (degToRad (lat2 - lat1) / 2)%float).
  { apply (InRange_weaken _ _ _ _ _ (half_dLat_range lat1 lat2 V1 V2));
      discriminate. }
  rewrite <- (Hsin _ Hlat).
  rewrite <- (Hsin _ (half_dLon_range lon1 lon2 V3 V4)).
  rewrite <- (Hcos _ (radians_lat_range lat1 V1)).
  rewrite <- (Hcos _ (radians_lat_range lat2 V2)).
  rewrite <- !Hpow, <- Hatan. reflexivity.
Qed.

Lemma Haversine_trig_domain_witness :
  Haversine libm0 nyc_lat nyc_lon la_lat la_lon
  = Haversine libm2 nyc_lat nyc_lon la_lat la_lon.
Proof.
  apply (Haversine_trig_domain libm0 libm2 nyc_lat nyc_lon la_lat la_lon).
  exact libm0_libm2_agree.
Defined.

(** The distance of a valid input is in range or a NaN, and the local
    variable [a] tells which: when [a] is a number of [[0, 1]] the
    distance is a number of [[0, 20015.09]]; otherwise (the source does not
    clamp [a]) it is a NaN -- for a library whose [Atan2] maps a NaN to a
    NaN and the first quadrant into [[0, math.Pi / 2]]. *)
Theorem Haversine_distance_or_nan
  (libm : math.MathLib) (lat1 lon1 lat2 lon2 : float) :
  atan2_nan libm -> atan2_nan_l libm -> atan2_first_quadrant libm ->
  ValidLat lat1 -> ValidLon lon1 -> ValidLat lat2 -> ValidLon lon2 ->
  (in_range 0 1 (var_a libm lat1 lon1 lat2 lon2) = true ->
   InRange 0 (2001509 # 100) (fst (Haversine libm lat1 lon1 lat2 lon2)))
  /\ (in_range 0 1 (var_a libm lat1 lon1 lat2 lon2) = false ->
      fst (Haversine libm lat1 lon1 lat2 lon2) = nan).
Proof. apply distance_cases. Qed.

Lemma Haversine_distance_or_nan_witness :
  in_range 0 1 (var_a libm3 nyc_lat nyc_lon la_lat la_lon) = true
  /\ InRange 0 (2001509 # 100)
       (fst (Haversine libm3 nyc_lat nyc_lon la_lat la_lon)).
Proof.
  destruct libm3_atan2 as (H1 & H2 & H3).
  assert (Ha : in_range 0 1 (var_a libm3 nyc_lat nyc_lon la_lat la_lon)
               = true) by (vm_compute; reflexivity).
  split; [exact Ha|].
  apply (Haversine_distance_or_nan libm3 nyc_lat nyc_lon la_lat la_lon
           H1 H2 H3); try exact Ha;
    first [apply ValidLat_run | apply ValidLon_run]; vm_compute; reflexivity.
Defined.

(** The sentinel is unambiguous: on every input the error is nil exactly
    when the distance is not -1 -- for a library whose [Atan2] maps a NaN to
    a NaN and the first quadrant into [[0, math.Pi / 2]]. *)
Theorem Haversine_sentinel
  (libm : math.MathLib) (lat1 lon1 lat2 lon2 : float) :
  atan2_nan libm -> atan2_nan_l libm -> atan2_first_quadrant libm ->
  snd (Haversine libm lat1 lon1 lat2 lon2) = None
  <-> fst (Haversine libm lat1 lon1 lat2 lon2) <> (-1)%float.
Proof.
  intros H1 H2 H3.
  destruct (negb (isValidLatitude lat1) || negb (isValidLatitude lat2)
            || negb (isValidLongitude lon1) || negb (isValidLongitude lon2))
    eqn:G.
  - unfold Haversine. rewrite G. cbn [fst snd]. split; [discriminate|].
    intros H. now elim H.
  - apply valid_gate in G. destruct G as (V1 & V2 & V3 & V4).
    destruct (distance_cases libm lat1 lon1 lat2 lon2 H1 H2 H3 V1 V3 V2 V4)
      as [Hin Hout].
    rewrite (Haversine_var_a libm _ _ _ _ V1 V3 V2 V4) in *.
    cbn [fst snd] in *. split; [intros _ | reflexivity].
    destruct (in_range 0 1 (var_a libm lat1 lon1 lat2 lon2)).
    + intros E. specialize (Hin eq_refl). rewrite E in Hin.
      apply InRange_in_range in Hin. vm_compute in Hin. discriminate.
    + rewrite (Hout eq_refl). intros E.
      apply (f_equal Prim2SF) in E. discriminate.
Qed.

Lemma Haversine_sentinel_witness :
  snd (Haversine libm3 nyc_lat nyc_lon la_lat la_lon) = None
  <-> fst (Haversine libm3 nyc_lat nyc_lon la_lat la_lon) <> (-1)%float.
Proof.
  destruct libm3_atan2 as (H1 & H2 & H3).
  exact (Haversine_sentinel libm3 nyc_lat nyc_lon la_lat la_lon H1 H2 H3).
Defined.
